(** * Interest-rate stress test notebook (allianz/versions.ipynb)

    A shallow embedding of the notebook's numerical pipeline:
    EWMA covariance, dominant eigenpair selection, chi-squared shock
    scaling, stressed zero curves, fixed-rate bond cash flows and present
    values, and the Base/Up/Down scenario table.

    Conventions of the embedding.
    - A Python/NumPy [float64] is a real number of [R].  The modules
      [Ewma], [Eigen], [Shock] and [Scenario] compute with exact
      arithmetic.  Where a statement depends on rounding or underflow, the
      weight and matrix expressions are read twice more: in [Rounded] with
      a rounding after every operation, and in [Float64] on IEEE binary64
      numbers.  Overflow is in neither.
    - A one-dimensional array is a [list R]; a two-dimensional array of
      shape (T, N) is a list of T rows, its column count N carried
      separately where NumPy's [shape] carries it.
    - A pandas [Timestamp] is a calendar day (midnight, no time zone); the
      bounds of its nanosecond representation are not part of the model.
    - A Python call that can raise is a function into [outcome]. *)

From Stdlib Require Import ZArith List Bool Lia Reals Lra Psatz.
From Stdlib Require Floats.
Import ListNotations.

(** ** Python outcomes *)

Module Py.

Inductive exn : Type :=
| IndexError          (* list index out of range *)
| ZeroDivisionError   (* division by zero on Python numbers *)
| ValueError          (* raised by pandas when an offset does not advance *)
| InvalidInput        (* the error the specification asks for; the notebook never raises it *)
| Unmodelled          (* input outside the fragment embedded here *)
| LoopBound.          (* the bound of an embedded [while] loop was reached *)

Inductive outcome (A : Type) : Type :=
| Returns (a : A)
| Raises (e : exn).

Arguments Returns {A} a.
Arguments Raises {A} e.

Definition bind {A B : Type} (m : outcome A) (k : A -> outcome B) : outcome B :=
  match m with
  | Returns a => k a
  | Raises e => Raises e
  end.

Fixpoint mapM {A B : Type} (f : A -> outcome B) (l : list A) : outcome (list B) :=
  match l with
  | [] => Returns []
  | a :: l' => bind (f a) (fun b => bind (mapM f l') (fun bs => Returns (b :: bs)))
  end.

End Py.

Import Py.

(** ** Calendar: pandas Timestamp, DateOffset and MonthEnd *)

Module Calendar.

Local Open Scope Z_scope.

Record Timestamp : Type := mkTimestamp { year : Z; month : Z; day : Z }.

Definition is_leap_year (y : Z) : bool :=
  ((y mod 4 =? 0) && negb (y mod 100 =? 0)) || (y mod 400 =? 0).

Definition days_in_month (y m : Z) : Z :=
  match m with
  | 1 => 31 | 2 => if is_leap_year y then 29 else 28
  | 3 => 31 | 4 => 30 | 5 => 31 | 6 => 30
  | 7 => 31 | 8 => 31 | 9 => 30 | 10 => 31 | 11 => 30 | 12 => 31
  | _ => 0
  end.

Definition valid (t : Timestamp) : Prop :=
  1 <= month t <= 12 /\ 1 <= day t <= days_in_month (year t) (month t).

(** Proleptic Gregorian ordinal, as [datetime.toordinal]. *)
Definition days_before_year (y : Z) : Z :=
  (y - 1) * 365 + (y - 1) / 4 - (y - 1) / 100 + (y - 1) / 400.

Definition days_before_month (y m : Z) : Z :=
  match m with
  | 1 => 0 | 2 => 31 | 3 => 59 | 4 => 90 | 5 => 120 | 6 => 151
  | 7 => 181 | 8 => 212 | 9 => 243 | 10 => 273 | 11 => 304 | 12 => 334
  | _ => 0
  end + (if (2 <? m) && is_leap_year y then 1 else 0).

Definition toordinal (t : Timestamp) : Z :=
  days_before_year (year t) + days_before_month (year t) (month t) + day t.

(** Timestamps compare by their position on the time line. *)
Definition ts_leb (a b : Timestamp) : bool := toordinal a <=? toordinal b.
Definition ts_ltb (a b : Timestamp) : bool := toordinal a <? toordinal b.
Definition ts_eqb (a b : Timestamp) : bool := toordinal a =? toordinal b.

(** [(a - b).days] *)
Definition days_between (a b : Timestamp) : Z := toordinal a - toordinal b.

(** pandas [shift_month(stamp, months, day_opt)]; [day_opt] is [None]
    (keep the day, clamped to the month's length) or ['end']. *)
Inductive day_opt : Type := DayKeep | DayEnd.

Definition shift_month (t : Timestamp) (months : Z) (o : day_opt) : Timestamp :=
  let dy := (month t + months) / 12 in
  let m := (month t + months) mod 12 in
  let '(m, dy) := if m =? 0 then (12, dy - 1) else (m, dy) in
  let y := year t + dy in
  let d := match o with
           | DayKeep => Z.min (day t) (days_in_month y m)
           | DayEnd => days_in_month y m
           end in
  mkTimestamp y m d.

(** [t + pd.DateOffset(months=n)] and [t + pd.DateOffset(years=n)] *)
Definition add_DateOffset_months (t : Timestamp) (n : Z) : Timestamp :=
  shift_month t n DayKeep.

Definition add_DateOffset_years (t : Timestamp) (n : Z) : Timestamp :=
  let y := year t + n in
  mkTimestamp y (month t) (Z.min (day t) (days_in_month y (month t))).

(** The [MonthEnd(n)] offset behind the frequency string ["<n>ME"]. *)
Definition is_on_offset (t : Timestamp) : bool :=
  day t =? days_in_month (year t) (month t).

Definition roll_convention (other n compare : Z) : Z :=
  if (0 <? n) && (other <? compare) then n - 1
  else if (n <=? 0) && (compare <? other) then n + 1
  else n.

Definition MonthEnd_apply (n : Z) (t : Timestamp) : Timestamp :=
  let compare_day := days_in_month (year t) (month t) in
  shift_month t (roll_convention (day t) n compare_day) DayEnd.

Definition rollforward (t : Timestamp) : Timestamp :=
  if is_on_offset t then t else MonthEnd_apply 1 t.

Definition rollback (t : Timestamp) : Timestamp :=
  if is_on_offset t then t else MonthEnd_apply (-1) t.

Definition month_index (t : Timestamp) : Z := 12 * year t + (month t - 1).

(** Ordinal of the day before the first day of the month with index [mi]. *)
Definition index_start (mi : Z) : Z :=
  days_before_year (mi / 12) + days_before_month (mi / 12) (mi mod 12 + 1).

Definition index_length (mi : Z) : Z := days_in_month (mi / 12) (mi mod 12 + 1).

(** The generator loop of pandas' [_generate_range] for an offset with
    [n >= 0]:
<<
    while cur <= end:
        yield cur
        if cur == end: break
        next_date = offset._apply(cur)
        if next_date <= cur: raise ValueError
        cur = next_date
>> *)
Fixpoint generate_loop (fuel : nat) (n : Z) (cur end_ : Timestamp)
  : outcome (list Timestamp) :=
  match fuel with
  | O => Raises LoopBound
  | S fuel' =>
      if ts_leb cur end_ then
        if ts_eqb cur end_ then Returns [cur]
        else
          let next_date := MonthEnd_apply n cur in
          if ts_leb next_date cur then Raises ValueError
          else bind (generate_loop fuel' n next_date end_)
                    (fun rest => Returns (cur :: rest))
      else Returns []
  end.

(** [pd.date_range(start, end, freq=f"{n}ME")] for [n >= 1]. *)
Definition date_range_ME (n : Z) (start end_ : Timestamp)
  : outcome (list Timestamp) :=
  let '(start, end_) :=
    if negb (is_on_offset start) then (rollforward start, end_)
    else if negb (is_on_offset end_) then (start, rollback end_)
    else (start, end_) in
  if ts_ltb end_ start then Returns []
  else
    let fuel := Z.to_nat (month_index end_ - month_index start + 2) in
    generate_loop fuel n start end_.

(** The month ends a range consists of, by month index: the last day of
    month [mi], the indices [i, i+n, ...] of k months, the index of the last
    month end not after a date, and the month ends from index [first] to
    index [last] in steps of n. *)
Definition month_end_of (mi : Z) : Timestamp :=
  mkTimestamp (mi / 12) (mi mod 12 + 1) (index_length mi).

Fixpoint index_steps (k : nat) (i n : Z) : list Z :=
  match k with
  | O => []
  | S k' => i :: index_steps k' (i + n) n
  end.

Definition last_index (t : Timestamp) : Z :=
  if is_on_offset t then month_index t else month_index t - 1.

Definition month_end_range (n first last : Z) : list Timestamp :=
  if last <? first then []
  else map month_end_of (index_steps (Z.to_nat ((last - first) / n + 1)) first n).

(** What a date of a generated month-end range satisfies. *)
Definition in_range (lo hi x : Timestamp) : Prop :=
  valid x /\ is_on_offset x = true /\ toordinal lo <= toordinal x <= toordinal hi.

End Calendar.

Import Calendar.

(** ** Bond valuer: class [FixedRateBond] *)

Module Bond.

Local Open Scope R_scope.

(** [FixedRateBond(issue, maturity, coupon, freq=2, par=1000000)] *)
Record FixedRateBond : Type := mkBond {
  issue : Timestamp;
  maturity : Timestamp;
  coupon : R;
  freq : Z;
  par : R
}.

(** [sum(xs)]: Python's left fold from 0. *)
Definition py_sum (xs : list R) : R := fold_left Rplus xs 0.

(** [cfs[-1] += par] *)
Fixpoint add_to_last (cfs : list R) (x : R) : outcome (list R) :=
  match cfs with
  | [] => Raises IndexError
  | [c] => Returns [c + x]
  | c :: rest => bind (add_to_last rest x) (fun r => Returns (c :: r))
  end.

(** [int(12/self.freq)]: true division, then truncation toward zero. *)
Definition coupon_step (f : Z) : outcome Z :=
  if (f =? 0)%Z then Raises ZeroDivisionError else Returns (Z.quot 12 f).

(** [cashflows]:
<<
    step = int(12/self.freq)
    dates = pd.date_range(self.issue + pd.DateOffset(months=step),
                          self.maturity, freq=f"{step}ME")
    cfs = [self.par*self.coupon/self.freq]*len(dates)
    cfs[-1] += self.par
    return list(zip(dates, cfs))
>>
    A step of 0 or less (a frequency above 12, or a negative one) is
    outside the embedded fragment. *)
Definition cashflows (b : FixedRateBond) : outcome (list (Timestamp * R)) :=
  bind (coupon_step (freq b)) (fun step =>
  if (step <=? 0)%Z then Raises Unmodelled else
  bind (date_range_ME step (add_DateOffset_months (issue b) step) (maturity b))
       (fun dates =>
  let cfs := repeat (par b * coupon b / IZR (freq b)) (length dates) in
  bind (add_to_last cfs (par b)) (fun cfs =>
  Returns (combine dates cfs)))).

(** A zero curve is known here only through [discount_factor]. *)
Definition Curve : Type := R -> R.

(** [(dt-today).days/365] *)
Definition year_fraction (dt today : Timestamp) : R :=
  IZR (days_between dt today) / 365.

Definition discounted (curve : Curve) (today : Timestamp) (cf : Timestamp * R) : R :=
  snd cf * curve (year_fraction (fst cf) today).

(** [pv]:
<<
    return sum(amt * curve.discount_factor((dt-today).days/365)
               for dt, amt in self.cashflows())
>> *)
Definition pv (b : FixedRateBond) (curve : Curve) (today : Timestamp) : outcome R :=
  bind (cashflows b) (fun cfs =>
  Returns (py_sum (map (discounted curve today) cfs))).

(** The amounts of a schedule of n dates: ordinary coupons, then the
    coupon with the redemption. *)
Definition schedule_amounts (b : FixedRateBond) (n : nat) : list R :=
  let c := par b * coupon b / IZR (freq b) in
  repeat c (n - 1) ++ [c + par b].

(** Bonds used in examples: the two-year 2% semiannual bond of the
    portfolio issued mid-month and on a month end, and a bond maturing
    before its first coupon date. *)
Definition two_year_bond (d : Timestamp) (p : R) : FixedRateBond :=
  mkBond d (add_DateOffset_years d 2) 0.02 2 p.

Definition bond_mid_month (p : R) : FixedRateBond :=
  two_year_bond (mkTimestamp 2024 1 15) p.

Definition bond_month_end (p : R) : FixedRateBond :=
  two_year_bond (mkTimestamp 2024 1 31) p.

Definition bond_short : FixedRateBond :=
  mkBond (mkTimestamp 2024 1 31) (mkTimestamp 2024 4 30) 0.02 2 1000000.

(** The curve whose discount factor is 1 at every maturity. *)
Definition flat_one : Curve := fun _ => 1.

(** The constructor call of the portfolio: a bond issued on [d] that
    matures k years later, with the default frequency 2. *)
Definition semiannual_bond (d : Timestamp) (k : Z) (cpn p : R) : FixedRateBond :=
  mkBond d (add_DateOffset_years d k) cpn 2 p.

End Bond.

Import Bond.

(** ** Covariance estimator: EWMA weights and [H_ewma]

    The expressions of the cell in exact arithmetic.  [Rounded] and
    [Float64] below read the same expressions with the roundings of
    float64. *)

Module Ewma.

Local Open Scope R_scope.

(** [λ = 0.94] *)
Definition lam_notebook : R := 0.94.

(** [np.arange(T-1, -1, -1)] *)
Definition arange_down (T : nat) : list nat := rev (seq 0 T).

(** [xs.sum()] *)
Definition np_sum (xs : list R) : R := fold_right Rplus 0 xs.

(** [(1-λ) * λ ** np.arange(T-1, -1, -1)] *)
Definition raw_weights (lam : R) (T : nat) : list R :=
  map (fun k => (1 - lam) * lam ^ k) (arange_down T).

(** [weights /= weights.sum()] *)
Definition weights (lam : R) (T : nat) : list R :=
  let w := raw_weights lam T in
  let s := np_sum w in
  map (fun x => x / s) w.

(** [rets * weights[:, None]]: row t scaled by weight t. *)
Definition scale_rows (rets : list (list R)) (w : list R) : list (list R) :=
  map (fun rw => map (fun x => x * snd rw) (fst rw)) (combine rets w).

(** [M[:, j]] *)
Definition column (j : nat) (M : list (list R)) : list R :=
  map (fun row => nth j row 0) M.

(** [M.T] for an array with N columns. *)
Definition transpose (N : nat) (M : list (list R)) : list (list R) :=
  map (fun j => column j M) (seq 0 N).

Definition dot (u v : list R) : R :=
  np_sum (map (fun ab => fst ab * snd ab) (combine u v)).

(** [A @ B] where B has p columns. *)
Definition matmul (A B : list (list R)) (p : nat) : list (list R) :=
  map (fun row => map (fun j => dot row (column j B)) (seq 0 p)) A.

(** [H_ewma = (rets * weights[:, None]).T @ rets] for [rets] of shape (T, N). *)
Definition H_ewma (N : nat) (rets : list (list R)) (w : list R) : list (list R) :=
  matmul (transpose N (scale_rows rets w)) rets N.

(** Step 1 of the notebook as a call: [T, N = rets.shape], the weights, the
    matrix.  No statement of the cell raises. *)
Definition ewma_covariance (lam : R) (N : nat) (rets : list (list R))
  : outcome (list (list R)) :=
  let T := length rets in
  Returns (H_ewma N rets (weights lam T)).

(** Shape (T, N), symmetry, the quadratic form [vᵀ H v]. *)
Definition has_shape (T N : nat) (M : list (list R)) : Prop :=
  length M = T /\ Forall (fun row => length row = N) M.

Definition entry (M : list (list R)) (i j : nat) : R := nth j (nth i M []) 0.

Definition symmetric (N : nat) (M : list (list R)) : Prop :=
  forall i j, (i < N)%nat -> (j < N)%nat -> entry M i j = entry M j i.

Definition mat_vec (M : list (list R)) (v : list R) : list R :=
  map (fun row => dot row v) M.

Definition quad_form (M : list (list R)) (v : list R) : R := dot v (mat_vec M v).

Definition positive_semidefinite (N : nat) (M : list (list R)) : Prop :=
  forall v, length v = N -> 0 <= quad_form M v.

(** Entry (i, j) as the weighted sum over the rows. *)
Definition ewma_entry (rets : list (list R)) (w : list R) (i j : nat) : R :=
  np_sum (map (fun rw => nth i (fst rw) 0 * snd rw * nth j (fst rw) 0)
              (combine rets w)).

Definition zeros (N : nat) : list (list R) := repeat (repeat 0 N) N.

Definition outer (x : list R) : list (list R) :=
  map (fun a => map (fun b => a * b) x) x.

End Ewma.

Import Ewma.

(** ** The weight and matrix expressions on binary64

    The same expressions as in [Ewma], evaluated as the notebook evaluates
    them: on IEEE binary64 numbers, here the primitive floats, every
    operation rounding to nearest.  Two library calls are not arithmetic
    of the language.  [**] on an array calls the C function [pow], a
    parameter here.  [.sum()] and [@] add in an order NumPy and BLAS
    choose; [np_sum] adds in index order from 0, and the statements made
    about this module use sums whose value does not depend on the order
    (two terms, or terms that are 0). *)

Module Float64.

Import PrimFloat.

Local Open Scope float_scope.

(** An integer of [np.arange] as a float. *)
Definition of_nat (k : nat) : float := of_uint63 (Uint63.of_Z (Z.of_nat k)).

Definition np_sum (xs : list float) : float := fold_left add xs 0.

Section Power.

(** The C library's [pow]. *)
Variable npy_pow : float -> float -> float.

(** [(1-λ) * λ ** np.arange(T-1, -1, -1)] *)
Definition raw_weights (lam : float) (T : nat) : list float :=
  map (fun k => (1 - lam) * npy_pow lam (of_nat k)) (arange_down T).

(** [weights /= weights.sum()] *)
Definition weights (lam : float) (T : nat) : list float :=
  let w := raw_weights lam T in
  let s := np_sum w in
  map (fun x => x / s) w.

End Power.

(** What is used of [pow]: the C standard's pow(x, 0) = 1, the exact
    pow(x, 1) = x, and the underflow to 0 of the square of 2^-600. *)
Definition libm_pow (pow : float -> float -> float) : Prop :=
  (forall x, pow x 0 = 1) /\ (forall x, pow x 1 = x) /\ pow 0x1p-600 2 = 0.

(** An instance for examples: exact at the exponents 0 and 1, the
    rounded square at every other exponent. *)
Definition pow_example (x y : float) : float :=
  if y =? 0 then 1 else if y =? 1 then x else x * x.

(** [rets * weights[:, None]], [M[:, j]], [M.T], [A @ B] and [H_ewma] as in
    [Ewma]. *)
Definition scale_rows (rets : list (list float)) (w : list float)
  : list (list float) :=
  map (fun rw => map (fun x => x * snd rw) (fst rw)) (combine rets w).

Definition column (j : nat) (M : list (list float)) : list float :=
  map (fun row => nth j row 0) M.

Definition transpose (N : nat) (M : list (list float)) : list (list float) :=
  map (fun j => column j M) (seq 0 N).

Definition dot (u v : list float) : float :=
  np_sum (map (fun ab => fst ab * snd ab) (combine u v)).

Definition matmul (A B : list (list float)) (p : nat) : list (list float) :=
  map (fun row => map (fun j => dot row (column j B)) (seq 0 p)) A.

Definition H_ewma (N : nat) (rets : list (list float)) (w : list float)
  : list (list float) :=
  matmul (transpose N (scale_rows rets w)) rets N.

Definition entry (M : list (list float)) (i j : nat) : float :=
  nth j (nth i M []) 0.

(** The real number a finite float stands for. *)
Definition to_R (x : float) : R :=
  match FloatOps.Prim2SF x with
  | SpecFloat.S754_finite s m e =>
      (IZR (if s then Z.neg m else Z.pos m) * powerRZ 2 e)%R
  | _ => 0%R
  end.

(** The claims about the weights and about the matrix, read on the
    floats the notebook computes. *)
Definition weights_claim : Prop :=
  forall pow, libm_pow pow ->
  forall (lam : float) (T : nat),
    (2 <= T)%nat -> (0 <? lam) = true -> (lam <? 1) = true ->
    Forall (fun w => (0 <? w) = true) (weights pow lam T) /\
    (forall t, (S t < T)%nat ->
       (nth t (weights pow lam T) 0 <=? nth (S t) (weights pow lam T) 0) = true) /\
    np_sum (weights pow lam T) = 1.

Definition matrix_claim : Prop :=
  forall (T N : nat) (rets : list (list float)) (w : list float),
    length rets = T -> Forall (fun row => length row = N) rets ->
    length w = T -> Forall (fun x => (0 <? x) = true) w -> np_sum w = 1 ->
    (forall i j, (i < N)%nat -> (j < N)%nat ->
       entry (H_ewma N rets w) i j = entry (H_ewma N rets w) j i) /\
    positive_semidefinite N (map (map to_R) (H_ewma N rets w)).

End Float64.

(** ** Risk factor extractor: dominant eigenpair *)

Module Eigen.

Local Open Scope R_scope.

(** [np.argmax]: index of the first maximal element. *)
Fixpoint argmax_from (best_i : nat) (best : R) (i : nat) (l : list R) : nat :=
  match l with
  | [] => best_i
  | x :: l' =>
      if Rlt_dec best x then argmax_from i x (S i) l'
      else argmax_from best_i best (S i) l'
  end.

Definition argmax (vals : list R) : outcome nat :=
  match vals with
  | [] => Raises ValueError
  | x :: l => Returns (argmax_from 0 x 1 l)
  end.

(** [idx = np.argmax(vals); λ_max = vals[idx]; e_max = vecs[:, idx]] *)
Definition dominant_pair (vals : list R) (vecs : list (list R))
  : outcome (R * list R) :=
  bind (argmax vals) (fun idx =>
  Returns (nth idx vals 0, column idx vecs)).

(** Eigenpairs of a matrix with N rows and columns. *)
Definition scale (c : R) (v : list R) : list R := map (fun x => c * x) v.

Definition norm2 (v : list R) : R := sqrt (dot v v).

Definition is_eigenvector (N : nat) (H : list (list R)) (mu : R) (v : list R) : Prop :=
  length v = N /\ Exists (fun x => x <> 0) v /\ mat_vec H v = scale mu v.

Definition is_eigenvalue (N : nat) (H : list (list R)) (mu : R) : Prop :=
  exists v, is_eigenvector N H mu v.

Fixpoint ascending (l : list R) : Prop :=
  match l with
  | x :: ((y :: _) as l') => x <= y /\ ascending l'
  | _ => True
  end.

(** The documented result of [np.linalg.eigh(H)] on a symmetric matrix:
    [vals] holds the eigenvalues of H in ascending order, and column k of
    [vecs] is a normalized eigenvector for [vals[k]]. *)
Definition eigh_result (N : nat) (H : list (list R))
  (vals : list R) (vecs : list (list R)) : Prop :=
  length vals = N /\
  has_shape N N vecs /\
  ascending vals /\
  (forall mu, is_eigenvalue N H mu <-> In mu vals) /\
  (forall k, (k < N)%nat ->
     is_eigenvector N H (nth k vals 0) (column k vecs) /\
     norm2 (column k vecs) = 1).

End Eigen.

Import Eigen.

(** ** Shock scaler *)

Module Shock.

Local Open Scope R_scope.

(** [np.sqrt]: the square root on non-negative input; [None] stands for
    the [nan] NumPy yields on negative input. *)
Definition np_sqrt (x : R) : option R :=
  if Rle_dec 0 x then Some (sqrt x) else None.

(** [shock_mag = np.sqrt(c * λ_max)] *)
Definition shock_mag (c lam_max : R) : option R := np_sqrt (c * lam_max).

(** [delta_up = shock_mag * e_max] and [delta_down = -shock_mag * e_max] *)
Definition delta_up (mag : R) (e_max : list R) : list R :=
  map (fun e => mag * e) e_max.

Definition delta_down (mag : R) (e_max : list R) : list R :=
  map (fun e => - mag * e) e_max.

Section Chi2.

(** [scipy.stats.chi2.ppf(q, df)], the inverse CDF of the chi-squared
    distribution; SciPy is outside the repository. *)
Variable chi2_ppf : R -> nat -> R.

(** [c = stats.chi2.ppf(0.995, df=N)] *)
Definition quantile_constant (N : nat) : R := chi2_ppf 0.995 N.

(** Steps 3 and 4 of the notebook. *)
Definition shock_scaler (N : nat) (lam_max : R) (e_max : list R)
  : option (R * list R * list R) :=
  match shock_mag (quantile_constant N) lam_max with
  | Some mag => Some (mag, delta_up mag e_max, delta_down mag e_max)
  | None => None
  end.

End Chi2.

(** A table for examples: every entry is 20.2777, SciPy's
    [chi2.ppf(0.995, df=7)] to four decimals. *)
Definition chi2_ppf_example : R -> nat -> R := fun _ _ => 20.2777.

(** [np.rint]: the nearest integer, a tie going to the even one. *)
Definition rint (x : R) : Z :=
  let n := Zfloor x in
  let d := x - IZR n in
  if Rlt_dec d (1 / 2) then n
  else if Rlt_dec (1 / 2) d then (n + 1)%Z
  else if Z.even n then n else (n + 1)%Z.

(** [x.round(decimals)]: scale by a power of ten, [rint], scale back.  In
    exact arithmetic: NumPy rounds the product and the quotient to
    float64, so that its result can differ from this one in the last bit
    and at a decimal tie.  The operation is odd and monotone either way,
    which is what the statements about it use. *)
Definition np_round (decimals : nat) (x : R) : R :=
  IZR (rint (x * 10 ^ decimals)) / 10 ^ decimals.

(** [shocks_ewma = pd.DataFrame({"ewma_up": delta_up,
    "ewma_down": delta_down}, index=df_diff.columns).round(6)], as its two
    columns. *)
Definition shocks_ewma (up down : list R) : list R * list R :=
  (map (np_round 6) up, map (np_round 6) down).

Section Pipeline.

Variable chi2_ppf : R -> nat -> R.

(** [np.linalg.eigh], returning [(vals, vecs)]. *)
Variable eigh : list (list R) -> list R * list (list R).

(** The first code cell, from [rets] to the shock table; [None] is the
    table of [nan] that a negative argument of [np.sqrt] leaves. *)
Definition shock_cell (lam : R) (N : nat) (rets : list (list R))
  : outcome (option (list R * list R)) :=
  bind (ewma_covariance lam N rets) (fun H =>
  bind (dominant_pair (fst (eigh H)) (snd (eigh H))) (fun pair =>
  match shock_scaler chi2_ppf N (fst pair) (snd pair) with
  | Some (_, up, down) => Returns (Some (shocks_ewma up down))
  | None => Returns None
  end)).

End Pipeline.

(** An instance for examples: the decomposition of the diagonal matrix
    with entries 0 and 1, returned for every input. *)
Definition eigh_example : list (list R) -> list R * list (list R) :=
  fun _ => ([0; 1], [[1; 0]; [0; 1]]).

End Shock.

Import Shock.

(** ** The weight and matrix expressions with a rounding after every
    operation

    [rnd] maps the exact result of an operation to the float64 the
    operation returns; the operands are reals that are floats.  [**] on an
    array calls the C function [pow], here at the integer exponents of
    [np.arange].  [.sum()] and [@] add in an order NumPy and BLAS choose;
    [np_sum] adds in index order from 0. *)

Module Rounded.

Local Open Scope R_scope.

Section Arithmetic.

Variable rnd : R -> R.

Variable npy_pow : R -> nat -> R.

(** [xs.sum()] *)
Definition np_sum (xs : list R) : R := fold_left (fun acc x => rnd (acc + x)) xs 0.

(** [(1-λ) * λ ** np.arange(T-1, -1, -1)] *)
Definition raw_weights (lam : R) (T : nat) : list R :=
  map (fun k => rnd (rnd (1 - lam) * npy_pow lam k)) (arange_down T).

(** [weights /= weights.sum()] *)
Definition weights (lam : R) (T : nat) : list R :=
  let w := raw_weights lam T in
  let s := np_sum w in
  map (fun x => rnd (x / s)) w.

(** [rets * weights[:, None]] *)
Definition scale_rows (rets : list (list R)) (w : list R) : list (list R) :=
  map (fun rw => map (fun x => rnd (x * snd rw)) (fst rw)) (combine rets w).

Definition dot (u v : list R) : R :=
  np_sum (map (fun ab => rnd (fst ab * snd ab)) (combine u v)).

(** [A @ B] where B has p columns. *)
Definition matmul (A B : list (list R)) (p : nat) : list (list R) :=
  map (fun row => map (fun j => dot row (column j B)) (seq 0 p)) A.

(** [H_ewma = (rets * weights[:, None]).T @ rets] *)
Definition H_ewma (N : nat) (rets : list (list R)) (w : list R) : list (list R) :=
  matmul (transpose N (scale_rows rets w)) rets N.

End Arithmetic.

(** Rounding to nearest on a set [F] of floats, away from overflow: it
    keeps floats and the order; the sum of two floats is rounded with a
    relative error of at most [u]; any other result with a relative error
    of at most [u] or, where it underflows, an absolute error of at most
    [eta].  For binary64, u = 2^-53 and eta = 2^-1075. *)
Definition rounding (u eta : R) (F : R -> Prop) (rnd : R -> R) : Prop :=
  0 <= u < 1 /\ 0 <= eta /\
  F 0 /\ F 1 /\
  (forall x, F x -> F (- x)) /\
  (forall x, F (rnd x)) /\
  (forall x, F x -> rnd x = x) /\
  (forall x y, x <= y -> rnd x <= rnd y) /\
  (forall x y, F x -> F y -> Rabs (rnd (x + y) - (x + y)) <= u * Rabs (x + y)) /\
  (forall x, Rabs (rnd x - x) <= u * Rabs x + eta).

(** What is used of [pow] at a base 0 < λ < 1: a float, exactly 1 at the
    exponent 0, never negative, and no larger at a larger exponent, as
    λ^k is and as a rounding that keeps the order leaves it. *)
Definition libm_pow (F : R -> Prop) (pow : R -> nat -> R) (lam : R) : Prop :=
  pow lam 0%nat = 1 /\
  (forall k, F (pow lam k)) /\
  (forall k, 0 <= pow lam k) /\
  (forall k, pow lam (S k) <= pow lam k).

(** Exact arithmetic as an instance: no rounding, every real a float. *)
Definition exact : R -> R := fun x => x.

Definition all_reals : R -> Prop := fun _ => True.

(** The bounds of the statements about this module.  [growth u T] is the
    relative error that T roundings can compound to. *)
Definition growth (u : R) (T : nat) : R := (1 + u) ^ T - 1.

(** Entry (i, j) of [H_ewma] as the rounded sum over the rows. *)
Definition ewma_entry (rnd : R -> R) (rets : list (list R)) (w : list R)
  (i j : nat) : R :=
  np_sum rnd (map (fun rw => rnd (rnd (nth i (fst rw) 0 * snd rw) * nth j (fst rw) 0))
                  (combine rets w)).

(** [Σ_t w_t·|x_t[i]|·|x_t[j]|] and [Σ_t |x_t[j]|], over the rows t. *)
Definition abs_entry (rets : list (list R)) (w : list R) (i j : nat) : R :=
  Ewma.np_sum (map (fun rw => Rabs (nth i (fst rw) 0) * snd rw * Rabs (nth j (fst rw) 0))
                   (combine rets w)).

Definition abs_column (rets : list (list R)) (w : list R) (j : nat) : R :=
  Ewma.np_sum (map (fun rw => Rabs (nth j (fst rw) 0)) (combine rets w)).

(** The distances the statements allow, for T rows: of the rounded sum of
    the weights from 1, and of entry (i, j) of the rounded matrix from the
    exact one. *)
Definition sum_tolerance (u eta : R) (T : nat) : R :=
  6 * INR T * u + 2 * INR T * eta.

Definition entry_tolerance (u eta : R) (T : nat) (rets : list (list R))
  (w : list R) (i j : nat) : R :=
  2 * INR (T + 2) * u * abs_entry rets w i j
  + 2 * (abs_column rets w j + INR T) * eta.

(** A second instance: rounding to the nearest multiple of 2^-k, a tie
    going to the even multiple.  It is a fixed-point format: a product or
    a quotient below half a step underflows to 0. *)
Definition fixed (k : nat) (x : R) : R := IZR (rint (x * 2 ^ k)) / 2 ^ k.

Definition on_grid (k : nat) (x : R) : Prop := exists n : Z, x = IZR n / 2 ^ k.

Definition fixed_pow (k : nat) (x : R) (e : nat) : R := fixed k (x ^ e).

End Rounded.

(** ** Curve builder and scenario aggregator *)

Module Scenario.

Local Open Scope R_scope.

(** Tenors 3M, 6M, 1Y, 3Y, 5Y, 10Y, 15Y as year fractions. *)
Definition tenors : list R := [0.25; 0.5; 1; 3; 5; 10; 15].

(** The shock table printed in the notebook's first cell. *)
Definition ewma_up_example : list R :=
  [-0.000265; -0.000213; -0.000298; -0.002440; -0.002763; -0.002755; -0.002597].

Definition ewma_down_example : list R :=
  [0.000265; 0.000213; 0.000298; 0.002440; 0.002763; 0.002755; 0.002597].

(** [base_rates + shock] on arrays of one length. *)
Definition vadd (a b : list R) : list R :=
  map (fun xy => fst xy + snd xy) (combine a b).

(** The portfolio of section 5.4. *)
Definition portfolio (today : Timestamp) : list FixedRateBond :=
  [ mkBond today (add_DateOffset_years today 2) 0.02 2 1000000;
    mkBond today (add_DateOffset_years today 5) 0.035 2 1000000;
    mkBond today (add_DateOffset_years today 10) 0.03 2 1000000 ].

(** [pvs = [b.pv(zc, today) for b in bonds]] and [sum(pvs)] *)
Definition scenario_row (bonds : list FixedRateBond) (zc : Curve) (today : Timestamp)
  : outcome (list R * R) :=
  bind (mapM (fun b => pv b zc today) bonds) (fun pvs =>
  Returns (pvs, py_sum pvs)).

Definition portfolio_pv (bonds : list FixedRateBond) (zc : Curve) (today : Timestamp)
  : outcome R :=
  bind (scenario_row bonds zc today) (fun row => Returns (snd row)).

Section Curves.

(** [ZeroCurve(tenors, rates).discount_factor]; the class comes from an
    earlier notebook of the project and is known only by this method. *)
Variable ZeroCurve : list R -> list R -> Curve.

Variables (base_rates ewma_up ewma_down : list R).

Definition zc_up : Curve := ZeroCurve tenors (vadd base_rates ewma_up).
Definition zc_down : Curve := ZeroCurve tenors (vadd base_rates ewma_down).

(** Modelled from the spec: [zc_base] is built in an earlier notebook of
    the project; the Curve Builder of the specification makes it the zero
    curve of the unshocked base rates on the same tenor grid. *)
Definition zc_base : Curve := ZeroCurve tenors base_rates.

(** The loop of section 5.5: one row per scenario, Base, Up, Down. *)
Definition results (bonds : list FixedRateBond) (today : Timestamp)
  : outcome (list (list R * R)) :=
  mapM (fun zc => scenario_row bonds zc today) [zc_base; zc_up; zc_down].

End Curves.

(** A curve constructor under which a lower rate at every tenor gives a
    higher discount factor at every positive maturity. *)
Definition rate_antitone (ZeroCurve : list R -> list R -> Curve) : Prop :=
  forall ts r1 r2 t,
    r1 <> [] -> Forall2 Rlt r1 r2 -> 0 < t ->
    ZeroCurve ts r2 t < ZeroCurve ts r1 t.

(** A bond of positive duration at [today]: every cash flow lies in the
    future, none is negative and one is positive. *)
Definition positive_duration (today : Timestamp) (b : FixedRateBond) : Prop :=
  exists cfs,
    cashflows b = Returns cfs /\
    Forall (fun cf => (toordinal today < toordinal (fst cf))%Z /\ 0 <= snd cf) cfs /\
    Exists (fun cf => 0 < snd cf) cfs.

(** An instance used in examples: continuous compounding at the rate of
    the first tenor not before the maturity (the last rate beyond the
    grid). *)
Fixpoint lookup_rate (ts rates : list R) (t : R) : R :=
  match ts, rates with
  | _, [] => 0
  | _, [r] => r
  | [], r :: _ => r
  | tn :: ts', r :: rates' => if Rle_dec t tn then r else lookup_rate ts' rates' t
  end.

Definition step_curve (ts rates : list R) : Curve :=
  fun t => exp (- lookup_rate ts rates t * t).

(** Base rates and a valuation date used in examples. *)
Definition base_rates_example : list R := [0.030; 0.031; 0.032; 0.034; 0.035; 0.037; 0.038].

Definition today_example : Timestamp := mkTimestamp 2024 1 31.

(** [pv_df = pd.DataFrame(results, columns=cols).round(2)]: every number
    of the table to two decimals. *)
Definition round_row (row : list R * R) : list R * R :=
  (map (np_round 2) (fst row), np_round 2 (snd row)).

Definition pv_df (rows : list (list R * R)) : list (list R * R) :=
  map round_row rows.

End Scenario.

Import Scenario.

(** * Calendar facts *)

Module CalendarFacts.

Local Open Scope Z_scope.

Lemma days_before_year_succ (y : Z) :
  days_before_year (y + 1)
  = days_before_year y + 365 + (if is_leap_year y then 1 else 0).
Proof.
  unfold days_before_year, is_leap_year.
  replace (y + 1 - 1) with y by lia.
  destruct (Z.eqb_spec (y mod 4) 0), (Z.eqb_spec (y mod 100) 0),
    (Z.eqb_spec (y mod 400) 0); cbn [andb orb negb];
    Z.div_mod_to_equations; lia.
Qed.

Lemma month_cases (m : Z) :
  1 <= m <= 12 ->
  m = 1 \/ m = 2 \/ m = 3 \/ m = 4 \/ m = 5 \/ m = 6 \/
  m = 7 \/ m = 8 \/ m = 9 \/ m = 10 \/ m = 11 \/ m = 12.
Proof. lia. Qed.

Ltac each_month H :=
  let C := fresh "C" in
  pose proof (month_cases _ H) as C;
  repeat (destruct C as [C | C]; [ subst | ]); [ .. | subst ].

Lemma days_in_month_bounds (y m : Z) :
  1 <= m <= 12 -> 28 <= days_in_month y m <= 31.
Proof.
  intros H. each_month H; cbn; try lia.
  destruct (is_leap_year y); lia.
Qed.

Lemma index_month_bounds (mi : Z) : 1 <= mi mod 12 + 1 <= 12.
Proof. pose proof (Z.mod_pos_bound mi 12); lia. Qed.

Lemma index_length_bounds (mi : Z) : 28 <= index_length mi <= 31.
Proof. apply days_in_month_bounds, index_month_bounds. Qed.

Lemma index_start_succ (mi : Z) :
  index_start (mi + 1) = index_start mi + index_length mi.
Proof.
  unfold index_start, index_length.
  pose proof (index_month_bounds mi) as Hm.
  assert (Hc : mi mod 12 + 1 = 12 \/ mi mod 12 + 1 <= 11) by lia.
  destruct Hc as [Hc | Hc].
  - assert (E1 : (mi + 1) / 12 = mi / 12 + 1) by (Z.div_mod_to_equations; lia).
    assert (E2 : (mi + 1) mod 12 + 1 = 1) by (Z.div_mod_to_equations; lia).
    rewrite E1, E2, Hc, days_before_year_succ.
    unfold days_before_month, days_in_month. cbn.
    destruct (is_leap_year (mi / 12)), (is_leap_year (mi / 12 + 1)); lia.
  - assert (E1 : (mi + 1) / 12 = mi / 12) by (Z.div_mod_to_equations; lia).
    assert (E2 : (mi + 1) mod 12 + 1 = (mi mod 12 + 1) + 1)
      by (Z.div_mod_to_equations; lia).
    rewrite E1, E2.
    remember (mi mod 12 + 1) as m eqn:Em. clear Em E1 E2.
    assert (H : 1 <= m <= 12) by lia.
    each_month H; try lia; unfold days_before_month, days_in_month; cbn;
      destruct (is_leap_year (mi / 12)); lia.
Qed.

Lemma index_start_add (a k : Z) :
  0 <= k -> index_start a + 28 * k <= index_start (a + k).
Proof.
  intros Hk. revert k Hk. apply (natlike_ind (fun k => _ + 28 * k <= _)).
  - replace (a + 0) with a by lia. lia.
  - intros x Hx IH.
    replace (a + Z.succ x) with (a + x + 1) by lia.
    rewrite index_start_succ.
    pose proof (index_length_bounds (a + x)). lia.
Qed.

Lemma index_start_mono (a b : Z) :
  a <= b -> index_start a + 28 * (b - a) <= index_start b.
Proof.
  intros H. pose proof (index_start_add a (b - a) ltac:(lia)) as L.
  now replace (a + (b - a)) with b in L by lia.
Qed.

Lemma month_index_div (t : Timestamp) :
  1 <= month t <= 12 ->
  month_index t / 12 = year t /\ month_index t mod 12 + 1 = month t.
Proof. unfold month_index. intros H. Z.div_mod_to_equations. lia. Qed.

Lemma toordinal_index (t : Timestamp) :
  1 <= month t <= 12 ->
  toordinal t = index_start (month_index t) + day t.
Proof.
  intros H. destruct (month_index_div t H) as [E1 E2].
  unfold toordinal, index_start. now rewrite E1, E2.
Qed.

Lemma index_length_valid (t : Timestamp) :
  1 <= month t <= 12 ->
  index_length (month_index t) = days_in_month (year t) (month t).
Proof.
  intros H. destruct (month_index_div t H) as [E1 E2].
  unfold index_length. now rewrite E1, E2.
Qed.

(** Dates of an earlier month come earlier. *)
Lemma toordinal_month_lt (a b : Timestamp) :
  valid a -> valid b -> month_index a < month_index b ->
  toordinal a < toordinal b.
Proof.
  intros [Ha1 Ha2] [Hb1 Hb2] H.
  rewrite (toordinal_index a Ha1), (toordinal_index b Hb1).
  pose proof (index_start_mono (month_index a + 1) (month_index b) ltac:(lia)).
  rewrite index_start_succ, (index_length_valid a Ha1) in H0. lia.
Qed.

Lemma toordinal_le_month (a b : Timestamp) :
  valid a -> valid b -> toordinal a <= toordinal b ->
  month_index a <= month_index b.
Proof.
  intros Ha Hb H.
  destruct (Z_lt_le_dec (month_index b) (month_index a)) as [L | L]; [ | exact L ].
  pose proof (toordinal_month_lt b a Hb Ha L). lia.
Qed.

Lemma shift_month_index (t : Timestamp) (k : Z) (o : day_opt) :
  1 <= month t <= 12 ->
  month_index (shift_month t k o) = month_index t + k /\
  1 <= month (shift_month t k o) <= 12.
Proof.
  intros H. unfold shift_month, month_index.
  destruct (Z.eqb_spec ((month t + k) mod 12) 0) as [E | E]; cbn [year month];
    Z.div_mod_to_equations; lia.
Qed.

Lemma shift_month_end (t : Timestamp) (k : Z) :
  1 <= month t <= 12 ->
  valid (shift_month t k DayEnd) /\ is_on_offset (shift_month t k DayEnd) = true.
Proof.
  intros H. destruct (shift_month_index t k DayEnd H) as [_ Hm].
  revert Hm. unfold shift_month, valid, is_on_offset.
  destruct (Z.eqb_spec ((month t + k) mod 12) 0) as [E | E]; cbn [year month day];
    intros Hm; (split; [ split; [ exact Hm | ] | apply Z.eqb_refl ]);
    match goal with |- context [days_in_month ?y ?m] =>
      pose proof (days_in_month_bounds y m Hm) end; lia.
Qed.

Lemma shift_month_keep (t : Timestamp) (k : Z) :
  valid t -> valid (shift_month t k DayKeep).
Proof.
  intros [H Hd]. destruct (shift_month_index t k DayKeep H) as [_ Hm].
  revert Hm. unfold shift_month, valid.
  destruct (Z.eqb_spec ((month t + k) mod 12) 0) as [E | E]; cbn [year month day];
    intros Hm; (split; [ exact Hm | ]);
    match goal with |- context [days_in_month ?y ?m] =>
      pose proof (days_in_month_bounds y m Hm) end; lia.
Qed.

Lemma is_on_offset_true (t : Timestamp) :
  is_on_offset t = true -> day t = days_in_month (year t) (month t).
Proof. unfold is_on_offset. intros H. now apply Z.eqb_eq. Qed.

(** One step of [MonthEnd(n)] from a month end, n >= 1. *)
Lemma MonthEnd_apply_on (n : Z) (t : Timestamp) :
  valid t -> is_on_offset t = true ->
  valid (MonthEnd_apply n t) /\
  is_on_offset (MonthEnd_apply n t) = true /\
  month_index (MonthEnd_apply n t) = month_index t + n.
Proof.
  intros [Hm Hd] On. apply is_on_offset_true in On.
  unfold MonthEnd_apply, roll_convention. rewrite <- On.
  rewrite Z.ltb_irrefl, andb_false_r, andb_false_r.
  replace (if n <=? 0 then n else n) with n by (destruct (n <=? 0); reflexivity).
  destruct (shift_month_end t n Hm) as [V O].
  destruct (shift_month_index t n DayEnd Hm) as [I _]. auto.
Qed.

Lemma rollforward_spec (t : Timestamp) :
  valid t ->
  valid (rollforward t) /\ is_on_offset (rollforward t) = true /\
  month_index (rollforward t) = month_index t /\
  toordinal t <= toordinal (rollforward t).
Proof.
  intros V. unfold rollforward.
  destruct (is_on_offset t) eqn:On; [ repeat split; auto; try apply V; lia | ].
  destruct V as [Hm Hd].
  assert (Hlt : day t < days_in_month (year t) (month t)).
  { unfold is_on_offset in On. apply Z.eqb_neq in On. lia. }
  unfold MonthEnd_apply, roll_convention.
  apply Z.ltb_lt in Hlt. rewrite Hlt. cbn [Z.ltb Z.compare andb Z.sub Z.add Z.opp Z.pos_sub].
  destruct (shift_month_end t 0 Hm) as [V O].
  destruct (shift_month_index t 0 DayEnd Hm) as [I _].
  rewrite Z.add_0_r in I.
  repeat split; auto; try apply V.
  rewrite (toordinal_index t Hm), (toordinal_index _ (proj1 V)), I.
  apply is_on_offset_true in O. rewrite O.
  rewrite <- (index_length_valid _ (proj1 V)), I, (index_length_valid t Hm).
  apply Z.ltb_lt in Hlt. lia.
Qed.

Lemma rollback_spec (t : Timestamp) :
  valid t ->
  valid (rollback t) /\ toordinal (rollback t) <= toordinal t /\
  month_index t - 1 <= month_index (rollback t).
Proof.
  intros V. unfold rollback.
  destruct (is_on_offset t) eqn:On; [ repeat split; auto; try apply V; lia | ].
  pose proof V as [Hm Hd].
  unfold MonthEnd_apply, roll_convention.
  assert (E : (days_in_month (year t) (month t) <? day t) = false)
    by (apply Z.ltb_ge; lia).
  rewrite E. cbn [Z.ltb Z.leb Z.compare andb].
  destruct (shift_month_end t (-1) Hm) as [V' O].
  destruct (shift_month_index t (-1) DayEnd Hm) as [I _].
  split; [ exact V' | split; [ | lia ] ].
  apply Z.lt_le_incl, toordinal_month_lt; auto. lia.
Qed.

Lemma add_DateOffset_months_spec (t : Timestamp) (k : Z) :
  valid t ->
  valid (add_DateOffset_months t k) /\
  month_index (add_DateOffset_months t k) = month_index t + k.
Proof.
  intros V. split; [ now apply shift_month_keep | ].
  apply shift_month_index, V.
Qed.

Lemma in_range_intro (lo hi x : Timestamp) :
  valid x -> is_on_offset x = true ->
  toordinal lo <= toordinal x -> toordinal x <= toordinal hi ->
  in_range lo hi x.
Proof. intros V O L H. split; [ exact V | split; [ exact O | lia ] ]. Qed.

Lemma in_range_weaken (lo lo' hi hi' : Timestamp) (l : list Timestamp) :
  toordinal lo' <= toordinal lo -> toordinal hi <= toordinal hi' ->
  Forall (in_range lo hi) l -> Forall (in_range lo' hi') l.
Proof.
  intros H1 H2. apply Forall_impl. intros x (V & O & B).
  apply in_range_intro; auto; lia.
Qed.

(** The loop returns within its bound, and every date it yields is a
    month end between [cur] and [end_]. *)
Lemma generate_loop_returns (n : Z) (end_ : Timestamp) :
  1 <= n -> valid end_ ->
  forall (fuel : nat) (cur : Timestamp),
    valid cur -> is_on_offset cur = true ->
    1 <= Z.of_nat fuel ->
    month_index end_ - month_index cur + 2 <= Z.of_nat fuel ->
    exists l,
      generate_loop fuel n cur end_ = Returns l /\
      Forall (in_range cur end_) l /\
      (toordinal cur <= toordinal end_ -> l <> []).
Proof.
  intros Hn Ve. induction fuel as [ | fuel IH]; intros cur Vc On F1 F2; [ lia | ].
  cbn [generate_loop]. unfold ts_leb, ts_eqb.
  destruct (Z.leb_spec (toordinal cur) (toordinal end_)) as [Le | Gt].
  - destruct (Z.eqb_spec (toordinal cur) (toordinal end_)) as [E | Ne].
    + exists [cur]. repeat split; [ | discriminate ].
      constructor; [ | constructor ]. apply in_range_intro; auto; lia.
    + destruct (MonthEnd_apply_on n cur Vc On) as (Vn & On' & In').
      assert (Lt : toordinal cur < toordinal (MonthEnd_apply n cur))
        by (apply toordinal_month_lt; auto; lia).
      destruct (Z.leb_spec (toordinal (MonthEnd_apply n cur)) (toordinal cur));
        [ lia | ].
      pose proof (toordinal_le_month cur end_ Vc Ve Le) as Mi.
      destruct (IH (MonthEnd_apply n cur) Vn On') as (l & El & Fl & _);
        [ lia | lia | ].
      rewrite El. cbn [bind]. exists (cur :: l).
      repeat split; [ | discriminate ].
      constructor; [ apply in_range_intro; auto; lia | ].
      eapply in_range_weaken; [ | | exact Fl ]; lia.
  - exists []. repeat split; [ constructor | lia ].
Qed.

(** [pd.date_range] with a month-end frequency returns, and yields month
    ends between [start] and [end_]; it yields none exactly when [end_]
    comes before the first month end on or after [start]. *)
Lemma date_range_ME_returns (n : Z) (start end_ : Timestamp) :
  1 <= n -> valid start -> valid end_ ->
  exists l,
    date_range_ME n start end_ = Returns l /\
    Forall (in_range start end_) l /\
    (toordinal (rollforward start) <= toordinal end_ <-> l <> []).
Proof.
  intros Hn Vs Ve. unfold date_range_ME.
  destruct (rollforward_spec start Vs) as (Vr & Or & Ir & Lr).
  destruct (rollback_spec end_ Ve) as (Vb & Lb & Ib).
  destruct (is_on_offset start) eqn:Os; cbn [negb].
  - assert (Er : rollforward start = start) by (unfold rollforward; now rewrite Os).
    rewrite Er in *.
    destruct (is_on_offset end_) eqn:Oe; cbn [negb]; unfold ts_ltb.
    + destruct (Z.ltb_spec (toordinal end_) (toordinal start)) as [Lt | Ge].
      * exists []. repeat split; [ constructor | lia | congruence ].
      * pose proof (toordinal_le_month start end_ Vs Ve Ge).
        destruct (generate_loop_returns n end_ Hn Ve
                    (Z.to_nat (month_index end_ - month_index start + 2)) start)
          as (l & El & Fl & Nl); auto; try lia.
        exists l. repeat split; auto.
    + assert (Oe' : day end_ < days_in_month (year end_) (month end_)).
      { unfold is_on_offset in Oe. apply Z.eqb_neq in Oe. destruct Ve. lia. }
      destruct (Z.ltb_spec (toordinal (rollback end_)) (toordinal start)) as [Lt | Ge].
      * exists []. repeat split; [ constructor | | congruence ].
        intros Le. exfalso.
        pose proof (toordinal_le_month start end_ Vs Ve Le) as Mi.
        assert (Mi' : month_index start < month_index end_).
        { destruct (Z.eq_dec (month_index start) (month_index end_)) as [E | E];
            [ | lia ].
          rewrite (toordinal_index start (proj1 Vs)),
            (toordinal_index end_ (proj1 Ve)), E in Le.
          apply is_on_offset_true in Os.
          rewrite <- (index_length_valid start (proj1 Vs)), E,
            (index_length_valid end_ (proj1 Ve)) in Os. lia. }
        destruct (Z.eq_dec (month_index start) (month_index (rollback end_)))
          as [E | E].
        -- unfold rollback in *. rewrite Oe in *.
           destruct Ve as [Hm Hd].
           destruct (shift_month_end end_ (-1) Hm) as [V' O'].
           assert (Ea : MonthEnd_apply (-1) end_ = shift_month end_ (-1) DayEnd).
           { unfold MonthEnd_apply, roll_convention.
             replace (days_in_month (year end_) (month end_) <? day end_)
               with false by (symmetry; apply Z.ltb_ge; lia).
             reflexivity. }
           rewrite Ea in *.
           rewrite (toordinal_index start (proj1 Vs)),
             (toordinal_index _ (proj1 V')), <- E in Lt.
           apply is_on_offset_true in Os, O'.
           rewrite <- (index_length_valid start (proj1 Vs)) in Os.
           rewrite <- (index_length_valid _ (proj1 V')), <- E in O'. lia.
        -- pose proof (toordinal_month_lt start (rollback end_) Vs Vb ltac:(lia)).
           lia.
      * pose proof (toordinal_le_month start (rollback end_) Vs Vb Ge).
        destruct (generate_loop_returns n (rollback end_) Hn Vb
                    (Z.to_nat (month_index (rollback end_) - month_index start + 2))
                    start)
          as (l & El & Fl & Nl); auto; try lia.
        exists l. repeat split; auto; [ | intros; lia ].
        eapply in_range_weaken; [ | | exact Fl ]; lia.
  - unfold ts_ltb.
    destruct (Z.ltb_spec (toordinal end_) (toordinal (rollforward start))) as [Lt | Ge].
    + exists []. repeat split; [ constructor | lia | congruence ].
    + pose proof (toordinal_le_month _ end_ Vr Ve Ge).
      destruct (generate_loop_returns n end_ Hn Ve
                  (Z.to_nat (month_index end_ - month_index (rollforward start) + 2))
                  (rollforward start))
        as (l & El & Fl & Nl); auto; try lia.
      exists l. repeat split; auto.
      eapply in_range_weaken; [ | | exact Fl ]; lia.
Qed.

(** ** The range as a list of month ends *)

Lemma month_end_of_spec (i : Z) :
  valid (month_end_of i) /\ is_on_offset (month_end_of i) = true /\
  month_index (month_end_of i) = i.
Proof.
  unfold valid, is_on_offset, month_index, month_end_of. cbn [year month day].
  pose proof (index_month_bounds i). pose proof (index_length_bounds i).
  unfold index_length in *.
  repeat split; try lia. Z.div_mod_to_equations. lia.
Qed.

Lemma shift_month_end_eq (t : Timestamp) (k : Z) :
  1 <= month t <= 12 ->
  shift_month t k DayEnd = month_end_of (month_index t + k).
Proof.
  intros H. unfold shift_month, month_end_of, index_length, month_index.
  assert (E1 : (12 * year t + (month t - 1) + k) / 12
               = year t + (if (month t + k) mod 12 =? 0
                           then (month t + k) / 12 - 1 else (month t + k) / 12)).
  { destruct (Z.eqb_spec ((month t + k) mod 12) 0); Z.div_mod_to_equations; lia. }
  assert (E2 : (12 * year t + (month t - 1) + k) mod 12 + 1
               = if (month t + k) mod 12 =? 0 then 12 else (month t + k) mod 12).
  { destruct (Z.eqb_spec ((month t + k) mod 12) 0); Z.div_mod_to_equations; lia. }
  rewrite E1, E2. destruct ((month t + k) mod 12 =? 0); reflexivity.
Qed.

Lemma MonthEnd_apply_eq (n : Z) (t : Timestamp) :
  valid t -> is_on_offset t = true ->
  MonthEnd_apply n t = month_end_of (month_index t + n).
Proof.
  intros [Hm Hd] On. apply is_on_offset_true in On.
  unfold MonthEnd_apply, roll_convention. rewrite <- On.
  rewrite Z.ltb_irrefl, andb_false_r, andb_false_r.
  replace (if n <=? 0 then n else n) with n by (destruct (n <=? 0); reflexivity).
  now apply shift_month_end_eq.
Qed.

Lemma on_offset_month_end (t : Timestamp) :
  valid t -> is_on_offset t = true -> t = month_end_of (month_index t).
Proof.
  intros [Hm Hd] On. apply is_on_offset_true in On.
  destruct (month_index_div t Hm) as [E1 E2].
  unfold month_end_of, index_length. rewrite E1, E2, <- On.
  now destruct t.
Qed.

Lemma rollforward_eq (t : Timestamp) :
  valid t -> rollforward t = month_end_of (month_index t).
Proof.
  intros V. unfold rollforward. destruct (is_on_offset t) eqn:On.
  - now apply on_offset_month_end.
  - destruct V as [Hm Hd].
    assert (Hlt : (day t <? days_in_month (year t) (month t)) = true).
    { unfold is_on_offset in On. apply Z.eqb_neq in On. apply Z.ltb_lt. lia. }
    unfold MonthEnd_apply, roll_convention. rewrite Hlt.
    cbn [Z.ltb Z.compare andb Z.sub Z.add Z.opp Z.pos_sub].
    rewrite shift_month_end_eq by exact Hm. f_equal. lia.
Qed.

Lemma rollback_eq (t : Timestamp) :
  valid t -> rollback t = month_end_of (last_index t).
Proof.
  intros V. unfold rollback, last_index. destruct (is_on_offset t) eqn:On.
  - now apply on_offset_month_end.
  - destruct V as [Hm Hd].
    unfold MonthEnd_apply, roll_convention.
    replace (days_in_month (year t) (month t) <? day t) with false
      by (symmetry; apply Z.ltb_ge; lia).
    cbn [Z.ltb Z.leb Z.compare andb].
    rewrite shift_month_end_eq by exact Hm. f_equal.
Qed.

Lemma last_index_month_end (i : Z) : last_index (month_end_of i) = i.
Proof.
  destruct (month_end_of_spec i) as (_ & On & Mi).
  unfold last_index. now rewrite On.
Qed.

(** A month end is not after a date exactly when its month is not after the
    date's last completed month. *)
Lemma month_end_le_iff (i : Z) (e : Timestamp) :
  valid e ->
  toordinal (month_end_of i) <= toordinal e <-> i <= last_index e.
Proof.
  intros Ve. destruct (month_end_of_spec i) as (Vi & Oi & Mi).
  pose proof Ve as [Hm Hd].
  assert (Di : day (month_end_of i) = index_length i) by reflexivity.
  unfold last_index. split.
  - intros Le. pose proof (toordinal_le_month _ e Vi Ve Le) as M. rewrite Mi in M.
    destruct (is_on_offset e) eqn:Oe; [ exact M | ].
    destruct (Z.eq_dec i (month_index e)) as [E | E]; [ | lia ].
    rewrite (toordinal_index _ (proj1 Vi)), (toordinal_index e Hm), Mi, Di, E,
      (index_length_valid e Hm) in Le.
    unfold is_on_offset in Oe. apply Z.eqb_neq in Oe. lia.
  - intros Le.
    destruct (Z.eq_dec i (month_index e)) as [E | E].
    + destruct (is_on_offset e) eqn:Oe; [ | lia ].
      apply is_on_offset_true in Oe.
      rewrite (toordinal_index _ (proj1 Vi)), (toordinal_index e Hm), Mi, Di, E,
        (index_length_valid e Hm). lia.
    + apply Z.lt_le_incl, toordinal_month_lt; auto. rewrite Mi.
      destruct (is_on_offset e); lia.
Qed.

Lemma month_end_range_step (n i last : Z) :
  1 <= n -> i <= last ->
  month_end_range n i last = month_end_of i :: month_end_range n (i + n) last.
Proof.
  intros Hn Hi. unfold month_end_range.
  destruct (Z.ltb_spec last i); [ lia | ].
  destruct (Z.ltb_spec last (i + n)) as [Lt | Ge].
  - replace ((last - i) / n) with 0 by (symmetry; apply Z.div_small; lia).
    reflexivity.
  - replace (last - i) with (1 * n + (last - (i + n))) by lia.
    rewrite Z.div_add_l by lia.
    replace (Z.to_nat (1 + (last - (i + n)) / n + 1))
      with (S (Z.to_nat ((last - (i + n)) / n + 1))).
    + reflexivity.
    + assert (0 <= (last - (i + n)) / n) by (apply Z.div_pos; lia). lia.
Qed.

Lemma month_end_range_nil (n i last : Z) : last < i -> month_end_range n i last = [].
Proof.
  intros H. unfold month_end_range. now destruct (Z.ltb_spec last i); [ | lia ].
Qed.

(** The loop yields the month ends from its start in steps of n. *)
Lemma generate_loop_spec (n : Z) (end_ : Timestamp) :
  1 <= n -> valid end_ ->
  forall (fuel : nat) (i : Z),
    1 <= Z.of_nat fuel ->
    month_index end_ - i + 2 <= Z.of_nat fuel ->
    generate_loop fuel n (month_end_of i) end_
    = Returns (month_end_range n i (last_index end_)).
Proof.
  intros Hn Ve. induction fuel as [ | fuel IH]; intros i F1 F2; [ lia | ].
  destruct (month_end_of_spec i) as (Vi & Oi & Mi).
  pose proof (month_end_le_iff i end_ Ve) as Iff.
  assert (Lm : last_index end_ <= month_index end_)
    by (unfold last_index; destruct (is_on_offset end_); lia).
  cbn [generate_loop]. unfold ts_leb, ts_eqb.
  destruct (Z.leb_spec (toordinal (month_end_of i)) (toordinal end_)) as [Le | Gt].
  - apply Iff in Le.
    destruct (Z.eqb_spec (toordinal (month_end_of i)) (toordinal end_)) as [E | Ne].
    + assert (M : month_index end_ <= i).
      { rewrite <- Mi. apply toordinal_le_month; auto. lia. }
      rewrite month_end_range_step, month_end_range_nil by lia. reflexivity.
    + rewrite MonthEnd_apply_eq, Mi by assumption.
      destruct (month_end_of_spec (i + n)) as (Vn & _ & Mn).
      pose proof (toordinal_month_lt (month_end_of i) (month_end_of (i + n))
                    Vi Vn ltac:(lia)).
      destruct (Z.leb_spec (toordinal (month_end_of (i + n)))
                  (toordinal (month_end_of i))); [ lia | ].
      rewrite IH by lia. cbn [bind].
      now rewrite (month_end_range_step n i) by lia.
  - rewrite month_end_range_nil; [ reflexivity | ]. lia.
Qed.

Lemma generate_loop_from (n : Z) (start end_ : Timestamp) (last : Z) :
  1 <= n -> valid start -> is_on_offset start = true -> valid end_ ->
  last_index end_ = last -> month_index start <= month_index end_ ->
  generate_loop (Z.to_nat (month_index end_ - month_index start + 2)) n start end_
  = Returns (month_end_range n (month_index start) last).
Proof.
  intros Hn Vs Os Ve <- Mi.
  pose proof (generate_loop_spec n end_ Hn Ve
                (Z.to_nat (month_index end_ - month_index start + 2))
                (month_index start) ltac:(lia) ltac:(lia)) as G.
  now rewrite <- (on_offset_month_end start Vs Os) in G.
Qed.

(** [pd.date_range(start, end, freq="<n>ME")] is the list of month ends
    from the month of [start], in steps of n months, not after [end]. *)
Lemma date_range_ME_spec (n : Z) (start end_ : Timestamp) :
  1 <= n -> valid start -> valid end_ ->
  date_range_ME n start end_
  = Returns (month_end_range n (month_index start) (last_index end_)).
Proof.
  intros Hn Vs Ve. unfold date_range_ME.
  pose proof (rollforward_eq start Vs) as Er.
  pose proof (rollback_eq end_ Ve) as Eb.
  destruct (month_end_of_spec (month_index start)) as (V1 & O1 & M1).
  destruct (month_end_of_spec (last_index end_)) as (V2 & O2 & M2).
  destruct (is_on_offset start) eqn:Os; cbn [negb].
  - assert (Es : start = month_end_of (month_index start))
      by (now apply on_offset_month_end).
    destruct (is_on_offset end_) eqn:Oe; cbn [negb]; unfold ts_ltb.
    + destruct (Z.ltb_spec (toordinal end_) (toordinal start)) as [Lt | Ge].
      * rewrite month_end_range_nil; [ reflexivity | ].
        rewrite Es in Lt. pose proof (month_end_le_iff (month_index start) end_ Ve).
        lia.
      * apply generate_loop_from; auto.
        now apply toordinal_le_month.
    + rewrite Eb.
      destruct (Z.ltb_spec (toordinal (month_end_of (last_index end_)))
                  (toordinal start)) as [Lt | Ge].
      * rewrite month_end_range_nil; [ reflexivity | ].
        rewrite Es in Lt.
        pose proof (month_end_le_iff (month_index start) _ V2) as Iff.
        rewrite last_index_month_end in Iff. lia.
      * apply generate_loop_from; auto.
        -- apply last_index_month_end.
        -- now apply toordinal_le_month.
  - rewrite Er. unfold ts_ltb.
    destruct (Z.ltb_spec (toordinal end_)
                (toordinal (month_end_of (month_index start)))) as [Lt | Ge].
    + rewrite month_end_range_nil; [ reflexivity | ].
      pose proof (month_end_le_iff (month_index start) end_ Ve). lia.
    + rewrite <- M1 at 3. apply generate_loop_from; auto.
      now apply toordinal_le_month.
Qed.

(** A range that starts mid-month steps over month ends and stops before
    an end date that is not one. *)
Example date_range_mid_month :
  date_range_ME 6 (mkTimestamp 2024 7 15) (mkTimestamp 2026 1 15)
  = Returns [mkTimestamp 2024 7 31; mkTimestamp 2025 1 31; mkTimestamp 2025 7 31].
Proof. reflexivity. Qed.

End CalendarFacts.

(** * Bond schedule facts *)

Module BondFacts.

Import CalendarFacts.

Local Open Scope R_scope.

Lemma add_to_last_repeat (c x : R) (n : nat) :
  add_to_last (repeat c (S n)) x = Returns (repeat c n ++ [c + x]).
Proof.
  induction n as [ | n IH]; [ reflexivity | ].
  change (repeat c (S (S n))) with (c :: repeat c (S n)).
  cbn [add_to_last]. change (repeat c (S n)) with (c :: repeat c n) at 1.
  rewrite IH. reflexivity.
Qed.

Lemma coupon_step_pos (f : Z) :
  (1 <= f <= 12)%Z ->
  exists step, coupon_step f = Returns step /\ (1 <= step)%Z.
Proof.
  intros H. unfold coupon_step.
  destruct (Z.eqb_spec f 0) as [E | _]; [ lia | ].
  exists (Z.quot 12 f). split; [ reflexivity | ].
  rewrite Z.quot_div_nonneg by lia.
  apply Z.div_le_lower_bound; lia.
Qed.

(** Whenever [cashflows] returns, it returns the dates of the month-end
    range zipped with [schedule_amounts], and there is at least one. *)
Lemma cashflows_returns_inv (b : FixedRateBond) (cfs : list (Timestamp * R)) :
  cashflows b = Returns cfs ->
  exists step dates,
    coupon_step (freq b) = Returns step /\
    date_range_ME step (add_DateOffset_months (issue b) step) (maturity b)
      = Returns dates /\
    dates <> [] /\
    cfs = combine dates (schedule_amounts b (length dates)).
Proof.
  unfold cashflows. intros H.
  destruct (coupon_step (freq b)) as [step | e]; cbn [bind] in H; [ | discriminate ].
  destruct (step <=? 0)%Z; [ discriminate | ].
  destruct (date_range_ME step _ (maturity b)) as [dates | e] eqn:Ed;
    cbn [bind] in H; [ | discriminate ].
  exists step, dates. split; [ reflexivity | split; [ exact Ed | ] ].
  destruct dates as [ | d dates]; [ discriminate | ].
  split; [ discriminate | ].
  cbn [length] in H. rewrite add_to_last_repeat in H. cbn [bind] in H.
  injection H as <-. unfold schedule_amounts. cbn [length].
  now rewrite Nat.sub_succ, Nat.sub_0_r.
Qed.

Lemma cashflows_nonempty (b : FixedRateBond) (cfs : list (Timestamp * R)) :
  cashflows b = Returns cfs -> cfs <> [].
Proof.
  intros H. destruct (cashflows_returns_inv b cfs H) as (step & dates & _ & _ & Hd & ->).
  destruct dates as [ | d dates]; [ congruence | ].
  unfold schedule_amounts. cbn [length]. rewrite Nat.sub_succ, Nat.sub_0_r.
  destruct (repeat _ (length dates)); discriminate.
Qed.

Lemma Forall_combine_fst {A B : Type} (P : A -> Prop) (l : list A) (l' : list B) :
  Forall P l -> Forall (fun ab => P (fst ab)) (combine l l').
Proof.
  intros H. revert l'. induction H as [ | a l Ha Hl IH]; intros [ | b l'];
    cbn; constructor; auto.
Qed.

Lemma Forall_combine_snd {A B : Type} (P : B -> Prop) (l : list A) (l' : list B) :
  Forall P l' -> Forall (fun ab => P (snd ab)) (combine l l').
Proof.
  intros H. revert l. induction H as [ | b l' Hb Hl IH]; intros [ | a l];
    cbn; constructor; auto.
Qed.

(** [cashflows] as a function of the month indices: the month ends from
    one coupon period after the issue month to the last month end not
    after maturity, zipped with the amounts; [IndexError] when there is
    none. *)
Lemma cashflows_spec (b : FixedRateBond) :
  valid (issue b) -> valid (maturity b) -> (1 <= freq b <= 12)%Z ->
  let n := Z.quot 12 (freq b) in
  let dates := month_end_range n (month_index (issue b) + n)%Z
                 (last_index (maturity b)) in
  cashflows b
  = match dates with
    | [] => Raises IndexError
    | _ :: _ => Returns (combine dates (schedule_amounts b (length dates)))
    end.
Proof.
  intros Vi Vm Hf n dates.
  destruct (coupon_step_pos (freq b) Hf) as (step & Es & Hs).
  assert (E : step = n).
  { unfold coupon_step in Es. destruct (freq b =? 0)%Z; [ discriminate | ].
    now injection Es. }
  subst step.
  destruct (add_DateOffset_months_spec (issue b) n Vi) as [Vst Ist].
  unfold cashflows. rewrite Es. cbn [bind].
  destruct (Z.leb_spec n 0); [ lia | ].
  rewrite date_range_ME_spec, Ist by assumption. fold dates. cbn [bind].
  destruct dates as [ | d dates']; [ reflexivity | ].
  cbn [length]. rewrite add_to_last_repeat. cbn [bind].
  unfold schedule_amounts. cbn [length]. now rewrite Nat.sub_succ, Nat.sub_0_r.
Qed.

Lemma add_DateOffset_years_spec (d : Timestamp) (k : Z) :
  valid d ->
  valid (add_DateOffset_years d k) /\
  month_index (add_DateOffset_years d k) = (month_index d + 12 * k)%Z /\
  is_on_offset (add_DateOffset_years d k)
  = (days_in_month (year d + k) (month d) <=? day d)%Z.
Proof.
  intros [Hm Hd]. unfold add_DateOffset_years, valid, month_index, is_on_offset.
  cbn [year month day].
  pose proof (days_in_month_bounds (year d + k) (month d) Hm).
  repeat split; lia.
Qed.

(** The two-year 2% semiannual bond on an arbitrary issue date d: four
    flows, the last on maturity, when the day of d is not below the length
    of the maturity month; otherwise three flows, the redemption on the
    month end 18 months after the issue month. *)
Lemma two_year_bond_cashflows (d : Timestamp) (p : R) :
  valid d ->
  let i := month_index d in
  let c := p * 0.02 / 2 in
  cashflows (two_year_bond d p)
  = if (days_in_month (year d + 2) (month d) <=? day d)%Z
    then Returns [(month_end_of (i + 6), c); (month_end_of (i + 12), c);
                  (month_end_of (i + 18), c); (month_end_of (i + 24), c + p)]
    else Returns [(month_end_of (i + 6), c); (month_end_of (i + 12), c);
                  (month_end_of (i + 18), c + p)].
Proof.
  intros V i c.
  destruct (add_DateOffset_years_spec d 2 V) as (Vm & Mi & On).
  rewrite (cashflows_spec (two_year_bond d p) V Vm ltac:(cbn; lia)).
  cbn [issue maturity freq two_year_bond].
  change (Z.quot 12 2) with 6%Z. unfold last_index. rewrite On, Mi. fold i.
  unfold schedule_amounts. cbn [par coupon freq two_year_bond].
  change (p * 0.02 / 2) with c.
  destruct (days_in_month (year d + 2) (month d) <=? day d)%Z.
  - rewrite (month_end_range_step 6 (i + 6)) by lia.
    rewrite (month_end_range_step 6 (i + 6 + 6)) by lia.
    rewrite (month_end_range_step 6 (i + 6 + 6 + 6)) by lia.
    rewrite (month_end_range_step 6 (i + 6 + 6 + 6 + 6)) by lia.
    rewrite month_end_range_nil by lia.
    replace (i + 6 + 6 + 6 + 6)%Z with (i + 24)%Z by lia.
    replace (i + 6 + 6 + 6)%Z with (i + 18)%Z by lia.
    replace (i + 6 + 6)%Z with (i + 12)%Z by lia.
    replace (i + 12 * 2)%Z with (i + 24)%Z by lia.
    reflexivity.
  - rewrite (month_end_range_step 6 (i + 6)) by lia.
    rewrite (month_end_range_step 6 (i + 6 + 6)) by lia.
    rewrite (month_end_range_step 6 (i + 6 + 6 + 6)) by lia.
    rewrite month_end_range_nil by lia.
    replace (i + 6 + 6 + 6)%Z with (i + 18)%Z by lia.
    replace (i + 6 + 6)%Z with (i + 12)%Z by lia.
    reflexivity.
Qed.

(** For a bond on valid dates with 1 to 12 coupons a year, [cashflows]
    either returns or raises [IndexError]; it raises exactly when the
    maturity comes before the first month end on or after [issue] plus one
    coupon period. *)
Lemma cashflows_outcome (b : FixedRateBond) :
  valid (issue b) -> valid (maturity b) -> (1 <= freq b <= 12)%Z ->
  let first := rollforward (add_DateOffset_months (issue b) (Z.quot 12 (freq b))) in
  ((toordinal (maturity b) < toordinal first)%Z /\ cashflows b = Raises IndexError)
  \/ ((toordinal first <= toordinal (maturity b))%Z /\
      exists cfs, cashflows b = Returns cfs).
Proof.
  intros Vi Vm Hf first.
  destruct (coupon_step_pos (freq b) Hf) as (step & Es & Hs).
  assert (E : step = Z.quot 12 (freq b)).
  { unfold coupon_step in Es. destruct (freq b =? 0)%Z; congruence. }
  destruct (add_DateOffset_months_spec (issue b) step Vi) as [Vst Ist].
  destruct (date_range_ME_returns step _ (maturity b) Hs Vst Vm)
    as (dates & Ed & Fd & Nd).
  unfold cashflows. rewrite Es. cbn [bind].
  destruct (Z.leb_spec step 0); [ lia | ].
  rewrite Ed. cbn [bind]. subst first. rewrite <- E.
  destruct dates as [ | d dates].
  - left. split; [ | reflexivity ].
    destruct (Z_lt_le_dec (toordinal (maturity b))
                (toordinal (rollforward (add_DateOffset_months (issue b) step))))
      as [L | L]; [ exact L | ].
    apply Nd in L. congruence.
  - right. split; [ apply Nd; discriminate | ].
    cbn [length]. rewrite add_to_last_repeat. cbn [bind]. eauto.
Qed.

(** Every payment date lies after the issue date and not after maturity. *)
Lemma cashflows_dates (b : FixedRateBond) (cfs : list (Timestamp * R)) :
  valid (issue b) -> valid (maturity b) -> (1 <= freq b <= 12)%Z ->
  cashflows b = Returns cfs ->
  Forall (fun cf => (toordinal (issue b) < toordinal (fst cf)
                     <= toordinal (maturity b))%Z) cfs.
Proof.
  intros Vi Vm Hf H.
  destruct (cashflows_returns_inv b cfs H) as (step & dates & Es & Ed & _ & ->).
  destruct (coupon_step_pos (freq b) Hf) as (step' & Es' & Hs).
  assert (step' = step) by congruence. subst step'.
  destruct (add_DateOffset_months_spec (issue b) step Vi) as [Vst Ist].
  destruct (date_range_ME_returns step _ (maturity b) Hs Vst Vm)
    as (dates' & Ed' & Fd & _).
  assert (dates' = dates) by congruence. subst dates'.
  apply Forall_combine_fst with (P := fun d =>
    (toordinal (issue b) < toordinal d <= toordinal (maturity b))%Z).
  revert Fd. apply Forall_impl. intros d (Vd & _ & Lo & Hi).
  pose proof (toordinal_month_lt (issue b) _ Vi Vst ltac:(lia)). lia.
Qed.

(** With a positive par, a non-negative coupon rate and a positive
    frequency no amount is negative and the last one is positive. *)
Lemma cashflows_amounts (b : FixedRateBond) (cfs : list (Timestamp * R)) :
  0 < par b -> 0 <= coupon b -> (1 <= freq b)%Z ->
  cashflows b = Returns cfs ->
  Forall (fun cf => 0 <= snd cf) cfs /\ Exists (fun cf => 0 < snd cf) cfs.
Proof.
  intros Hp Hc Hf H.
  destruct (cashflows_returns_inv b cfs H) as (step & dates & _ & _ & Nd & ->).
  assert (F : 0 < IZR (freq b)) by (apply IZR_lt; lia).
  assert (C : 0 <= par b * coupon b / IZR (freq b)).
  { apply Rmult_le_pos; [ nra | ]. left. now apply Rinv_0_lt_compat. }
  unfold schedule_amounts. split.
  - apply Forall_combine_snd with (P := fun x => 0 <= x).
    apply Forall_app. split; [ | constructor; [ lra | constructor ] ].
    apply Forall_forall. intros x Hx. apply repeat_spec in Hx. lra.
  - destruct dates as [ | d dates]; [ congruence | ].
    cbn [length]. rewrite Nat.sub_succ, Nat.sub_0_r. clear Nd H.
    revert d. induction dates as [ | d' dates IH]; intros d.
    + cbn. apply Exists_cons_hd. cbn. lra.
    + cbn [length repeat app combine]. apply Exists_cons_tl. apply IH.
Qed.

End BondFacts.

(** * Bond valuer: the schedule and the present value *)

Module BondTheorems.

Import CalendarFacts BondFacts.

Local Open Scope R_scope.

(** On a month-end issue date the two-year bond has its four flows. *)
Lemma cashflows_two_year_month_end (p : R) :
  cashflows (bond_month_end p)
  = Returns [(mkTimestamp 2024 7 31, p * 0.02 / 2);
             (mkTimestamp 2025 1 31, p * 0.02 / 2);
             (mkTimestamp 2025 7 31, p * 0.02 / 2);
             (mkTimestamp 2026 1 31, p * 0.02 / 2 + p)].
Proof. reflexivity. Qed.

(** C6, at the failing input: a 2% semiannual bond issued on 2024-01-15
    with maturity two years later gets three cash flows, on the month ends
    2024-07-31, 2025-01-31 and 2025-07-31; the redemption is paid with the
    third, before the maturity 2026-01-15, and no flow falls on maturity. *)
Theorem cashflows_two_year_mid_month (p : R) :
  p * 0.02 / 2 = p * 0.01 /\
  maturity (bond_mid_month p) = mkTimestamp 2026 1 15 /\
  cashflows (bond_mid_month p)
  = Returns [(mkTimestamp 2024 7 31, p * 0.02 / 2);
             (mkTimestamp 2025 1 31, p * 0.02 / 2);
             (mkTimestamp 2025 7 31, p * 0.02 / 2 + p)] /\
  forall cfs, cashflows (bond_mid_month p) = Returns cfs ->
    length cfs = 3%nat /\
    ~ In (maturity (bond_mid_month p)) (map fst cfs).
Proof.
  split; [ lra | ]. split; [ reflexivity | ]. split; [ reflexivity | ].
  intros cfs H. change (cashflows (bond_mid_month p)) with
    (Returns [(mkTimestamp 2024 7 31, p * 0.02 / 2);
              (mkTimestamp 2025 1 31, p * 0.02 / 2);
              (mkTimestamp 2025 7 31, p * 0.02 / 2 + p)]) in H.
  injection H as <-. split; [ reflexivity | ].
  cbn. intros [E | [E | [E | []]]]; discriminate.
Qed.

(** C10: [cashflows] is partial.  A bond on valid dates, issued
    2024-01-31 with two coupons a year and maturity 2024-04-30, matures
    before its first coupon date; the date range is empty, [cfs[-1]]
    raises [IndexError], and so does [pv] under every curve and valuation
    date. *)
Theorem cashflows_not_total :
  exists b : FixedRateBond,
    valid (issue b) /\ valid (maturity b) /\
    (toordinal (issue b) < toordinal (maturity b))%Z /\
    (toordinal (maturity b)
     < toordinal (add_DateOffset_months (issue b) (Z.quot 12 (freq b))))%Z /\
    date_range_ME (Z.quot 12 (freq b))
      (add_DateOffset_months (issue b) (Z.quot 12 (freq b))) (maturity b)
    = Returns [] /\
    cashflows b = Raises IndexError /\
    forall (curve : Curve) (today : Timestamp),
      pv b curve today = Raises IndexError.
Proof.
  exists bond_short. unfold valid. cbn.
  repeat split; try lia; try reflexivity.
Qed.

(** ** Valuation on or after maturity *)

Lemma fold_left_Rplus (l : list R) (a : R) :
  fold_left Rplus l a = a + np_sum l.
Proof.
  revert a. induction l as [ | x l IH]; intros a.
  - cbn. lra.
  - cbn [fold_left]. rewrite IH.
    change (np_sum (x :: l)) with (x + np_sum l). lra.
Qed.

Lemma py_sum_np_sum (l : list R) : py_sum l = np_sum l.
Proof. unfold py_sum. rewrite fold_left_Rplus. lra. Qed.

(** C7 fails on the code: the two-year bond issued 2024-01-31, valued at
    its maturity under a curve whose discount factor is 1, has a
    non-empty schedule and a present value of 1040000, not 0. *)
Lemma pv_at_maturity_not_zero :
  toordinal (maturity (bond_month_end 1000000))
  = toordinal (mkTimestamp 2026 1 31) /\
  cashflows (bond_month_end 1000000) <> Returns [] /\
  pv (bond_month_end 1000000) flat_one (mkTimestamp 2026 1 31) = Returns 1040000 /\
  pv (bond_month_end 1000000) flat_one (mkTimestamp 2026 1 31) <> Returns 0.
Proof.
  split; [ reflexivity | ].
  unfold pv. rewrite cashflows_two_year_month_end. cbn [bind].
  split; [ discriminate | ].
  assert (E : py_sum (map (discounted flat_one (mkTimestamp 2026 1 31))
                [(mkTimestamp 2024 7 31, 1000000 * 0.02 / 2);
                 (mkTimestamp 2025 1 31, 1000000 * 0.02 / 2);
                 (mkTimestamp 2025 7 31, 1000000 * 0.02 / 2);
                 (mkTimestamp 2026 1 31, 1000000 * 0.02 / 2 + 1000000)])
              = 1040000).
  { unfold py_sum, discounted, flat_one. cbn [map fold_left fst snd]. lra. }
  rewrite E. split; [ reflexivity | ].
  intros H. injection H as H. lra.
Qed.

(** C7, amended: [cashflows] takes no valuation date.  For a bond on valid
    dates with 1 to 12 coupons a year and a coupon date on or before
    maturity, and a valuation date on or after maturity, [cashflows]
    returns the full, non-empty schedule, every year fraction is at most
    0, and [pv] returns (it does not raise), under every curve, the sum of
    amount times discount factor over the whole schedule. *)
Theorem pv_on_or_after_maturity (b : FixedRateBond) (today : Timestamp) :
  valid (issue b) -> valid (maturity b) -> (1 <= freq b <= 12)%Z ->
  (toordinal (rollforward (add_DateOffset_months (issue b) (Z.quot 12 (freq b))))
   <= toordinal (maturity b))%Z ->
  (toordinal (maturity b) <= toordinal today)%Z ->
  exists cfs,
    cashflows b = Returns cfs /\
    cfs <> [] /\
    Forall (fun cf => year_fraction (fst cf) today <= 0) cfs /\
    forall curve : Curve,
      pv b curve today
      = Returns (np_sum (map (fun cf => snd cf * curve (year_fraction (fst cf) today))
                             cfs)).
Proof.
  intros Vi Vm Hf Hfirst Ht.
  destruct (cashflows_outcome b Vi Vm Hf) as [[L _] | [_ [cfs H]]]; [ lia | ].
  exists cfs. split; [ exact H | ].
  split; [ eapply cashflows_nonempty; eauto | ]. split.
  - pose proof (cashflows_dates b cfs Vi Vm Hf H) as D.
    revert D. apply Forall_impl. intros cf [_ Hle].
    unfold year_fraction, days_between.
    assert (IZR (toordinal (fst cf) - toordinal today) <= 0)
      by (apply IZR_le; lia).
    lra.
  - intros curve. unfold pv. rewrite H. cbn [bind]. now rewrite py_sum_np_sum.
Qed.

Lemma pv_on_or_after_maturity_witness :
  exists cfs,
    cashflows (bond_month_end 1000000) = Returns cfs /\ cfs <> [] /\
    pv (bond_month_end 1000000) flat_one (mkTimestamp 2026 3 1)
    = Returns (np_sum (map (fun cf => snd cf * 1) cfs)).
Proof.
  destruct (pv_on_or_after_maturity (bond_month_end 1000000) (mkTimestamp 2026 3 1))
    as (cfs & E & N & _ & P).
  - unfold valid. cbn. lia.
  - unfold valid. cbn. lia.
  - cbn. lia.
  - cbn [bond_month_end two_year_bond issue maturity freq]. vm_compute. discriminate.
  - cbn [bond_month_end two_year_bond issue maturity freq]. vm_compute. discriminate.
  - exists cfs. split; [ exact E | ]. split; [ exact N | ]. apply (P flat_one).
Defined.

End BondTheorems.

(** * Sums over lists *)

Module SumFacts.

Local Open Scope R_scope.

Lemma np_sum_cons (x : R) (l : list R) : np_sum (x :: l) = x + np_sum l.
Proof. reflexivity. Qed.

Lemma np_sum_map_add {A : Type} (f g : A -> R) (l : list A) :
  np_sum (map (fun a => f a + g a) l) = np_sum (map f l) + np_sum (map g l).
Proof.
  induction l as [ | a l IH]; cbn [map]; rewrite ?np_sum_cons; [ cbn; lra | ].
  rewrite IH. lra.
Qed.

Lemma np_sum_map_scal_l {A : Type} (c : R) (f : A -> R) (l : list A) :
  np_sum (map (fun a => c * f a) l) = c * np_sum (map f l).
Proof.
  induction l as [ | a l IH]; cbn [map]; rewrite ?np_sum_cons; [ cbn; lra | ].
  rewrite IH. lra.
Qed.

Lemma np_sum_map_scal_r {A : Type} (c : R) (f : A -> R) (l : list A) :
  np_sum (map (fun a => f a * c) l) = np_sum (map f l) * c.
Proof.
  induction l as [ | a l IH]; cbn [map]; rewrite ?np_sum_cons; [ cbn; lra | ].
  rewrite IH. lra.
Qed.

Lemma np_sum_map_zero {A : Type} (l : list A) :
  np_sum (map (fun _ => 0) l) = 0.
Proof.
  induction l as [ | a l IH]; cbn [map]; rewrite ?np_sum_cons; [ reflexivity | ].
  rewrite IH. lra.
Qed.

Lemma np_sum_map_ext_in {A : Type} (f g : A -> R) (l : list A) :
  (forall a, In a l -> f a = g a) -> np_sum (map f l) = np_sum (map g l).
Proof. intros H. f_equal. now apply map_ext_in. Qed.

Lemma np_sum_pos (l : list R) :
  l <> [] -> Forall (fun x => 0 < x) l -> 0 < np_sum l.
Proof.
  intros N F. induction F as [ | x l Hx F IH]; [ congruence | ].
  rewrite np_sum_cons. destruct l as [ | y l]; [ cbn; lra | ].
  assert (0 < np_sum (y :: l)) by (apply IH; discriminate). lra.
Qed.

Lemma np_sum_nonneg (l : list R) :
  Forall (fun x => 0 <= x) l -> 0 <= np_sum l.
Proof.
  intros F. induction F as [ | x l Hx F IH]; [ cbn; lra | ].
  rewrite np_sum_cons. lra.
Qed.

Lemma nth_map_seq {A : Type} (f : nat -> A) (n i : nat) (d : A) :
  (i < n)%nat -> nth i (map f (seq 0 n)) d = f i.
Proof.
  intros H. rewrite (nth_indep _ d (f 0%nat)) by (now rewrite length_map, length_seq).
  rewrite map_nth, seq_nth by exact H. reflexivity.
Qed.

Lemma nth_map_R (f : R -> R) (l : list R) (i : nat) :
  f 0 = 0 -> nth i (map f l) 0 = f (nth i l 0).
Proof. intros H. rewrite <- H at 1. apply map_nth. Qed.

Lemma map_nth_seq {A : Type} (F : R -> A) (x : list R) :
  map (fun i => F (nth i x 0)) (seq 0 (length x)) = map F x.
Proof.
  induction x as [ | a x IH]; [ reflexivity | ].
  cbn [length seq map nth]. f_equal.
  rewrite <- seq_shift, map_map. exact IH.
Qed.

Lemma map_const_seq {A : Type} (c : A) (s n : nat) :
  map (fun _ => c) (seq s n) = repeat c n.
Proof.
  revert s. induction n as [ | n IH]; intros s; [ reflexivity | ].
  cbn. now rewrite IH.
Qed.

(** The dot product against a list given by a function of the index. *)
Lemma dot_map_seq_l (f : nat -> R) (v : list R) (s n : nat) :
  length v = n ->
  dot (map f (seq s n)) v
  = np_sum (map (fun j => f j * nth (j - s) v 0) (seq s n)).
Proof.
  revert v s. induction n as [ | n IH]; intros v s L.
  - reflexivity.
  - destruct v as [ | x v]; [ discriminate | ].
    injection L as L. unfold dot in *.
    cbn [seq map combine fst snd]. rewrite !np_sum_cons.
    rewrite IH by exact L. rewrite Nat.sub_diag. cbn [nth]. f_equal.
    apply np_sum_map_ext_in. intros j Hj. apply in_seq in Hj.
    replace (j - s)%nat with (S (j - S s)) by lia. reflexivity.
Qed.

Lemma dot_comm (u v : list R) : dot u v = dot v u.
Proof.
  unfold dot. revert v. induction u as [ | a u IH]; intros [ | b v];
    try reflexivity.
  cbn [combine map fst snd]. rewrite !np_sum_cons, IH. lra.
Qed.

Lemma dot_map_seq_0 (f : nat -> R) (v : list R) (n : nat) :
  length v = n ->
  dot (map f (seq 0 n)) v = np_sum (map (fun j => f j * nth j v 0) (seq 0 n)).
Proof.
  intros L. rewrite dot_map_seq_l by exact L.
  apply np_sum_map_ext_in. intros j _. now rewrite Nat.sub_0_r.
Qed.

End SumFacts.

(** * Covariance estimator: the weight vector *)

Module WeightFacts.

Import SumFacts.

Local Open Scope R_scope.

Lemma length_raw_weights (lam : R) (T : nat) : length (raw_weights lam T) = T.
Proof.
  unfold raw_weights, arange_down. now rewrite length_map, length_rev, length_seq.
Qed.

Lemma length_weights (lam : R) (T : nat) : length (weights lam T) = T.
Proof. unfold weights. now rewrite length_map, length_raw_weights. Qed.

Lemma nth_arange_down (T t : nat) :
  (t < T)%nat -> nth t (arange_down T) 0%nat = (T - 1 - t)%nat.
Proof.
  intros H. unfold arange_down.
  rewrite rev_nth by (now rewrite length_seq).
  rewrite length_seq, seq_nth by lia. lia.
Qed.

Lemma raw_weights_pos (lam : R) (T : nat) :
  0 < lam < 1 -> Forall (fun w => 0 < w) (raw_weights lam T).
Proof.
  intros [H0 H1]. unfold raw_weights. apply Forall_forall. intros w Hw.
  apply in_map_iff in Hw. destruct Hw as (k & <- & _).
  apply Rmult_lt_0_compat; [ lra | now apply pow_lt ].
Qed.

Lemma raw_weights_sum_pos (lam : R) (T : nat) :
  (1 <= T)%nat -> 0 < lam < 1 -> 0 < np_sum (raw_weights lam T).
Proof.
  intros HT Hl. apply np_sum_pos; [ | now apply raw_weights_pos ].
  intros E. apply (f_equal (@length R)) in E.
  rewrite length_raw_weights in E. cbn in E. lia.
Qed.

End WeightFacts.

(** * Covariance estimator: the matrix *)

Module CovarianceFacts.

Import SumFacts WeightFacts.

Local Open Scope R_scope.

Lemma column_scale_rows (rets : list (list R)) (w : list R) (i : nat) :
  column i (scale_rows rets w)
  = map (fun rw => nth i (fst rw) 0 * snd rw) (combine rets w).
Proof.
  unfold column, scale_rows. rewrite map_map. apply map_ext. intros [row wt].
  cbn [fst snd]. apply (nth_map_R (fun x => x * wt)). lra.
Qed.

Lemma dot_columns (rets : list (list R)) (w : list R) (i j : nat) :
  dot (column i (scale_rows rets w)) (column j rets) = ewma_entry rets w i j.
Proof.
  rewrite column_scale_rows. unfold ewma_entry, column, dot.
  revert w. induction rets as [ | row rets IH]; intros [ | wt w]; try reflexivity.
  cbn [combine map fst snd]. rewrite !np_sum_cons, IH. reflexivity.
Qed.

(** The matrix as a table of [ewma_entry]. *)
Lemma H_ewma_table (N : nat) (rets : list (list R)) (w : list R) :
  H_ewma N rets w
  = map (fun i => map (fun j => ewma_entry rets w i j) (seq 0 N)) (seq 0 N).
Proof.
  unfold H_ewma, matmul, transpose. rewrite map_map.
  apply map_ext. intros i. apply map_ext. intros j. apply dot_columns.
Qed.

Lemma H_ewma_entry (N : nat) (rets : list (list R)) (w : list R) (i j : nat) :
  (i < N)%nat -> (j < N)%nat ->
  entry (H_ewma N rets w) i j = ewma_entry rets w i j.
Proof.
  intros Hi Hj. unfold entry. rewrite H_ewma_table.
  rewrite (nth_map_seq _ N i []) by exact Hi.
  now rewrite (nth_map_seq _ N j 0) by exact Hj.
Qed.

Lemma H_ewma_shape (N : nat) (rets : list (list R)) (w : list R) :
  has_shape N N (H_ewma N rets w).
Proof.
  rewrite H_ewma_table. split; [ now rewrite length_map, length_seq | ].
  apply Forall_forall. intros row Hr. apply in_map_iff in Hr.
  destruct Hr as (i & <- & _). now rewrite length_map, length_seq.
Qed.

Lemma ewma_entry_sym (rets : list (list R)) (w : list R) (i j : nat) :
  ewma_entry rets w i j = ewma_entry rets w j i.
Proof.
  unfold ewma_entry. apply np_sum_map_ext_in. intros rw _. ring.
Qed.

(** [vᵀ H v] as a double sum over the index range. *)
Lemma quad_form_table (N : nat) (e : nat -> nat -> R) (v : list R) :
  length v = N ->
  quad_form (map (fun i => map (fun j => e i j) (seq 0 N)) (seq 0 N)) v
  = np_sum (map (fun i =>
      nth i v 0 * np_sum (map (fun j => e i j * nth j v 0) (seq 0 N))) (seq 0 N)).
Proof.
  intros L. unfold quad_form, mat_vec. rewrite map_map, dot_comm.
  rewrite dot_map_seq_0 by exact L.
  apply np_sum_map_ext_in. intros i _.
  rewrite dot_map_seq_0 by exact L. lra.
Qed.

(** One row's contribution to the quadratic form is a weighted square. *)
Lemma rank_one_form (x v : list R) (wt : R) (I : list nat) :
  np_sum (map (fun i =>
    nth i v 0 * np_sum (map (fun j => nth i x 0 * wt * nth j x 0 * nth j v 0) I)) I)
  = wt * (np_sum (map (fun i => nth i x 0 * nth i v 0) I)) ^ 2.
Proof.
  set (s := np_sum (map (fun i => nth i x 0 * nth i v 0) I)).
  rewrite (np_sum_map_ext_in _ (fun i => (wt * s) * (nth i x 0 * nth i v 0))).
  - rewrite np_sum_map_scal_l. fold s. ring.
  - intros i _.
    rewrite (np_sum_map_ext_in _ (fun j => (nth i x 0 * wt) * (nth j x 0 * nth j v 0)))
      by (intros; ring).
    rewrite np_sum_map_scal_l. fold s. ring.
Qed.

Lemma ewma_quad_nonneg (rets : list (list R)) (w v : list R) (I : list nat) :
  Forall (fun x => 0 <= x) w ->
  0 <= np_sum (map (fun i =>
         nth i v 0 * np_sum (map (fun j => ewma_entry rets w i j * nth j v 0) I)) I).
Proof.
  intros Hw. revert rets. induction Hw as [ | wt w Hwt Hw IH]; intros rets.
  - unfold ewma_entry. rewrite combine_nil.
    rewrite (np_sum_map_ext_in _ (fun _ => 0)); [ rewrite np_sum_map_zero; lra | ].
    intros i _.
    rewrite (np_sum_map_ext_in _ (fun _ => 0)); [ rewrite np_sum_map_zero; lra | ].
    intros j _. cbn. lra.
  - destruct rets as [ | x rets].
    + unfold ewma_entry. cbn [combine map].
      rewrite (np_sum_map_ext_in _ (fun _ => 0)); [ rewrite np_sum_map_zero; lra | ].
      intros i _.
      rewrite (np_sum_map_ext_in _ (fun _ => 0)); [ rewrite np_sum_map_zero; lra | ].
      intros j _. cbn. lra.
    + rewrite (np_sum_map_ext_in _ (fun i =>
        nth i v 0 * np_sum (map (fun j =>
          nth i x 0 * wt * nth j x 0 * nth j v 0) I)
        + nth i v 0 * np_sum (map (fun j =>
          ewma_entry rets w i j * nth j v 0) I))).
      * rewrite np_sum_map_add, rank_one_form.
        specialize (IH rets).
        assert (0 <= wt * np_sum (map (fun i => nth i x 0 * nth i v 0) I) ^ 2)
          by (apply Rmult_le_pos; [ exact Hwt | apply pow2_ge_0 ]).
        lra.
      * intros i _. rewrite <- Rmult_plus_distr_l. f_equal.
        rewrite <- np_sum_map_add. apply np_sum_map_ext_in. intros j _.
        unfold ewma_entry. cbn [combine map fst snd]. rewrite np_sum_cons. ring.
Qed.

Lemma H_ewma_psd (N : nat) (rets : list (list R)) (w : list R) :
  Forall (fun x => 0 <= x) w -> positive_semidefinite N (H_ewma N rets w).
Proof.
  intros Hw v L. rewrite H_ewma_table, quad_form_table by exact L.
  now apply ewma_quad_nonneg.
Qed.

(** ** Degenerate inputs: T = 0 and T = 1 *)

Lemma H_ewma_no_rows (N : nat) (w : list R) : H_ewma N [] w = zeros N.
Proof.
  rewrite H_ewma_table. unfold zeros, ewma_entry. cbn [combine map np_sum fold_right].
  now rewrite !map_const_seq.
Qed.

Lemma weights_one_row (lam : R) : lam <> 1 -> weights lam 1 = [1].
Proof.
  intros H. unfold weights, raw_weights, arange_down.
  cbn [seq rev app map np_sum fold_right pow]. f_equal. field. lra.
Qed.

Lemma H_ewma_one_row (x : list R) : H_ewma (length x) [x] [1] = outer x.
Proof.
  rewrite H_ewma_table. unfold outer, ewma_entry.
  cbn [combine map fst snd np_sum fold_right].
  rewrite <- (map_nth_seq (fun a => map (fun b => a * b) x) x).
  apply map_ext. intros i.
  rewrite <- (map_nth_seq (fun b => nth i x 0 * b) x).
  apply map_ext. intros j. ring.
Qed.

(** C8 fails on the code: with no rows the estimator returns the zero
    matrix, and with the single row [2; 3] it returns that row's outer
    product; neither call raises [InvalidInput]. *)
Lemma ewma_covariance_degenerate_returns :
  ewma_covariance lam_notebook 2 [] = Returns [[0; 0]; [0; 0]] /\
  ewma_covariance lam_notebook 2 [[2; 3]] = Returns [[2 * 2; 2 * 3]; [3 * 2; 3 * 3]] /\
  ewma_covariance lam_notebook 2 [] <> Raises InvalidInput /\
  ewma_covariance lam_notebook 2 [[2; 3]] <> Raises InvalidInput.
Proof.
  unfold ewma_covariance. cbn [length].
  rewrite H_ewma_no_rows, weights_one_row by (unfold lam_notebook; lra).
  rewrite (H_ewma_one_row [2; 3] : H_ewma 2 [[2; 3]] [1] = outer [2; 3]).
  repeat split; discriminate.
Qed.

(** C8, amended: the estimator has no input validation and raises
    nothing.  With T = 0 rows it returns the N by N zero matrix; with
    T = 1 row x (and λ different from 1, so that the single weight
    normalizes to 1) it returns the outer product of x with itself. *)
Theorem ewma_covariance_degenerate (lam : R) (N : nat) (x : list R) :
  lam <> 1 -> length x = N ->
  ewma_covariance lam N [] = Returns (zeros N) /\
  ewma_covariance lam N [x] = Returns (outer x).
Proof.
  intros Hl L. unfold ewma_covariance. cbn [length].
  rewrite H_ewma_no_rows, weights_one_row by exact Hl.
  subst N. now rewrite H_ewma_one_row.
Qed.

Lemma ewma_covariance_degenerate_witness :
  ewma_covariance lam_notebook 2 [] = Returns (zeros 2) /\
  ewma_covariance lam_notebook 2 [[2; 3]] = Returns (outer [2; 3]).
Proof.
  apply (ewma_covariance_degenerate lam_notebook 2 [2; 3]).
  - unfold lam_notebook. lra.
  - reflexivity.
Defined.

End CovarianceFacts.

(** * Risk factor extractor *)

Module EigenFacts.

Import SumFacts.

Local Open Scope R_scope.

(** The scan of [np.argmax] keeps the index of a maximum of what it has
    seen. *)
Lemma argmax_from_spec (l pre : list R) (best_i i : nat) (best : R) :
  length pre = i -> (best_i < i)%nat ->
  nth best_i (pre ++ l) 0 = best ->
  (forall x, In x pre -> x <= best) ->
  let r := argmax_from best_i best i l in
  (r < length (pre ++ l))%nat /\
  forall x, In x (pre ++ l) -> x <= nth r (pre ++ l) 0.
Proof.
  revert pre best_i i best.
  induction l as [ | y l IH]; intros pre best_i i best Hlen Hlt Hnth Hmax.
  - cbn [argmax_from]. rewrite app_nil_r in *. split; [ lia | ].
    intros x Hx. rewrite Hnth. now apply Hmax.
  - cbn [argmax_from].
    replace (pre ++ y :: l) with ((pre ++ [y]) ++ l) in *
      by (now rewrite <- app_assoc).
    destruct (Rlt_dec best y) as [Lt | Ge].
    + apply IH.
      * rewrite length_app. cbn. lia.
      * lia.
      * rewrite app_nth1 by (rewrite length_app; cbn; lia).
        rewrite app_nth2 by lia. rewrite Hlen, Nat.sub_diag. reflexivity.
      * intros x Hx. apply in_app_or in Hx. destruct Hx as [Hx | [<- | []]].
        -- apply Hmax in Hx. lra.
        -- lra.
    + apply IH.
      * rewrite length_app. cbn. lia.
      * lia.
      * exact Hnth.
      * intros x Hx. apply in_app_or in Hx. destruct Hx as [Hx | [<- | []]].
        -- now apply Hmax.
        -- lra.
Qed.

Lemma argmax_spec (vals : list R) :
  vals <> [] ->
  exists idx, argmax vals = Returns idx /\
    (idx < length vals)%nat /\
    forall x, In x vals -> x <= nth idx vals 0.
Proof.
  destruct vals as [ | x l]; [ congruence | intros _ ].
  exists (argmax_from 0 x 1 l). split; [ reflexivity | ].
  apply (argmax_from_spec l [x] 0 1 x); try reflexivity; try lia.
  intros y [<- | []]. lra.
Qed.

(** The eigenpair the extractor selects from a result of [eigh]: the
    largest eigenvalue and a unit eigenvector of it. *)
Lemma dominant_pair_spec (N : nat) (H : list (list R))
  (vals : list R) (vecs : list (list R)) :
  (1 <= N)%nat -> eigh_result N H vals vecs ->
  exists lam e,
    dominant_pair vals vecs = Returns (lam, e) /\
    In lam vals /\
    is_eigenvalue N H lam /\
    (forall mu, is_eigenvalue N H mu -> mu <= lam) /\
    is_eigenvector N H lam e /\
    norm2 e = 1.
Proof.
  intros HN (Hlen & _ & _ & Hall & Hcol).
  assert (Ne : vals <> []) by (intros ->; cbn in Hlen; lia).
  destruct (argmax_spec vals Ne) as (idx & Ea & Hidx & Hmax).
  rewrite Hlen in Hidx.
  destruct (Hcol idx Hidx) as [Hv Hn].
  exists (nth idx vals 0), (column idx vecs).
  unfold dominant_pair. rewrite Ea. cbn [bind].
  assert (Hin : In (nth idx vals 0) vals) by (apply nth_In; lia).
  repeat split; auto.
  - now apply Hall.
  - intros mu Hmu. apply Hmax. now apply Hall.
  - apply Hv.
  - apply Hv.
  - apply Hv.
Qed.

(** A diagonal 2 by 2 matrix and the decomposition [eigh] gives for it. *)
Lemma eigh_result_diag2 (a b : R) :
  a <= b ->
  eigh_result 2 [[a; 0]; [0; b]] [a; b] [[1; 0]; [0; 1]].
Proof.
  intros Hab. unfold eigh_result.
  split; [ reflexivity | ].
  split; [ split; [ reflexivity | repeat constructor ] | ].
  split; [ cbn; auto | ].
  split.
  - intros mu. split.
    + intros (v & L & Nz & E).
      destruct v as [ | x [ | y [ | z v]]]; try discriminate.
      unfold mat_vec, scale, dot in E. cbn in E.
      injection E as E1 E2.
      inversion Nz as [? ? Hx | ? ? Nz']; subst.
      * left. apply Rmult_eq_reg_r with x; [ lra | exact Hx ].
      * inversion Nz' as [? ? Hy | ? ? Nz'']; subst; [ | inversion Nz'' ].
        right. left. apply Rmult_eq_reg_r with y; [ lra | exact Hy ].
    + intros [<- | [<- | []]].
      * exists [1; 0]. split; [ reflexivity | ]. split.
        -- apply Exists_cons_hd. lra.
        -- unfold mat_vec, scale, dot. cbn. f_equal; [ lra | f_equal; lra ].
      * exists [0; 1]. split; [ reflexivity | ]. split.
        -- apply Exists_cons_tl, Exists_cons_hd. lra.
        -- unfold mat_vec, scale, dot. cbn. f_equal; [ lra | f_equal; lra ].
  - intros k Hk.
    assert (C : k = 0%nat \/ k = 1%nat) by lia.
    destruct C as [-> | ->]; cbn [nth column map].
    + split.
      * split; [ reflexivity | ]. split.
        -- apply Exists_cons_hd. lra.
        -- unfold mat_vec, scale, dot. cbn. f_equal; [ lra | f_equal; lra ].
      * unfold norm2, dot. cbn.
        replace (1 * 1 + (0 * 0 + 0)) with 1 by lra. apply sqrt_1.
    + split.
      * split; [ reflexivity | ]. split.
        -- apply Exists_cons_tl, Exists_cons_hd. lra.
        -- unfold mat_vec, scale, dot. cbn. f_equal; [ lra | f_equal; lra ].
      * unfold norm2, dot. cbn.
        replace (0 * 0 + (1 * 1 + 0)) with 1 by lra. apply sqrt_1.
Qed.


End EigenFacts.

(** * Shock scaler *)

Module ShockFacts.

Import SumFacts.

Local Open Scope R_scope.

Lemma np_sqrt_nonneg (x : R) : 0 <= x -> np_sqrt x = Some (sqrt x).
Proof.
  intros H. unfold np_sqrt. destruct (Rle_dec 0 x); [ reflexivity | contradiction ].
Qed.

(** C1: with [chi2_ppf] the inverse CDF of the chi-squared distribution
    (positive on probabilities strictly between 0 and 1 and at least one
    degree of freedom), for N >= 1 tenors and λ_max >= 0 the scaler takes
    c = chi2_ppf(0.995, N) and returns magnitude = sqrt(c · λ_max), which is
    non-negative and squares to c · λ_max, and delta_up = magnitude · e_max
    elementwise, with no further factor. *)
Theorem shock_scaler_formula (chi2_ppf : R -> nat -> R)
  (N : nat) (lam_max : R) (e_max : list R) :
  (forall q df, 0 < q < 1 -> (1 <= df)%nat -> 0 < chi2_ppf q df) ->
  (1 <= N)%nat -> 0 <= lam_max ->
  let c := chi2_ppf 0.995 N in
  let mag := sqrt (c * lam_max) in
  quantile_constant chi2_ppf N = c /\
  shock_mag c lam_max = Some mag /\
  0 <= mag /\ mag * mag = c * lam_max /\
  delta_up mag e_max = map (fun e => mag * e) e_max /\
  shock_scaler chi2_ppf N lam_max e_max
  = Some (mag, map (fun e => mag * e) e_max, delta_down mag e_max).
Proof.
  intros Hc HN Hl c mag.
  assert (Hpos : 0 < c) by (apply Hc; [ lra | exact HN ]).
  assert (Harg : 0 <= c * lam_max) by (apply Rmult_le_pos; lra).
  split; [ reflexivity | ].
  split; [ unfold shock_mag; now apply np_sqrt_nonneg | ].
  split; [ apply sqrt_pos | ].
  split; [ now apply sqrt_sqrt | ].
  split; [ reflexivity | ].
  unfold shock_scaler, shock_mag, quantile_constant. fold c.
  now rewrite np_sqrt_nonneg.
Qed.

Lemma shock_scaler_formula_witness :
  shock_mag (chi2_ppf_example 0.995 7) 4 = Some (sqrt (chi2_ppf_example 0.995 7 * 4)) /\
  0 <= sqrt (chi2_ppf_example 0.995 7 * 4).
Proof.
  destruct (shock_scaler_formula chi2_ppf_example 7 4 [1; 0])
    as (_ & M & P & _).
  - intros q df _ _. unfold chi2_ppf_example. lra.
  - lia.
  - lra.
  - exact (conj M P).
Defined.

(** C2: for every magnitude and every eigenvector the down-shock is the
    elementwise negation of the up-shock: same length, entry i of
    [delta_down] is minus entry i of [delta_up], of equal absolute value;
    this holds of every result of the scaler. *)
Theorem delta_down_negates_delta_up (mag : R) (e_max : list R) :
  delta_down mag e_max = map Ropp (delta_up mag e_max) /\
  length (delta_down mag e_max) = length (delta_up mag e_max) /\
  (forall i, nth i (delta_down mag e_max) 0 = - nth i (delta_up mag e_max) 0) /\
  (forall i, Rabs (nth i (delta_down mag e_max) 0)
             = Rabs (nth i (delta_up mag e_max) 0)) /\
  (forall chi2_ppf N lam_max,
     match shock_scaler chi2_ppf N lam_max e_max with
     | Some (_, up, down) => down = map Ropp up
     | None => True
     end).
Proof.
  assert (E : forall m, delta_down m e_max = map Ropp (delta_up m e_max)).
  { intros m. unfold delta_down, delta_up. rewrite map_map.
    apply map_ext. intros e. ring. }
  assert (Nth : forall i,
    nth i (delta_down mag e_max) 0 = - nth i (delta_up mag e_max) 0).
  { intros i. rewrite E. apply (nth_map_R Ropp). ring. }
  split; [ apply E | ].
  split; [ unfold delta_down, delta_up; now rewrite !length_map | ].
  split; [ exact Nth | ].
  split; [ intros i; rewrite Nth; apply Rabs_Ropp | ].
  intros chi2_ppf N lam_max. unfold shock_scaler.
  destruct (shock_mag _ lam_max) as [m | ]; [ apply E | exact I ].
Qed.

End ShockFacts.

(** * Scenario aggregator: the order of the scenario present values *)

Module ScenarioFacts.

Import CalendarFacts BondFacts BondTheorems SumFacts.

Local Open Scope R_scope.

(** A sum grows strictly when no term shrinks and one grows. *)
Lemma np_sum_map_lt {A : Type} (f g : A -> R) (l : list A) :
  Forall (fun a => f a <= g a) l -> Exists (fun a => f a < g a) l ->
  np_sum (map f l) < np_sum (map g l).
Proof.
  intros F E. induction F as [ | a l Ha F IH]; [ inversion E | ].
  cbn [map]. rewrite !np_sum_cons.
  assert (Le : np_sum (map f l) <= np_sum (map g l)).
  { clear IH E. induction F as [ | b l Hb F IH]; [ cbn; lra | ].
    cbn [map]. rewrite !np_sum_cons. lra. }
  inversion E as [? ? Hlt | ? ? E']; subst; [ lra | ].
  specialize (IH E'). lra.
Qed.

(** A bond of positive duration is worth strictly more under a curve with
    higher discount factors at every positive maturity. *)
Lemma pv_lt_of_curve_lt (b : FixedRateBond) (c1 c2 : Curve) (today : Timestamp) :
  (forall t, 0 < t -> c1 t < c2 t) ->
  positive_duration today b ->
  exists p1 p2,
    pv b c1 today = Returns p1 /\ pv b c2 today = Returns p2 /\ p1 < p2.
Proof.
  intros Hc (cfs & Ecf & Hall & Hex).
  unfold pv. rewrite Ecf. cbn [bind]. do 2 eexists.
  split; [ reflexivity | split; [ reflexivity | ] ].
  rewrite !py_sum_np_sum.
  assert (Hyf : forall cf : Timestamp * R,
                 (toordinal today < toordinal (fst cf))%Z ->
                 0 < year_fraction (fst cf) today).
  { intros cf H. unfold year_fraction, days_between.
    assert (0 < IZR (toordinal (fst cf) - toordinal today)) by (apply IZR_lt; lia).
    lra. }
  apply np_sum_map_lt.
  - revert Hall. apply Forall_impl. intros cf [Hd Ha]. unfold discounted.
    apply Rmult_le_compat_l; [ exact Ha | ]. left. apply Hc. now apply Hyf.
  - rewrite Forall_forall in Hall. rewrite Exists_exists in *.
    destruct Hex as (cf & Hin & Hpos). exists cf. split; [ exact Hin | ].
    unfold discounted. apply Rmult_lt_compat_l; [ exact Hpos | ].
    apply Hc, Hyf. now apply Hall.
Qed.

Lemma scenario_row_lt (bonds : list FixedRateBond) (c1 c2 : Curve) (today : Timestamp) :
  (forall t, 0 < t -> c1 t < c2 t) ->
  Forall (positive_duration today) bonds ->
  exists pvs1 pvs2,
    mapM (fun b => pv b c1 today) bonds = Returns pvs1 /\
    mapM (fun b => pv b c2 today) bonds = Returns pvs2 /\
    Forall2 Rlt pvs1 pvs2.
Proof.
  intros Hc F. induction F as [ | b bonds Hb F IH].
  - exists [], []. repeat split; constructor.
  - destruct IH as (l1 & l2 & E1 & E2 & L).
    destruct (pv_lt_of_curve_lt b c1 c2 today Hc Hb) as (p1 & p2 & P1 & P2 & Lt).
    exists (p1 :: l1), (p2 :: l2). cbn [mapM].
    rewrite P1, P2, E1, E2. cbn [bind].
    repeat split; now constructor.
Qed.

Lemma np_sum_Forall2_lt (l1 l2 : list R) :
  l1 <> [] -> Forall2 Rlt l1 l2 -> np_sum l1 < np_sum l2.
Proof.
  intros N F. induction F as [ | x y l1 l2 Hxy F IH]; [ congruence | ].
  rewrite !np_sum_cons. destruct F as [ | x' y' l1 l2 Hxy' F]; [ cbn; lra | ].
  assert (np_sum (x' :: l1) < np_sum (y' :: l2)) by (apply IH; discriminate).
  lra.
Qed.

(** The portfolio total follows the order of the curves. *)
Lemma portfolio_pv_lt (bonds : list FixedRateBond) (c1 c2 : Curve) (today : Timestamp) :
  (forall t, 0 < t -> c1 t < c2 t) ->
  bonds <> [] -> Forall (positive_duration today) bonds ->
  exists p1 p2,
    portfolio_pv bonds c1 today = Returns p1 /\
    portfolio_pv bonds c2 today = Returns p2 /\ p1 < p2.
Proof.
  intros Hc N F.
  destruct (scenario_row_lt bonds c1 c2 today Hc F) as (l1 & l2 & E1 & E2 & L).
  unfold portfolio_pv, scenario_row. rewrite E1, E2. cbn [bind snd].
  do 2 eexists. split; [ reflexivity | split; [ reflexivity | ] ].
  rewrite !py_sum_np_sum. apply np_sum_Forall2_lt; [ | exact L ].
  intros ->. destruct bonds; [ congruence | ].
  cbn [mapM] in E1. destruct (pv f c1 today); [ | discriminate ].
  cbn [bind] in E1. destruct (mapM _ bonds); discriminate.
Qed.

(** Curve builder: adding a shock that is negative at every tenor lowers
    every rate, adding a positive one raises every rate. *)
Lemma vadd_negative (base shock : list R) :
  length shock = length base -> Forall (fun s => s < 0) shock ->
  Forall2 Rlt (vadd base shock) base.
Proof.
  unfold vadd. revert shock.
  induction base as [ | r base IH]; intros [ | s shock] L F; try discriminate.
  - constructor.
  - inversion F; subst. cbn [combine map fst snd]. constructor; [ lra | ].
    apply IH; [ now injection L | assumption ].
Qed.

Lemma vadd_positive (base shock : list R) :
  length shock = length base -> Forall (fun s => 0 < s) shock ->
  Forall2 Rlt base (vadd base shock).
Proof.
  unfold vadd. revert shock.
  induction base as [ | r base IH]; intros [ | s shock] L F; try discriminate.
  - constructor.
  - inversion F; subst. cbn [combine map fst snd]. constructor; [ lra | ].
    apply IH; [ now injection L | assumption ].
Qed.

(** The order of the three scenarios under an up-shock that is negative
    and a down-shock that is positive at every tenor. *)
Lemma scenario_order_negative_up
  (ZeroCurve : list R -> list R -> Curve)
  (base_rates up_shock down_shock : list R)
  (bonds : list FixedRateBond) (today : Timestamp) :
  rate_antitone ZeroCurve ->
  base_rates <> [] ->
  length up_shock = length base_rates -> length down_shock = length base_rates ->
  Forall (fun s => s < 0) up_shock -> Forall (fun s => 0 < s) down_shock ->
  bonds <> [] -> Forall (positive_duration today) bonds ->
  exists base up down,
    portfolio_pv bonds (zc_base ZeroCurve base_rates) today = Returns base /\
    portfolio_pv bonds (zc_up ZeroCurve base_rates up_shock) today = Returns up /\
    portfolio_pv bonds (zc_down ZeroCurve base_rates down_shock) today = Returns down /\
    down < base < up.
Proof.
  intros Ha Nb Lu Ld Fu Fd N F.
  pose proof (vadd_negative base_rates up_shock Lu Fu) as Vu.
  pose proof (vadd_positive base_rates down_shock Ld Fd) as Vd.
  assert (Nu : vadd base_rates up_shock <> []).
  { intros E. rewrite E in Vu. inversion Vu. congruence. }
  destruct (portfolio_pv_lt bonds (zc_base ZeroCurve base_rates)
              (zc_up ZeroCurve base_rates up_shock) today) as (b1 & u & Eb & Eu & L1);
    [ intros t Ht; now apply Ha | exact N | exact F | ].
  destruct (portfolio_pv_lt bonds (zc_down ZeroCurve base_rates down_shock)
              (zc_base ZeroCurve base_rates) today) as (d & b2 & Ed & Eb' & L2);
    [ intros t Ht; now apply Ha | exact N | exact F | ].
  assert (b2 = b1) by congruence. subst b2.
  exists b1, u, d. repeat split; assumption.
Qed.

Lemma ewma_up_example_negative : Forall (fun s => s < 0) ewma_up_example.
Proof. unfold ewma_up_example. repeat constructor; lra. Qed.

Lemma ewma_down_example_positive : Forall (fun s => 0 < s) ewma_down_example.
Proof. unfold ewma_down_example. repeat constructor; lra. Qed.

(** The loop of section 5.5 in terms of the three portfolio totals. *)
Lemma results_of_portfolio_pv
  (ZeroCurve : list R -> list R -> Curve) (base_rates up_shock down_shock : list R)
  (bonds : list FixedRateBond) (today : Timestamp) (base up down : R) :
  portfolio_pv bonds (zc_base ZeroCurve base_rates) today = Returns base ->
  portfolio_pv bonds (zc_up ZeroCurve base_rates up_shock) today = Returns up ->
  portfolio_pv bonds (zc_down ZeroCurve base_rates down_shock) today = Returns down ->
  exists pb pu pd,
    results ZeroCurve base_rates up_shock down_shock bonds today
    = Returns [(pb, base); (pu, up); (pd, down)].
Proof.
  unfold portfolio_pv, results. cbn [mapM]. intros Hb Hu Hd.
  destruct (scenario_row bonds (zc_base _ _) today) as [[pb b] | ];
    [ | discriminate ].
  destruct (scenario_row bonds (zc_up _ _ _) today) as [[pu u] | ];
    [ | discriminate ].
  destruct (scenario_row bonds (zc_down _ _ _) today) as [[pd d] | ];
    [ | discriminate ].
  cbn [bind snd] in *. exists pb, pu, pd. congruence.
Qed.

(** A bond valued on its issue date, with positive par and a non-negative
    coupon rate, has positive duration whenever its schedule exists. *)
Lemma issued_today_positive_duration (b : FixedRateBond) (cfs : list (Timestamp * R)) :
  valid (issue b) -> valid (maturity b) -> (1 <= freq b <= 12)%Z ->
  0 < par b -> 0 <= coupon b ->
  cashflows b = Returns cfs ->
  positive_duration (issue b) b.
Proof.
  intros Vi Vm Hf Hp Hc E. exists cfs. split; [ exact E | ].
  destruct (cashflows_amounts b cfs Hp Hc ltac:(lia) E) as [A X].
  split; [ | exact X ].
  pose proof (cashflows_dates b cfs Vi Vm Hf E) as D.
  rewrite Forall_forall in *. intros cf Hin. split; [ apply D | apply A ]; exact Hin.
Qed.

Lemma portfolio_example_positive_duration :
  Forall (positive_duration today_example) (portfolio today_example).
Proof.
  unfold portfolio.
  repeat constructor;
    match goal with |- positive_duration _ ?b =>
      assert (Vi : valid (issue b)) by (unfold valid; cbn; lia);
      assert (Vm : valid (maturity b)) by (unfold valid; cbn; lia);
      assert (Hf : (1 <= freq b <= 12)%Z) by (cbn; lia);
      destruct (cashflows_outcome b Vi Vm Hf) as [[L _] | [_ [cfs E]]];
        [ exfalso; cbn [issue maturity freq] in L; vm_compute in L; discriminate
        | apply (issued_today_positive_duration b cfs Vi Vm Hf);
            [ cbn; lra | cbn; lra | exact E ] ]
    end.
Qed.

(** The example curve constructor is antitone in the rates. *)
Lemma lookup_rate_lt (ts r1 r2 : list R) (t : R) :
  r1 <> [] -> Forall2 Rlt r1 r2 -> lookup_rate ts r1 t < lookup_rate ts r2 t.
Proof.
  intros N F. revert ts. induction F as [ | x y l1 l2 Hxy F IH]; [ congruence | ].
  intros ts. destruct F as [ | x' y' l1 l2 Hxy' F].
  - destruct ts; exact Hxy.
  - destruct ts as [ | tn ts]; [ exact Hxy | ].
    cbn [lookup_rate]. destruct (Rle_dec t tn); [ exact Hxy | ].
    apply IH. discriminate.
Qed.

Lemma step_curve_antitone : rate_antitone step_curve.
Proof.
  intros ts r1 r2 t N F Ht. unfold step_curve. apply exp_increasing.
  pose proof (lookup_rate_lt ts r1 r2 t N F). nra.
Qed.

(** C9, at the failing input: the shocks printed in the notebook's first
    cell, whose Up column is negative at every tenor and whose Down column
    is positive.  Under any zero curve whose discount factors fall when
    every rate rises and any seven base rates, the scenario loop returns
    its three rows and, for every non-empty portfolio of positive-duration
    bonds, the Up portfolio value is strictly greater than the Base value
    and the Down value strictly less: the cell names [+shock_mag·e_max]
    the up-shock without orienting the eigenvector. *)
Theorem example_shocks_scenario_order
  (ZeroCurve : list R -> list R -> Curve) (base_rates : list R)
  (bonds : list FixedRateBond) (today : Timestamp) :
  rate_antitone ZeroCurve ->
  length base_rates = 7%nat ->
  bonds <> [] -> Forall (positive_duration today) bonds ->
  exists pb pu pd base up down,
    results ZeroCurve base_rates ewma_up_example ewma_down_example bonds today
    = Returns [(pb, base); (pu, up); (pd, down)] /\
    down < base < up.
Proof.
  intros Ha L N F.
  destruct (scenario_order_negative_up ZeroCurve base_rates
              ewma_up_example ewma_down_example bonds today Ha)
    as (base & up & down & Eb & Eu & Ed & Lt); auto.
  - intros ->. discriminate.
  - apply ewma_up_example_negative.
  - apply ewma_down_example_positive.
  - destruct (results_of_portfolio_pv _ _ _ _ _ _ _ _ _ Eb Eu Ed)
      as (pb & pu & pd & E).
    exists pb, pu, pd, base, up, down. split; assumption.
Qed.

Lemma example_shocks_scenario_order_witness :
  exists pb pu pd base up down,
    results step_curve base_rates_example ewma_up_example ewma_down_example
      (portfolio today_example) today_example
    = Returns [(pb, base); (pu, up); (pd, down)] /\
    down < base < up.
Proof.
  apply (example_shocks_scenario_order step_curve base_rates_example
           (portfolio today_example) today_example).
  - exact step_curve_antitone.
  - reflexivity.
  - discriminate.
  - exact portfolio_example_positive_duration.
Defined.

End ScenarioFacts.

(** * Further properties of the bond schedule *)

Module ScheduleFacts.

Import CalendarFacts BondFacts BondTheorems SumFacts.

Local Open Scope R_scope.

Lemma length_index_steps (k : nat) (i n : Z) : length (index_steps k i n) = k.
Proof.
  revert i. induction k as [ | k IH]; intros i; [ reflexivity | ].
  cbn. now rewrite IH.
Qed.

Lemma nth_index_steps (k j : nat) (i n : Z) :
  (j < k)%nat -> nth j (index_steps k i n) 0%Z = (i + n * Z.of_nat j)%Z.
Proof.
  revert i j. induction k as [ | k IH]; intros i j H; [ lia | ].
  destruct j as [ | j]; cbn [index_steps nth]; [ lia | ].
  rewrite IH by lia. lia.
Qed.

Lemma length_month_end_range (n first last : Z) :
  (1 <= n)%Z ->
  length (month_end_range n first last)
  = if (last <? first)%Z then 0%nat
    else Z.to_nat ((last - first) / n + 1).
Proof.
  intros Hn. unfold month_end_range.
  destruct (last <? first)%Z; [ reflexivity | ].
  now rewrite length_map, length_index_steps.
Qed.

Lemma nth_month_end_range (n first last : Z) (j : nat) (d : Timestamp) :
  (j < length (month_end_range n first last))%nat ->
  nth j (month_end_range n first last) d
  = month_end_of (first + n * Z.of_nat j).
Proof.
  unfold month_end_range. destruct (last <? first)%Z; [ cbn; lia | ].
  rewrite length_map, length_index_steps. intros H.
  rewrite (nth_indep _ d (month_end_of 0)) by (now rewrite length_map, length_index_steps).
  rewrite map_nth. now rewrite nth_index_steps.
Qed.

Lemma length_schedule_amounts (b : FixedRateBond) (n : nat) :
  (1 <= n)%nat -> length (schedule_amounts b n) = n.
Proof.
  intros H. unfold schedule_amounts. rewrite length_app, repeat_length. cbn. lia.
Qed.

Lemma nth_combine {A B : Type} (l : list A) (l' : list B) (j : nat) (a : A) (b : B) :
  length l = length l' ->
  nth j (combine l l') (a, b) = (nth j l a, nth j l' b).
Proof.
  revert l' j. induction l as [ | x l IH]; intros [ | y l'] j L; try discriminate.
  - now destruct j.
  - destruct j as [ | j]; [ reflexivity | ]. cbn. apply IH. now injection L.
Qed.

(** The schedule with its dates and amounts by position. *)
Lemma cashflows_by_position (b : FixedRateBond) (cfs : list (Timestamp * R)) :
  valid (issue b) -> valid (maturity b) -> (1 <= freq b <= 12)%Z ->
  cashflows b = Returns cfs ->
  let n := Z.quot 12 (freq b) in
  let c := par b * coupon b / IZR (freq b) in
  (1 <= length cfs)%nat /\
  Z.of_nat (length cfs)
  = ((last_index (maturity b) - (month_index (issue b) + n)) / n + 1)%Z /\
  forall j, (j < length cfs)%nat ->
    fst (nth j cfs (issue b, 0))
    = month_end_of (month_index (issue b) + n * (Z.of_nat j + 1)) /\
    snd (nth j cfs (issue b, 0))
    = if Nat.eqb (S j) (length cfs) then c + par b else c.
Proof.
  intros Vi Vm Hf H n c.
  pose proof (cashflows_spec b Vi Vm Hf) as Sp. cbn zeta in Sp. fold n in Sp.
  rewrite H in Sp.
  destruct (coupon_step_pos (freq b) Hf) as (step & Es & Hs).
  assert (Hn : (1 <= n)%Z).
  { unfold coupon_step in Es. destruct (freq b =? 0)%Z; [ discriminate | ].
    injection Es as <-. exact Hs. }
  set (dates := month_end_range n (month_index (issue b) + n) (last_index (maturity b))) in *.
  assert (Ld : (1 <= length dates)%nat).
  { destruct dates; [ discriminate | cbn; lia ]. }
  assert (E : cfs = combine dates (schedule_amounts b (length dates))).
  { destruct dates; [ discriminate | now injection Sp ]. }
  assert (Lc : length cfs = length dates).
  { rewrite E, length_combine, length_schedule_amounts by exact Ld. lia. }
  pose proof (length_month_end_range n (month_index (issue b) + n)
                (last_index (maturity b)) Hn) as LR. fold dates in LR.
  split; [ lia | ]. split.
  - rewrite Lc, LR.
    destruct (Z.ltb_spec (last_index (maturity b)) (month_index (issue b) + n));
      [ lia | ].
    assert (0 <= (last_index (maturity b) - (month_index (issue b) + n)) / n)%Z
      by (apply Z.div_pos; lia).
    lia.
  - intros j Hj. rewrite Lc in *.
    rewrite E, nth_combine by (now rewrite length_schedule_amounts).
    cbn [fst snd]. split.
    + unfold dates. rewrite nth_month_end_range by (fold dates; lia).
      f_equal. lia.
    + unfold schedule_amounts. fold c.
      destruct (Nat.eqb_spec (S j) (length dates)) as [Q | Q].
      * rewrite app_nth2 by (rewrite repeat_length; lia).
        rewrite repeat_length.
        replace (j - (length dates - 1))%nat with 0%nat by lia. reflexivity.
      * rewrite app_nth1 by (rewrite repeat_length; lia).
        apply nth_repeat_lt. lia.
Qed.

Lemma last_as_nth {A : Type} (l : list A) (d : A) :
  last l d = nth (length l - 1) l d.
Proof.
  induction l as [ | x l IH]; [ reflexivity | ].
  destruct l as [ | y l]; [ reflexivity | ].
  change (last (x :: y :: l) d) with (last (y :: l) d). rewrite IH.
  cbn [length]. now rewrite !Nat.sub_succ, !Nat.sub_0_r.
Qed.

Lemma month_end_range_nonempty (n first last : Z) :
  (1 <= n)%Z -> (first <= last)%Z -> month_end_range n first last <> [].
Proof. intros Hn H. now rewrite month_end_range_step by assumption. Qed.

Lemma cashflows_returns_when (b : FixedRateBond) :
  valid (issue b) -> valid (maturity b) -> (1 <= freq b <= 12)%Z ->
  (month_index (issue b) + Z.quot 12 (freq b) <= last_index (maturity b))%Z ->
  exists cfs, cashflows b = Returns cfs.
Proof.
  intros Vi Vm Hf H.
  pose proof (cashflows_spec b Vi Vm Hf) as Sp. cbn zeta in Sp.
  destruct (coupon_step_pos (freq b) Hf) as (step & Es & Hs).
  assert (Hn : (1 <= Z.quot 12 (freq b))%Z).
  { unfold coupon_step in Es. destruct (freq b =? 0)%Z; [ discriminate | ].
    injection Es as <-. exact Hs. }
  pose proof (month_end_range_nonempty _ _ _ Hn H) as Ne.
  destruct (month_end_range _ _ _) as [ | d dates]; [ congruence | ].
  eexists. exact Sp.
Qed.

(** A bond of the portfolio's kind always has a schedule. *)
Lemma semiannual_bond_returns (d : Timestamp) (k : Z) (cpn p : R) :
  valid d -> (1 <= k)%Z ->
  exists cfs, cashflows (semiannual_bond d k cpn p) = Returns cfs.
Proof.
  intros V Hk. destruct (add_DateOffset_years_spec d k V) as (Vm & Mi & On).
  apply cashflows_returns_when; cbn [issue maturity freq semiannual_bond]; auto;
    [ lia | ].
  change (Z.quot 12 2) with 6%Z. unfold last_index. rewrite Mi.
  destruct (is_on_offset (add_DateOffset_years d k)); lia.
Qed.

Lemma mapM_returns_iff {A B : Type} (f : A -> outcome B) (l : list A) :
  (exists bs, mapM f l = Returns bs) <-> Forall (fun a => exists b, f a = Returns b) l.
Proof.
  induction l as [ | a l IH]; cbn [mapM].
  - split; [ constructor | eauto ].
  - split.
    + intros [bs H]. destruct (f a) as [b | e] eqn:Ea; [ | discriminate ].
      cbn [bind] in H. destruct (mapM f l) as [bs' | e]; [ | discriminate ].
      constructor; [ eauto | ]. apply IH. eauto.
    + intros H. inversion H as [ | ? ? [b Eb] Hl]; subst.
      apply IH in Hl. destruct Hl as [bs Ebs].
      rewrite Eb, Ebs. cbn [bind]. eauto.
Qed.

End ScheduleFacts.

(** * Bond valuer: further theorems *)

Module BondExtras.

Import CalendarFacts BondFacts BondTheorems SumFacts ScheduleFacts.

Local Open Scope R_scope.

(** X1: the schedule by position.  For a bond on valid dates with 1 to 12
    coupons a year whose [cashflows] returns, with n = 12/freq months per
    period: payment j (from 0) falls on the last day of the month
    n·(j+1) months after the issue month, whatever the day of issue; it
    pays par·coupon/freq, the last one that plus par; and the number of
    payments is the number of such month ends not after maturity. *)
Theorem cashflows_positions (b : FixedRateBond) (cfs : list (Timestamp * R)) :
  valid (issue b) -> valid (maturity b) -> (1 <= freq b <= 12)%Z ->
  cashflows b = Returns cfs ->
  let n := Z.quot 12 (freq b) in
  let c := par b * coupon b / IZR (freq b) in
  (1 <= length cfs)%nat /\
  Z.of_nat (length cfs)
  = ((last_index (maturity b) - (month_index (issue b) + n)) / n + 1)%Z /\
  forall j, (j < length cfs)%nat ->
    fst (nth j cfs (issue b, 0))
    = month_end_of (month_index (issue b) + n * (Z.of_nat j + 1)) /\
    snd (nth j cfs (issue b, 0))
    = if Nat.eqb (S j) (length cfs) then c + par b else c.
Proof. exact (cashflows_by_position b cfs). Qed.

Lemma cashflows_positions_witness :
  exists cfs,
    cashflows (bond_mid_month 1000) = Returns cfs /\
    (1 <= length cfs)%nat /\
    Z.of_nat (length cfs)
    = ((last_index (maturity (bond_mid_month 1000))
        - (month_index (issue (bond_mid_month 1000)) + 6)) / 6 + 1)%Z.
Proof.
  assert (E : cashflows (bond_mid_month 1000)
              = Returns [(mkTimestamp 2024 7 31, 1000 * 0.02 / 2);
                         (mkTimestamp 2025 1 31, 1000 * 0.02 / 2);
                         (mkTimestamp 2025 7 31, 1000 * 0.02 / 2 + 1000)])
    by reflexivity.
  eexists. split; [ exact E | ].
  destruct (cashflows_positions (bond_mid_month 1000) _
              ltac:(unfold valid; cbn; lia) ltac:(unfold valid; cbn; lia)
              ltac:(cbn; lia) E) as (L & C & _).
  split; [ exact L | exact C ].
Defined.

(** X2: the only failure of [cashflows] on valid dates.  With 1 to 12
    coupons a year, [cashflows] raises [IndexError] when the last month
    end not after maturity comes before the month one coupon period after
    the issue month, and returns a schedule otherwise; [pv] does the same
    under every curve and valuation date. *)
Theorem cashflows_returns_or_IndexError (b : FixedRateBond) :
  valid (issue b) -> valid (maturity b) -> (1 <= freq b <= 12)%Z ->
  let first := (month_index (issue b) + Z.quot 12 (freq b))%Z in
  ((last_index (maturity b) < first)%Z ->
     cashflows b = Raises IndexError /\
     forall curve today, pv b curve today = Raises IndexError) /\
  ((first <= last_index (maturity b))%Z ->
     exists cfs, cashflows b = Returns cfs /\
     forall curve today, exists v, pv b curve today = Returns v).
Proof.
  intros Vi Vm Hf first.
  pose proof (cashflows_spec b Vi Vm Hf) as Sp. cbn zeta in Sp. fold first in Sp.
  destruct (coupon_step_pos (freq b) Hf) as (step & Es & Hs).
  assert (Hn : (1 <= Z.quot 12 (freq b))%Z).
  { unfold coupon_step in Es. destruct (freq b =? 0)%Z; [ discriminate | ].
    injection Es as <-. exact Hs. }
  split; intros H.
  - rewrite month_end_range_nil in Sp by exact H.
    split; [ exact Sp | ]. intros curve today. unfold pv. now rewrite Sp.
  - pose proof (month_end_range_nonempty _ first _ Hn H) as Ne.
    destruct (month_end_range _ first _) as [ | d dates]; [ congruence | ].
    eexists. split; [ exact Sp | ].
    intros curve today. unfold pv. rewrite Sp. cbn [bind]. eauto.
Qed.

Lemma cashflows_returns_or_IndexError_witness :
  cashflows bond_short = Raises IndexError.
Proof.
  apply (cashflows_returns_or_IndexError bond_short).
  - unfold valid. cbn. lia.
  - unfold valid. cbn. lia.
  - cbn. lia.
  - vm_compute. reflexivity.
Defined.

(** X3: [cashflows] never returns an empty schedule, whatever the bond:
    an empty date range makes [cfs[-1]] raise. *)
Theorem cashflows_never_empty (b : FixedRateBond) : cashflows b <> Returns [].
Proof. intros H. now apply (cashflows_nonempty b [] H). Qed.

(** X4: on valid dates with 1 to 12 coupons a year, every payment date of
    a returned schedule is a valid month end strictly after the issue
    date and not after maturity, and the dates increase strictly. *)
Theorem cashflows_dates_ordered (b : FixedRateBond) (cfs : list (Timestamp * R)) :
  valid (issue b) -> valid (maturity b) -> (1 <= freq b <= 12)%Z ->
  cashflows b = Returns cfs ->
  Forall (fun cf =>
    valid (fst cf) /\ is_on_offset (fst cf) = true /\
    (toordinal (issue b) < toordinal (fst cf) <= toordinal (maturity b))%Z) cfs /\
  forall j, (S j < length cfs)%nat ->
    (toordinal (fst (nth j cfs (issue b, 0%R)))
     < toordinal (fst (nth (S j) cfs (issue b, 0%R))))%Z.
Proof.
  intros Vi Vm Hf H.
  destruct (cashflows_by_position b cfs Vi Vm Hf H) as (_ & _ & Pos).
  pose proof (cashflows_dates b cfs Vi Vm Hf H) as D.
  destruct (coupon_step_pos (freq b) Hf) as (step & Es & Hs).
  assert (Hn : (1 <= Z.quot 12 (freq b))%Z).
  { unfold coupon_step in Es. destruct (freq b =? 0)%Z; [ discriminate | ].
    injection Es as <-. exact Hs. }
  split.
  - apply Forall_forall. intros cf Hin.
    destruct (In_nth cfs cf (issue b, 0) Hin) as (j & Hj & <-).
    destruct (Pos j Hj) as [Ed _].
    destruct (month_end_of_spec
                (month_index (issue b) + Z.quot 12 (freq b) * (Z.of_nat j + 1)))
      as (V & O & _).
    rewrite Forall_forall in D. specialize (D _ (nth_In cfs (issue b, 0) Hj)).
    rewrite Ed in *. auto.
  - intros j Hj.
    destruct (Pos j ltac:(lia)) as [E1 _]. destruct (Pos (S j) Hj) as [E2 _].
    rewrite E1, E2.
    destruct (month_end_of_spec
                (month_index (issue b) + Z.quot 12 (freq b) * (Z.of_nat j + 1)))
      as (V1 & _ & M1).
    destruct (month_end_of_spec
                (month_index (issue b) + Z.quot 12 (freq b) * (Z.of_nat (S j) + 1)))
      as (V2 & _ & M2).
    apply toordinal_month_lt; auto. rewrite M1, M2. nia.
Qed.

Lemma cashflows_dates_ordered_witness :
  Forall (fun cf =>
    valid (fst cf) /\ is_on_offset (fst cf) = true /\
    (toordinal (issue (bond_mid_month 1000)) < toordinal (fst cf)
     <= toordinal (maturity (bond_mid_month 1000)))%Z)
    [(mkTimestamp 2024 7 31, 1000 * 0.02 / 2);
     (mkTimestamp 2025 1 31, 1000 * 0.02 / 2);
     (mkTimestamp 2025 7 31, 1000 * 0.02 / 2 + 1000)].
Proof.
  apply (cashflows_dates_ordered (bond_mid_month 1000)).
  - unfold valid. cbn. lia.
  - unfold valid. cbn. lia.
  - cbn. lia.
  - reflexivity.
Defined.

End BondExtras.

(** * Portfolio and scenario table: further theorems *)

Module ScenarioExtras.

Import CalendarFacts BondFacts BondTheorems SumFacts ScheduleFacts ScenarioFacts.

Local Open Scope R_scope.

(** X7: the number of flows of a portfolio bond.  A bond issued on any
    valid date d with maturity k >= 1 years later and two coupons a year
    always has a schedule.  When the day of d is not below the length of
    the maturity month it has 2k flows and the last falls on maturity;
    otherwise it has 2k - 1 flows and the last one, which carries the
    redemption, falls on the month end six months before the maturity
    month. *)
Theorem semiannual_bond_flow_count (d : Timestamp) (k : Z) (cpn p : R) :
  valid d -> (1 <= k)%Z ->
  exists cfs,
    cashflows (semiannual_bond d k cpn p) = Returns cfs /\
    if (days_in_month (year d + k) (month d) <=? day d)%Z
    then Z.of_nat (length cfs) = (2 * k)%Z /\
         fst (last cfs (d, 0)) = add_DateOffset_years d k
    else Z.of_nat (length cfs) = (2 * k - 1)%Z /\
         fst (last cfs (d, 0)) = month_end_of (month_index d + 12 * k - 6).
Proof.
  intros V Hk.
  destruct (semiannual_bond_returns d k cpn p V Hk) as [cfs E].
  exists cfs. split; [ exact E | ].
  destruct (add_DateOffset_years_spec d k V) as (Vm & Mi & On).
  destruct (cashflows_by_position (semiannual_bond d k cpn p) cfs V Vm
              ltac:(cbn; lia) E) as (L1 & Cnt & Pos).
  cbn [issue maturity freq semiannual_bond] in Cnt, Pos.
  change (Z.quot 12 2) with 6%Z in Cnt, Pos.
  specialize (Pos (length cfs - 1)%nat ltac:(lia)). destruct Pos as [Pd _].
  rewrite last_as_nth, Pd.
  unfold last_index in Cnt. rewrite On, Mi in Cnt.
  destruct (days_in_month (year d + k) (month d) <=? day d)%Z.
  - assert (C : Z.of_nat (length cfs) = (2 * k)%Z)
      by (rewrite Cnt; Z.div_mod_to_equations; lia).
    split; [ exact C | ].
    rewrite (on_offset_month_end _ Vm On), Mi. f_equal. lia.
  - assert (C : Z.of_nat (length cfs) = (2 * k - 1)%Z)
      by (rewrite Cnt; Z.div_mod_to_equations; lia).
    split; [ exact C | ]. f_equal. lia.
Qed.

Lemma semiannual_bond_flow_count_witness :
  exists cfs,
    cashflows (semiannual_bond (mkTimestamp 2024 1 15) 5 0.035 1000000)
    = Returns cfs /\
    Z.of_nat (length cfs) = 9%Z.
Proof.
  destruct (semiannual_bond_flow_count (mkTimestamp 2024 1 15) 5 0.035 1000000)
    as (cfs & E & C).
  - unfold valid. cbn. lia.
  - lia.
  - exists cfs. split; [ exact E | ].
    change ((days_in_month (year (mkTimestamp 2024 1 15) + 5)
               (month (mkTimestamp 2024 1 15)) <=? day (mkTimestamp 2024 1 15))%Z)
      with false in C.
    exact (proj1 C).
Defined.

Lemma portfolio_positive_duration (today : Timestamp) :
  valid today -> Forall (positive_duration today) (portfolio today).
Proof.
  intros V. unfold portfolio.
  repeat constructor;
    match goal with |- positive_duration _ (mkBond _ (add_DateOffset_years _ ?k) ?c _ ?p) =>
      destruct (semiannual_bond_returns today k c p V ltac:(lia)) as [cfs E];
      destruct (add_DateOffset_years_spec today k V) as (Vm & _ & _);
      apply (issued_today_positive_duration (semiannual_bond today k c p) cfs);
        [ exact V | exact Vm | cbn; lia | cbn; lra | cbn; lra | exact E ]
    end.
Qed.

(** X8: the notebook's portfolio prices on every date.  For every valid
    valuation date, each of the three bonds (issued on that date, 2, 5
    and 10 years) has a positive-duration schedule, and the scenario loop
    returns its three rows, each with three bond values, under every
    curve constructor, base rates and shocks. *)
Theorem portfolio_results_return (today : Timestamp)
  (ZeroCurve : list R -> list R -> Curve) (base_rates up down : list R) :
  valid today ->
  Forall (positive_duration today) (portfolio today) /\
  exists rb ru rd,
    results ZeroCurve base_rates up down (portfolio today) today
    = Returns [rb; ru; rd] /\
    length (fst rb) = 3%nat /\ length (fst ru) = 3%nat /\ length (fst rd) = 3%nat.
Proof.
  intros V. pose proof (portfolio_positive_duration today V) as P.
  split; [ exact P | ].
  assert (Row : forall zc : Curve, exists pvs,
            scenario_row (portfolio today) zc today = Returns (pvs, py_sum pvs) /\
            length pvs = 3%nat).
  { intros zc. unfold scenario_row, portfolio in *.
    inversion P as [ | ? ? (c1 & E1 & _) P1]; subst.
    inversion P1 as [ | ? ? (c2 & E2 & _) P2]; subst.
    inversion P2 as [ | ? ? (c3 & E3 & _) _]; subst.
    cbn [mapM]. unfold pv. rewrite E1, E2, E3. cbn [bind].
    eexists. split; reflexivity. }
  unfold results. cbn [mapM].
  destruct (Row (zc_base ZeroCurve base_rates)) as (pb & Eb & Lb).
  destruct (Row (zc_up ZeroCurve base_rates up)) as (pu & Eu & Lu).
  destruct (Row (zc_down ZeroCurve base_rates down)) as (pd & Ed & Ld).
  rewrite Eb, Eu, Ed. cbn [bind].
  do 3 eexists. split; [ reflexivity | ]. cbn [fst]. auto.
Qed.

Lemma portfolio_results_return_witness :
  Forall (positive_duration (mkTimestamp 2024 2 29))
         (portfolio (mkTimestamp 2024 2 29)).
Proof.
  apply (portfolio_results_return (mkTimestamp 2024 2 29) step_curve
           base_rates_example ewma_up_example ewma_down_example).
  unfold valid. cbn. lia.
Defined.

(** X9: the present value follows the curve.  For a bond of positive
    duration at the valuation date, a curve with strictly higher discount
    factors at every positive maturity gives a strictly higher present
    value. *)
Theorem pv_increases_with_discount_factors
  (b : FixedRateBond) (c1 c2 : Curve) (today : Timestamp) :
  (forall t, 0 < t -> c1 t < c2 t) ->
  positive_duration today b ->
  exists p1 p2,
    pv b c1 today = Returns p1 /\ pv b c2 today = Returns p2 /\ p1 < p2.
Proof. exact (pv_lt_of_curve_lt b c1 c2 today). Qed.

Lemma pv_increases_with_discount_factors_witness :
  exists p1 p2,
    pv (semiannual_bond today_example 2 0.02 1000000) (fun _ => 0) today_example
    = Returns p1 /\
    pv (semiannual_bond today_example 2 0.02 1000000) flat_one today_example
    = Returns p2 /\
    p1 < p2.
Proof.
  apply pv_increases_with_discount_factors.
  - intros t _. unfold flat_one. lra.
  - pose proof (portfolio_positive_duration today_example
                  ltac:(unfold valid; cbn; lia)) as P.
    inversion P. assumption.
Defined.

(** X10: one bond without a schedule aborts the whole table.  The scenario
    loop returns exactly when [cashflows] returns for every bond of the
    portfolio, whatever the curves. *)
Theorem results_return_iff
  (ZeroCurve : list R -> list R -> Curve) (base_rates up down : list R)
  (bonds : list FixedRateBond) (today : Timestamp) :
  (exists rows, results ZeroCurve base_rates up down bonds today = Returns rows)
  <-> Forall (fun b => exists cfs, cashflows b = Returns cfs) bonds.
Proof.
  assert (Row : forall zc : Curve,
    (exists row, scenario_row bonds zc today = Returns row)
    <-> Forall (fun b => exists cfs, cashflows b = Returns cfs) bonds).
  { intros zc. unfold scenario_row. split.
    - intros [row H].
      destruct (mapM (fun b => pv b zc today) bonds) as [pvs | e] eqn:E;
        [ | discriminate ].
      assert (F : Forall (fun b => exists v, pv b zc today = Returns v) bonds)
        by (apply mapM_returns_iff; eauto).
      revert F. apply Forall_impl. intros b [v Hv]. unfold pv in Hv.
      destruct (cashflows b); [ eauto | discriminate ].
    - intros F.
      assert (F' : Forall (fun b => exists v, pv b zc today = Returns v) bonds).
      { revert F. apply Forall_impl. intros b [cfs Hc]. unfold pv.
        rewrite Hc. cbn [bind]. eauto. }
      apply mapM_returns_iff in F'. destruct F' as [pvs E].
      rewrite E. cbn [bind]. eauto. }
  unfold results. cbn [mapM]. split.
  - intros [rows H]. apply (Row (zc_base ZeroCurve base_rates)).
    destruct (scenario_row bonds (zc_base ZeroCurve base_rates) today);
      [ eauto | discriminate ].
  - intros F.
    destruct (proj2 (Row (zc_base ZeroCurve base_rates)) F) as [rb Eb].
    destruct (proj2 (Row (zc_up ZeroCurve base_rates up)) F) as [ru Eu].
    destruct (proj2 (Row (zc_down ZeroCurve base_rates down)) F) as [rd Ed].
    rewrite Eb, Eu, Ed. cbn [bind]. eauto.
Qed.

Lemma vadd_zero (base : list R) : vadd base (repeat 0 (length base)) = base.
Proof.
  unfold vadd. induction base as [ | r base IH]; [ reflexivity | ].
  cbn [length repeat combine map fst snd]. rewrite IH. f_equal. lra.
Qed.

(** X11: a zero shock reproduces the base scenario.  With shock vectors
    of zeros on the tenor grid, the Up and Down curves are built from the
    base rates themselves, and the three rows of the table are the
    Base row. *)
Theorem zero_shock_reproduces_base
  (ZeroCurve : list R -> list R -> Curve) (base_rates : list R)
  (bonds : list FixedRateBond) (today : Timestamp) :
  vadd base_rates (repeat 0 (length base_rates)) = base_rates /\
  results ZeroCurve base_rates (repeat 0 (length base_rates))
    (repeat 0 (length base_rates)) bonds today
  = bind (scenario_row bonds (ZeroCurve tenors base_rates) today)
         (fun row => Returns [row; row; row]).
Proof.
  split; [ apply vadd_zero | ].
  unfold results, zc_up, zc_down, zc_base. rewrite vadd_zero. cbn [mapM].
  destruct (scenario_row bonds (ZeroCurve tenors base_rates) today); reflexivity.
Qed.

Lemma Forall_map_opp_neg (s : list R) :
  Forall (fun x => 0 < x) s -> Forall (fun x => x < 0) (map Ropp s).
Proof.
  intros F. apply Forall_forall. intros y Hy. apply in_map_iff in Hy.
  destruct Hy as (x & <- & Hx). rewrite Forall_forall in F.
  specialize (F x Hx). lra.
Qed.

Lemma Forall_map_opp_pos (s : list R) :
  Forall (fun x => x < 0) s -> Forall (fun x => 0 < x) (map Ropp s).
Proof.
  intros F. apply Forall_forall. intros y Hy. apply in_map_iff in Hy.
  destruct Hy as (x & <- & Hx). rewrite Forall_forall in F.
  specialize (F x Hx). lra.
Qed.

(** X12: the sign of the shock sets the order of the scenarios.  Under a
    curve constructor whose discount factors fall when every rate rises,
    with an up-shock s on the grid of the base rates and the down-shock
    its negation, and a non-empty portfolio of positive-duration bonds:
    if s is positive at every tenor the Up portfolio value is below Base
    and Down above; if s is negative at every tenor it is the reverse. *)
Theorem shock_sign_sets_order
  (ZeroCurve : list R -> list R -> Curve) (base_rates s : list R)
  (bonds : list FixedRateBond) (today : Timestamp) :
  rate_antitone ZeroCurve -> base_rates <> [] ->
  length s = length base_rates ->
  bonds <> [] -> Forall (positive_duration today) bonds ->
  exists base up down,
    portfolio_pv bonds (zc_base ZeroCurve base_rates) today = Returns base /\
    portfolio_pv bonds (zc_up ZeroCurve base_rates s) today = Returns up /\
    portfolio_pv bonds (zc_down ZeroCurve base_rates (map Ropp s)) today
    = Returns down /\
    (Forall (fun x => 0 < x) s -> up < base < down) /\
    (Forall (fun x => x < 0) s -> down < base < up).
Proof.
  intros Ha Nb L N F.
  assert (Row : forall zc : Curve, exists v, portfolio_pv bonds zc today = Returns v).
  { intros zc. unfold portfolio_pv, scenario_row.
    assert (F' : Forall (fun b => exists v, pv b zc today = Returns v) bonds).
    { revert F. apply Forall_impl. intros b (cfs & Hc & _). unfold pv.
      rewrite Hc. cbn [bind]. eauto. }
    apply mapM_returns_iff in F'. destruct F' as [pvs E].
    rewrite E. cbn [bind]. eauto. }
  destruct (Row (zc_base ZeroCurve base_rates)) as [base Eb].
  destruct (Row (zc_up ZeroCurve base_rates s)) as [up Eu].
  destruct (Row (zc_down ZeroCurve base_rates (map Ropp s))) as [down Ed].
  exists base, up, down. repeat split; auto.
  - destruct (scenario_order_negative_up ZeroCurve base_rates (map Ropp s) s
                bonds today Ha Nb) as (b' & u' & d' & Eb' & Eu' & Ed' & Lt); auto.
    + now rewrite length_map.
    + now apply Forall_map_opp_neg.
    + unfold zc_up, zc_down in *. assert (b' = base) by congruence.
      assert (d' = up) by congruence. subst. lra.
  - destruct (scenario_order_negative_up ZeroCurve base_rates (map Ropp s) s
                bonds today Ha Nb) as (b' & u' & d' & Eb' & Eu' & Ed' & Lt); auto.
    + now rewrite length_map.
    + now apply Forall_map_opp_neg.
    + unfold zc_up, zc_down in *. assert (b' = base) by congruence.
      assert (u' = down) by congruence. subst. lra.
  - destruct (scenario_order_negative_up ZeroCurve base_rates s (map Ropp s)
                bonds today Ha Nb) as (b' & u' & d' & Eb' & Eu' & Ed' & Lt); auto.
    + now rewrite length_map.
    + now apply Forall_map_opp_pos.
    + assert (b' = base) by congruence. assert (d' = down) by congruence.
      subst. lra.
  - destruct (scenario_order_negative_up ZeroCurve base_rates s (map Ropp s)
                bonds today Ha Nb) as (b' & u' & d' & Eb' & Eu' & Ed' & Lt); auto.
    + now rewrite length_map.
    + now apply Forall_map_opp_pos.
    + assert (b' = base) by congruence. assert (u' = up) by congruence.
      subst. lra.
Qed.

Lemma shock_sign_sets_order_witness :
  exists base up,
    portfolio_pv (portfolio today_example)
      (zc_base step_curve base_rates_example) today_example = Returns base /\
    portfolio_pv (portfolio today_example)
      (zc_up step_curve base_rates_example ewma_down_example) today_example
    = Returns up /\
    up < base.
Proof.
  destruct (shock_sign_sets_order step_curve base_rates_example ewma_down_example
              (portfolio today_example) today_example)
    as (base & up & down & Eb & Eu & _ & Pos & _).
  - exact step_curve_antitone.
  - discriminate.
  - reflexivity.
  - discriminate.
  - exact portfolio_example_positive_duration.
  - exists base, up. repeat split; auto.
    apply Pos. exact ewma_down_example_positive.
Defined.

End ScenarioExtras.

(** * Eigenpair, rounding and the shock table: facts *)

Module PipelineFacts.

Import SumFacts WeightFacts CovarianceFacts EigenFacts ShockFacts.

Local Open Scope R_scope.

Lemma dot_cons (a b : R) (u v : list R) : dot (a :: u) (b :: v) = a * b + dot u v.
Proof. reflexivity. Qed.

Lemma dot_scale_r (mu : R) (u v : list R) : dot u (scale mu v) = mu * dot u v.
Proof.
  revert v. induction u as [ | a u IH]; intros [ | b v]; try (cbn; lra).
  change (scale mu (b :: v)) with (mu * b :: scale mu v).
  rewrite !dot_cons, IH. ring.
Qed.

Lemma dot_self_nonneg (v : list R) : 0 <= dot v v.
Proof.
  induction v as [ | a v IH]; [ cbn; lra | ].
  rewrite dot_cons. pose proof (Rle_0_sqr a). unfold Rsqr in *. lra.
Qed.

Lemma dot_self_pos (v : list R) : Exists (fun x => x <> 0) v -> 0 < dot v v.
Proof.
  intros E. induction E as [a v Ha | a v E IH]; rewrite dot_cons.
  - pose proof (dot_self_nonneg v).
    assert (0 < a * a) by (destruct (Rtotal_order a 0) as [ | [ | ]]; nra). lra.
  - pose proof (Rle_0_sqr a). unfold Rsqr in *. lra.
Qed.

(** A positive semi-definite matrix has no negative eigenvalue. *)
Lemma psd_eigenvalue_nonneg (N : nat) (H : list (list R)) (mu : R) :
  positive_semidefinite N H -> is_eigenvalue N H mu -> 0 <= mu.
Proof.
  intros P (v & L & Nz & E). specialize (P v L).
  unfold quad_form in P. rewrite E, dot_scale_r in P.
  pose proof (dot_self_pos v Nz).
  destruct (Rle_dec 0 mu) as [ | Neg]; [ assumption | exfalso ].
  assert (mu * dot v v < 0) by nra. lra.
Qed.

Lemma weights_nonneg (lam : R) (T : nat) :
  0 < lam < 1 -> Forall (fun x => 0 <= x) (weights lam T).
Proof.
  intros Hl. unfold weights. apply Forall_forall. intros x Hx.
  apply in_map_iff in Hx. destruct Hx as (r & <- & Hr).
  pose proof (raw_weights_pos lam T Hl) as P.
  assert (Ne : raw_weights lam T <> []) by (intros E; now rewrite E in Hr).
  pose proof (np_sum_pos _ Ne P).
  rewrite Forall_forall in P. specialize (P r Hr).
  left. now apply Rdiv_lt_0_compat.
Qed.

(** ** [np.argmax] returns the first index of the maximum *)

Lemma argmax_from_first (l pre : list R) (best_i i : nat) (best : R) :
  length pre = i -> (best_i < i)%nat ->
  nth best_i (pre ++ l) 0 = best ->
  (forall j, (j < best_i)%nat -> nth j (pre ++ l) 0 < best) ->
  (forall j, (j < i)%nat -> nth j (pre ++ l) 0 <= best) ->
  let r := argmax_from best_i best i l in
  forall j, (j < r)%nat -> nth j (pre ++ l) 0 < nth r (pre ++ l) 0.
Proof.
  revert pre best_i i best.
  induction l as [ | y l IH]; intros pre best_i i best Hlen Hlt Hnth Hfirst Hall.
  - cbn [argmax_from]. intros j Hj. rewrite Hnth. now apply Hfirst.
  - cbn [argmax_from].
    assert (Hy : nth i (pre ++ y :: l) 0 = y).
    { rewrite app_nth2 by lia. now rewrite Hlen, Nat.sub_diag. }
    replace (pre ++ y :: l) with ((pre ++ [y]) ++ l) in *
      by (now rewrite <- app_assoc).
    destruct (Rlt_dec best y) as [Lt | Ge].
    + apply IH.
      * rewrite length_app. cbn. lia.
      * lia.
      * exact Hy.
      * intros j Hj. specialize (Hall j Hj). lra.
      * intros j Hj. assert (C : (j < i)%nat \/ j = i) by lia.
        destruct C as [C | ->]; [ specialize (Hall j C); lra | lra ].
    + apply IH.
      * rewrite length_app. cbn. lia.
      * lia.
      * exact Hnth.
      * exact Hfirst.
      * intros j Hj. assert (C : (j < i)%nat \/ j = i) by lia.
        destruct C as [C | ->]; [ now apply Hall | lra ].
Qed.

Lemma argmax_first (vals : list R) (idx : nat) :
  argmax vals = Returns idx ->
  forall j, (j < idx)%nat -> nth j vals 0 < nth idx vals 0.
Proof.
  destruct vals as [ | x l]; [ discriminate | ].
  cbn [argmax]. intros E. injection E as <-.
  apply (argmax_from_first l [x] 0 1 x); try reflexivity; try lia.
  intros j Hj. assert (j = 0%nat) by lia. subst. cbn. lra.
Qed.

Lemma ascending_le_last (vals : list R) :
  ascending vals -> forall x, In x vals -> x <= last vals 0.
Proof.
  induction vals as [ | a vals IH]; intros A x Hx; [ contradiction | ].
  destruct vals as [ | b vals].
  - destruct Hx as [<- | []]. cbn. lra.
  - destruct A as [Hab A]. change (last (a :: b :: vals) 0) with (last (b :: vals) 0).
    destruct Hx as [<- | Hx]; [ | now apply IH ].
    specialize (IH A b (or_introl eq_refl)). lra.
Qed.

Lemma last_In (vals : list R) : vals <> [] -> In (last vals 0) vals.
Proof.
  induction vals as [ | a vals IH]; [ congruence | intros _ ].
  destruct vals as [ | b vals]; [ now left | ].
  right. apply IH. discriminate.
Qed.

(** ** [np.rint] and [round] *)

Lemma rint_near (y : R) : Rabs (IZR (rint y) - y) <= 1 / 2.
Proof.
  unfold rint. pose proof (Zfloor_bound y) as [B1 B2].
  destruct (Rlt_dec (y - IZR (Zfloor y)) (1 / 2)).
  - rewrite Rabs_left1 by lra. lra.
  - destruct (Rlt_dec (1 / 2) (y - IZR (Zfloor y))).
    + rewrite plus_IZR. rewrite Rabs_right by lra. lra.
    + destruct (Z.even (Zfloor y)).
      * rewrite Rabs_left1 by lra. lra.
      * rewrite plus_IZR. rewrite Rabs_right by lra. lra.
Qed.

Lemma rint_opp (y : R) : rint (- y) = (- rint y)%Z.
Proof.
  pose proof (Zfloor_bound y) as [B1 B2].
  destruct (Req_dec y (IZR (Zfloor y))) as [E | NE].
  - assert (F : Zfloor (- y) = (- Zfloor y)%Z).
    { apply Zfloor_eq. rewrite opp_IZR. lra. }
    unfold rint. rewrite F, opp_IZR.
    destruct (Rlt_dec (- y - - IZR (Zfloor y)) (1 / 2)); [ | lra ].
    destruct (Rlt_dec (y - IZR (Zfloor y)) (1 / 2)); [ reflexivity | lra ].
  - assert (F : Zfloor (- y) = (- Zfloor y - 1)%Z).
    { apply Zfloor_eq. rewrite minus_IZR, opp_IZR. lra. }
    unfold rint. rewrite F, minus_IZR, opp_IZR.
    destruct (Rlt_dec (y - IZR (Zfloor y)) (1 / 2)) as [L | NL].
    + destruct (Rlt_dec (- y - (- IZR (Zfloor y) - 1)) (1 / 2)); [ lra | ].
      destruct (Rlt_dec (1 / 2) (- y - (- IZR (Zfloor y) - 1))); [ lia | lra ].
    + destruct (Rlt_dec (1 / 2) (y - IZR (Zfloor y))) as [G | NG].
      * destruct (Rlt_dec (- y - (- IZR (Zfloor y) - 1)) (1 / 2)); [ lia | lra ].
      * destruct (Rlt_dec (- y - (- IZR (Zfloor y) - 1)) (1 / 2)); [ lra | ].
        destruct (Rlt_dec (1 / 2) (- y - (- IZR (Zfloor y) - 1))); [ lra | ].
        replace (- Zfloor y - 1)%Z with (- (Zfloor y + 1))%Z by lia.
        rewrite Z.even_opp, Z.even_add. cbn [Z.even].
        destruct (Z.even (Zfloor y)); cbn; lia.
Qed.

Lemma Rabs_le_interval (x a : R) : Rabs x <= a -> - a <= x <= a.
Proof.
  intros H. unfold Rabs in H. destruct (Rcase_abs x); lra.
Qed.

Lemma rint_le (x y : R) : x <= y -> (rint x <= rint y)%Z.
Proof.
  intros H. destruct (Req_dec x y) as [-> | NE]; [ lia | ].
  pose proof (rint_near x) as Nx. pose proof (rint_near y) as Ny.
  apply Rabs_le_interval in Nx. apply Rabs_le_interval in Ny.
  destruct (Z_lt_le_dec (rint y) (rint x)) as [Lt | Le]; [ exfalso | exact Le ].
  assert (IZR (rint y) + 1 <= IZR (rint x)).
  { rewrite <- plus_IZR. apply IZR_le. lia. }
  lra.
Qed.

Lemma pow10_pos (d : nat) : 0 < 10 ^ d.
Proof. apply pow_lt. lra. Qed.

Lemma np_round_opp (d : nat) (x : R) : np_round d (- x) = - np_round d x.
Proof.
  unfold np_round. replace (- x * 10 ^ d) with (- (x * 10 ^ d)) by ring.
  rewrite rint_opp, opp_IZR. unfold Rdiv. ring.
Qed.

Lemma np_round_le (d : nat) (x y : R) : x <= y -> np_round d x <= np_round d y.
Proof.
  intros H. unfold np_round. pose proof (pow10_pos d) as P.
  unfold Rdiv. apply Rmult_le_compat_r; [ left; now apply Rinv_0_lt_compat | ].
  apply IZR_le, rint_le. apply Rmult_le_compat_r; lra.
Qed.

Lemma np_round_0 (d : nat) : np_round d 0 = 0.
Proof.
  pose proof (np_round_opp d 0) as E. rewrite Ropp_0 in E. lra.
Qed.

Lemma shocks_ewma_delta (mag : R) (e_max : list R) :
  shocks_ewma (delta_up mag e_max) (delta_down mag e_max)
  = (map (np_round 6) (delta_up mag e_max),
     map Ropp (map (np_round 6) (delta_up mag e_max))).
Proof.
  unfold shocks_ewma, delta_up, delta_down. f_equal.
  rewrite !map_map. apply map_ext. intros e.
  replace (- mag * e) with (- (mag * e)) by ring. apply np_round_opp.
Qed.

End PipelineFacts.

(** * Risk factor extractor on a covariance matrix *)

Module ExtractorFacts.

Import SumFacts WeightFacts CovarianceFacts EigenFacts PipelineFacts.

Local Open Scope R_scope.

Lemma example_matrix :
  H_ewma 2 [[0; 1]] (weights (1 / 2) (length [[0; 1]])) = [[0; 0]; [0; 1]].
Proof.
  cbn [length]. rewrite weights_one_row by lra.
  rewrite (H_ewma_one_row [0; 1] : H_ewma 2 [[0; 1]] [1] = outer [0; 1]).
  unfold outer. cbn [map]. repeat (f_equal; try lra).
Qed.



End ExtractorFacts.

(** * Eigenpair, shock table and first cell: further theorems *)

Module PipelineExtras.

Import SumFacts WeightFacts CovarianceFacts EigenFacts ShockFacts PipelineFacts
  ExtractorFacts.

Local Open Scope R_scope.

(** X17: with eigenvalues in ascending order, as [eigh] returns them, the
    extractor takes the last one, and its eigenvector is the column of
    the first index that holds this value. *)
Theorem dominant_pair_takes_last (vals : list R) (vecs : list (list R)) :
  vals <> [] -> ascending vals ->
  exists idx,
    argmax vals = Returns idx /\ (idx < length vals)%nat /\
    dominant_pair vals vecs = Returns (last vals 0, column idx vecs) /\
    nth idx vals 0 = last vals 0 /\
    forall j, (j < idx)%nat -> nth j vals 0 < last vals 0.
Proof.
  intros Ne A. destruct (argmax_spec vals Ne) as (idx & Ea & Hidx & Hmax).
  assert (E : nth idx vals 0 = last vals 0).
  { pose proof (Hmax _ (last_In vals Ne)).
    pose proof (ascending_le_last vals A _ (nth_In vals 0 Hidx)). lra. }
  exists idx. split; [ exact Ea | ]. split; [ exact Hidx | ].
  split; [ unfold dominant_pair; rewrite Ea; cbn [bind]; now rewrite E | ].
  split; [ exact E | ].
  intros j Hj. rewrite <- E. now apply (argmax_first vals idx Ea).
Qed.

Lemma dominant_pair_takes_last_witness :
  exists idx,
    dominant_pair [1; 2; 2] [[1; 0; 0]; [0; 1; 0]; [0; 0; 1]]
    = Returns (2, column idx [[1; 0; 0]; [0; 1; 0]; [0; 0; 1]]) /\
    forall j, (j < idx)%nat -> nth j [1; 2; 2] 0 < 2.
Proof.
  destruct (dominant_pair_takes_last [1; 2; 2] [[1; 0; 0]; [0; 1; 0]; [0; 0; 1]])
    as (idx & _ & _ & E & _ & F).
  - discriminate.
  - cbn. lra.
  - exists idx. split; [ exact E | exact F ].
Defined.

(** X19: when the magnitude exists.  With a positive quantile constant
    the scaler yields [nan] (no result) exactly when λ_max is negative. *)
Theorem shock_scaler_nan_iff (chi2_ppf : R -> nat -> R)
  (N : nat) (lam_max : R) (e_max : list R) :
  0 < chi2_ppf 0.995 N ->
  (shock_scaler chi2_ppf N lam_max e_max = None <-> lam_max < 0).
Proof.
  intros Hc. unfold shock_scaler, shock_mag, quantile_constant, np_sqrt.
  destruct (Rle_dec 0 (chi2_ppf 0.995 N * lam_max)) as [Le | Gt].
  - split; [ discriminate | ]. intros Neg. exfalso.
    assert (chi2_ppf 0.995 N * lam_max < 0) by nra. lra.
  - split; [ | reflexivity ]. intros _.
    destruct (Rlt_dec lam_max 0) as [ | Ge]; [ assumption | exfalso ].
    apply Gt. apply Rmult_le_pos; lra.
Qed.

Lemma shock_scaler_nan_iff_witness :
  shock_scaler chi2_ppf_example 7 (-1) [1; 0] = None.
Proof.
  apply (shock_scaler_nan_iff chi2_ppf_example 7 (-1) [1; 0]).
  - unfold chi2_ppf_example. lra.
  - lra.
Defined.

(** X20: the shock table after rounding.  The two columns of
    [shocks_ewma] built from [delta_up] and [delta_down] are still exact
    negations of each other after rounding to six decimals, entry by
    entry, and have one entry per component of the eigenvector. *)
Theorem shocks_ewma_antisymmetric (mag : R) (e_max : list R) :
  let table := shocks_ewma (delta_up mag e_max) (delta_down mag e_max) in
  snd table = map Ropp (fst table) /\
  length (fst table) = length e_max /\
  length (snd table) = length e_max /\
  forall i, nth i (snd table) 0 = - nth i (fst table) 0.
Proof.
  cbn zeta. rewrite shocks_ewma_delta. cbn [fst snd].
  split; [ reflexivity | ].
  split; [ unfold delta_up; now rewrite !length_map | ].
  split; [ unfold delta_up; now rewrite !length_map | ].
  intros i. apply (nth_map_R Ropp). ring.
Qed.

(** X21: the printed table.  Rounding to two decimals keeps the number
    of rows and the number of bond values of a row, and keeps the order,
    possibly as a tie, of the portfolio totals of two rows and of the
    values of a bond in two rows. *)
Theorem pv_df_rounding (rows : list (list R * R)) :
  length (pv_df rows) = length rows /\
  (forall row, length (fst (round_row row)) = length (fst row)) /\
  (forall r1 r2, snd r1 <= snd r2 -> snd (round_row r1) <= snd (round_row r2)) /\
  (forall r1 r2 i, nth i (fst r1) 0 <= nth i (fst r2) 0 ->
     nth i (fst (round_row r1)) 0 <= nth i (fst (round_row r2)) 0).
Proof.
  split; [ unfold pv_df; apply length_map | ].
  split; [ intros row; unfold round_row; cbn [fst]; apply length_map | ].
  split.
  - intros r1 r2 H. unfold round_row. cbn [snd]. now apply np_round_le.
  - intros r1 r2 i H. unfold round_row. cbn [fst].
    rewrite !(nth_map_R (np_round 2)) by apply np_round_0.
    now apply np_round_le.
Qed.

(** X22: the first cell always produces a shock table.  For 0 < λ < 1,
    N >= 1 tenors, a positive chi-squared quantile and a decomposition
    that [eigh] returns for the estimated matrix, the cell raises nothing
    and yields no [nan]: it returns two columns of N entries each, the
    second the negation of the first. *)
Theorem shock_cell_returns
  (chi2_ppf : R -> nat -> R) (eigh : list (list R) -> list R * list (list R))
  (lam : R) (N : nat) (rets : list (list R)) :
  0 < lam < 1 -> (1 <= N)%nat ->
  0 < chi2_ppf 0.995 N ->
  (let H := H_ewma N rets (weights lam (length rets)) in
   eigh_result N H (fst (eigh H)) (snd (eigh H))) ->
  exists up down,
    shock_cell chi2_ppf eigh lam N rets = Returns (Some (up, down)) /\
    length up = N /\ length down = N /\ down = map Ropp up.
Proof.
  intros Hl HN Hc HE. cbn zeta in HE.
  pose proof (H_ewma_psd N rets _ (weights_nonneg lam (length rets) Hl)) as P.
  destruct (dominant_pair_spec N _ _ _ HN HE)
    as (lam_max & e & Ed & _ & Hev & _ & (Le & _ & _) & _).
  pose proof (psd_eigenvalue_nonneg N _ lam_max P Hev) as Pos.
  unfold shock_cell, ewma_covariance. cbn [bind]. rewrite Ed. cbn [bind fst snd].
  unfold shock_scaler, shock_mag, quantile_constant.
  rewrite np_sqrt_nonneg by (apply Rmult_le_pos; lra).
  rewrite shocks_ewma_delta. do 2 eexists. split; [ reflexivity | ].
  unfold delta_up. rewrite !length_map. auto.
Qed.

Lemma shock_cell_returns_witness :
  exists up down,
    shock_cell chi2_ppf_example eigh_example (1 / 2) 2 [[0; 1]]
    = Returns (Some (up, down)) /\
    down = map Ropp up.
Proof.
  destruct (shock_cell_returns chi2_ppf_example eigh_example (1 / 2) 2 [[0; 1]])
    as (up & down & E & _ & _ & O).
  - lra.
  - lia.
  - unfold chi2_ppf_example. lra.
  - cbn zeta. rewrite example_matrix. cbn [eigh_example fst snd].
    apply eigh_result_diag2. lra.
  - exists up, down. auto.
Defined.

End PipelineExtras.

(** * The notebook end to end *)

Module NotebookExtras.

Import CalendarFacts BondFacts BondTheorems SumFacts ScheduleFacts ScenarioFacts
  ScenarioExtras PipelineFacts.

Local Open Scope R_scope.

(** X23: the notebook's table on every date.  For every valid valuation
    date, any seven base rates and any curve constructor whose discount
    factors fall when every rate rises, the scenario loop on the
    notebook's three bonds with the shocks printed in its first cell
    returns its three rows with the Up total strictly above Base and the
    Down total strictly below; the table rounded to two decimals shows
    them in that order, possibly tied. *)
Theorem notebook_scenario_order (today : Timestamp)
  (ZeroCurve : list R -> list R -> Curve) (base_rates : list R) :
  valid today -> rate_antitone ZeroCurve -> length base_rates = 7%nat ->
  exists rb ru rd,
    results ZeroCurve base_rates ewma_up_example ewma_down_example
      (portfolio today) today
    = Returns [rb; ru; rd] /\
    snd rd < snd rb < snd ru /\
    snd (round_row rd) <= snd (round_row rb) <= snd (round_row ru).
Proof.
  intros V Ha L.
  destruct (scenario_order_negative_up ZeroCurve base_rates
              ewma_up_example ewma_down_example (portfolio today) today Ha)
    as (base & up & down & Eb & Eu & Ed & Lt); auto.
  - intros ->. discriminate.
  - apply ewma_up_example_negative.
  - apply ewma_down_example_positive.
  - discriminate.
  - now apply portfolio_positive_duration.
  - destruct (results_of_portfolio_pv _ _ _ _ _ _ _ _ _ Eb Eu Ed)
      as (pb & pu & pd & E).
    exists (pb, base), (pu, up), (pd, down). split; [ exact E | ].
    cbn [snd round_row]. split; [ exact Lt | ].
    split; apply np_round_le; lra.
Qed.

Lemma notebook_scenario_order_witness :
  exists rb ru rd,
    results step_curve base_rates_example ewma_up_example ewma_down_example
      (portfolio (mkTimestamp 2024 2 29)) (mkTimestamp 2024 2 29)
    = Returns [rb; ru; rd] /\
    snd rd < snd rb < snd ru.
Proof.
  destruct (notebook_scenario_order (mkTimestamp 2024 2 29) step_curve
              base_rates_example)
    as (rb & ru & rd & E & Lt & _).
  - unfold valid. cbn. lia.
  - exact step_curve_antitone.
  - reflexivity.
  - exists rb, ru, rd. auto.
Defined.

End NotebookExtras.

(** * The weights and the matrix on binary64 *)

Module Float64Facts.

Import PrimFloat.

Local Open Scope R_scope.

Lemma pow_example_libm : Float64.libm_pow Float64.pow_example.
Proof.
  unfold Float64.libm_pow, Float64.pow_example.
  split; [ | split ]; intros; reflexivity.
Qed.

Lemma weights_underflow (pow : PrimFloat.float -> PrimFloat.float -> PrimFloat.float) :
  Float64.libm_pow pow ->
  Float64.weights pow 0x1p-600%float 3 = [0; 0x1p-600; 1]%float.
Proof.
  intros (P0 & P1 & P2). unfold Float64.weights, Float64.raw_weights, arange_down.
  cbn [seq rev app map]. 
  change (Float64.of_nat 2) with 2%float.
  change (Float64.of_nat 1) with 1%float.
  change (Float64.of_nat 0) with 0%float.
  rewrite P0, P1, P2. vm_compute. reflexivity.
Qed.

Lemma weights_sum_rounded (pow : PrimFloat.float -> PrimFloat.float -> PrimFloat.float) :
  Float64.libm_pow pow ->
  Float64.np_sum (Float64.weights pow 0x1.6666666666666p-1%float 2)
  = 0x1.0000000000001p+0%float.
Proof.
  intros (P0 & P1 & P2). unfold Float64.weights, Float64.raw_weights, arange_down.
  cbn [seq rev app map].
  change (Float64.of_nat 1) with 1%float.
  change (Float64.of_nat 0) with 0%float.
  rewrite P0, P1. vm_compute. reflexivity.
Qed.

(** C3 fails on the code: on binary64, whatever [pow] the C library
    has, with λ = 2^-600 and T = 3 the weights are 0, 2^-600 and 1, the
    oldest not strictly positive, and with λ = 0.7 and T = 2 the weights
    sum to the float next above 1.  Both hold for every order of
    summation: the first sum has the terms 0, 2^-600 and 1, the second
    two terms. *)
Lemma weights_float64_counterexample :
  (forall pow, Float64.libm_pow pow ->
     Float64.weights pow 0x1p-600%float 3 = [0; 0x1p-600; 1]%float /\
     Float64.np_sum (Float64.weights pow 0x1.6666666666666p-1%float 2)
     = 0x1.0000000000001p+0%float) /\
  Float64.libm_pow Float64.pow_example /\
  (0x1.0000000000001p+0 =? 1)%float = false /\
  ~ Float64.weights_claim.
Proof.
  pose proof pow_example_libm as L.
  split; [ intros pow P; split;
           [ now apply weights_underflow | now apply weights_sum_rounded ] | ].
  split; [ exact L | ].
  split; [ vm_compute; reflexivity | ].
  intros C.
  destruct (C Float64.pow_example L 0x1p-600%float 3%nat
              ltac:(lia) eq_refl eq_refl) as (Pos & _ & _).
  rewrite (weights_underflow _ L) in Pos.
  inversion Pos as [ | ? ? H0 _]. vm_compute in H0. discriminate.
Qed.

Lemma to_R_pos (x : PrimFloat.float) (m : positive) (e : Z) :
  FloatOps.Prim2SF x = SpecFloat.S754_finite false m e -> 0 < Float64.to_R x.
Proof.
  intros E. unfold Float64.to_R. rewrite E.
  apply Rmult_lt_0_compat; [ now apply IZR_lt | apply powerRZ_lt; lra ].
Qed.

Lemma matrix_not_symmetric :
  Float64.H_ewma 2 [[3; 5]; [0; 0]]%float
    [0x1.999999999999ap-2; 0x1.3333333333333p-1]%float
  = [[0x1.ccccccccccccep+1; 0x1.8000000000001p+2];
     [0x1.8000000000000p+2; 0x1.4000000000000p+3]]%float.
Proof. vm_compute. reflexivity. Qed.

Lemma matrix_underflow :
  Float64.H_ewma 2 [[0x1p-600; 1]]%float [1]%float
  = [[0; 0x1p-600]; [0x1p-600; 1]]%float.
Proof. vm_compute. reflexivity. Qed.

Lemma matrix_underflow_not_psd :
  ~ positive_semidefinite 2
      (map (map Float64.to_R) [[0; 0x1p-600]; [0x1p-600; 1]]%float).
Proof.
  intros P.
  assert (Z0 : Float64.to_R 0%float = 0) by reflexivity.
  assert (U : 0 < Float64.to_R 0x1p-600%float)
    by (apply (to_R_pos _ 4503599627370496 (-652)); vm_compute; reflexivity).
  assert (C : 0 < Float64.to_R 1%float)
    by (apply (to_R_pos _ 4503599627370496 (-52)); vm_compute; reflexivity).
  cbn [map] in P. rewrite Z0 in P.
  set (u := Float64.to_R 0x1p-600%float) in *.
  set (c := Float64.to_R 1%float) in *.
  specialize (P [c + 1; - u] eq_refl).
  unfold quad_form, mat_vec, Ewma.dot in P.
  cbn [map combine fst snd Ewma.np_sum fold_right] in P.
  clearbody u c. nra.
Qed.

(** C4 fails on the code: on binary64, with the weights 0.4 and 0.6 (which
    sum to 1) and the rows (3, 5) and (0, 0), H[0][1] is the float next
    above 6 and H[1][0] is 6; with the single row (2^-600, 1) and weight 1,
    H[0][0] underflows to 0 and v'Hv is negative at v = (H[1][1] + 1,
    -H[0][1]).  In both matrices every sum has one non-zero term, so the
    order of summation plays no part. *)
Lemma H_ewma_float64_counterexample :
  Float64.np_sum [0x1.999999999999ap-2; 0x1.3333333333333p-1]%float = 1%float /\
  Float64.entry
    (Float64.H_ewma 2 [[3; 5]; [0; 0]]%float
       [0x1.999999999999ap-2; 0x1.3333333333333p-1]%float) 0 1
  <> Float64.entry
    (Float64.H_ewma 2 [[3; 5]; [0; 0]]%float
       [0x1.999999999999ap-2; 0x1.3333333333333p-1]%float) 1 0 /\
  ~ positive_semidefinite 2
      (map (map Float64.to_R) (Float64.H_ewma 2 [[0x1p-600; 1]]%float [1]%float)) /\
  ~ Float64.matrix_claim.
Proof.
  assert (S1 : Float64.np_sum [0x1.999999999999ap-2; 0x1.3333333333333p-1]%float
               = 1%float) by (vm_compute; reflexivity).
  assert (A : Float64.entry
    (Float64.H_ewma 2 [[3; 5]; [0; 0]]%float
       [0x1.999999999999ap-2; 0x1.3333333333333p-1]%float) 0 1
  <> Float64.entry
    (Float64.H_ewma 2 [[3; 5]; [0; 0]]%float
       [0x1.999999999999ap-2; 0x1.3333333333333p-1]%float) 1 0).
  { rewrite matrix_not_symmetric. cbn [Float64.entry nth]. intros E.
    apply (f_equal (fun z => PrimFloat.eqb z 0x1.8000000000000p+2%float)) in E.
    vm_compute in E. discriminate. }
  split; [ exact S1 | ]. split; [ exact A | ].
  split; [ rewrite matrix_underflow; exact matrix_underflow_not_psd | ].
  intros C.
  destruct (C 2%nat 2%nat [[3; 5]; [0; 0]]%float
              [0x1.999999999999ap-2; 0x1.3333333333333p-1]%float
              eq_refl ltac:(repeat constructor) eq_refl
              ltac:(repeat constructor) S1) as [Sym _].
  apply A. apply Sym; lia.
Qed.

End Float64Facts.

(** * The weights and the matrix under rounding *)

Module RoundedFacts.

Import SumFacts WeightFacts CovarianceFacts PipelineFacts.

Local Open Scope R_scope.

Lemma exact_rounding (u eta : R) :
  0 <= u < 1 -> 0 <= eta -> Rounded.rounding u eta Rounded.all_reals Rounded.exact.
Proof.
  intros Hu He. unfold Rounded.rounding, Rounded.all_reals, Rounded.exact.
  repeat split; try tauto; try lra.
  - intros x y _ _. rewrite Rminus_diag, Rabs_R0.
    apply Rmult_le_pos; [ lra | apply Rabs_pos ].
  - intros x. rewrite Rminus_diag, Rabs_R0.
    pose proof (Rabs_pos x).
    assert (0 <= u * Rabs x) by (apply Rmult_le_pos; lra). lra.
Qed.

Lemma pow2_pos (k : nat) : 0 < 2 ^ k.
Proof. apply pow_lt. lra. Qed.

Lemma rint_IZR (n : Z) : rint (IZR n) = n.
Proof.
  unfold rint. rewrite ZfloorZ, Rminus_diag.
  destruct (Rlt_dec 0 (1 / 2)); [ reflexivity | lra ].
Qed.

Lemma fixed_on_grid (k : nat) (x : R) : Rounded.on_grid k x -> Rounded.fixed k x = x.
Proof.
  intros (n & ->). unfold Rounded.fixed. pose proof (pow2_pos k).
  replace (IZR n / 2 ^ k * 2 ^ k) with (IZR n) by (field; lra).
  now rewrite rint_IZR.
Qed.

Lemma on_grid_plus (k : nat) (x y : R) :
  Rounded.on_grid k x -> Rounded.on_grid k y -> Rounded.on_grid k (x + y).
Proof.
  intros (n & ->) (m & ->). exists (n + m)%Z. rewrite plus_IZR.
  pose proof (pow2_pos k). field. lra.
Qed.

Lemma fixed_le (k : nat) (x y : R) : x <= y -> Rounded.fixed k x <= Rounded.fixed k y.
Proof.
  intros H. unfold Rounded.fixed. pose proof (pow2_pos k) as P.
  unfold Rdiv. apply Rmult_le_compat_r; [ left; now apply Rinv_0_lt_compat | ].
  apply IZR_le, rint_le. apply Rmult_le_compat_r; lra.
Qed.

Lemma fixed_near (k : nat) (x : R) : Rabs (Rounded.fixed k x - x) <= / 2 ^ S k.
Proof.
  unfold Rounded.fixed. pose proof (pow2_pos k) as P.
  pose proof (rint_near (x * 2 ^ k)) as N.
  replace (IZR (rint (x * 2 ^ k)) / 2 ^ k - x)
    with ((IZR (rint (x * 2 ^ k)) - x * 2 ^ k) / 2 ^ k) by (field; lra).
  unfold Rdiv at 1. rewrite Rabs_mult, (Rabs_pos_eq (/ 2 ^ k))
    by (left; now apply Rinv_0_lt_compat).
  cbn [pow]. rewrite Rinv_mult.
  apply Rmult_le_compat_r; [ left; now apply Rinv_0_lt_compat | ]. lra.
Qed.

(** The fixed-point format is a rounding: sums of grid points are exact,
    and a result moves by at most half a step. *)
Lemma fixed_rounding (k : nat) :
  Rounded.rounding 0 (/ 2 ^ S k) (Rounded.on_grid k) (Rounded.fixed k).
Proof.
  pose proof (pow2_pos k) as P. pose proof (pow2_pos (S k)) as P'.
  unfold Rounded.rounding.
  split; [ lra | ].
  split; [ left; now apply Rinv_0_lt_compat | ].
  split; [ exists 0%Z; unfold Rdiv; ring | ].
  split; [ exists (2 ^ Z.of_nat k)%Z; rewrite <- pow_IZR; field; lra | ].
  split; [ intros x (n & ->); exists (- n)%Z; rewrite opp_IZR; field; lra | ].
  split; [ intros x; now exists (rint (x * 2 ^ k)) | ].
  split; [ apply fixed_on_grid | ].
  split; [ apply fixed_le | ].
  split.
  - intros x y Fx Fy. rewrite (fixed_on_grid k (x + y)) by now apply on_grid_plus.
    rewrite Rminus_diag, Rabs_R0. lra.
  - intros x. rewrite Rmult_0_l, Rplus_0_l. apply fixed_near.
Qed.

Lemma fixed_pow_libm (k : nat) (lam : R) :
  0 < lam < 1 -> Rounded.libm_pow (Rounded.on_grid k) (Rounded.fixed_pow k) lam.
Proof.
  intros Hl. destruct (fixed_rounding k) as (_ & _ & F0 & F1 & _ & Fr & Fi & Fm & _).
  unfold Rounded.libm_pow, Rounded.fixed_pow.
  split; [ cbn [pow]; now apply Fi | ].
  split; [ intros e; apply Fr | ].
  split.
  - intros e. rewrite <- (Fi 0 F0). apply Fm, pow_le. lra.
  - intros e. apply Fm. cbn [pow].
    assert (0 <= lam ^ e) by (apply pow_le; lra). nra.
Qed.

(** In the format with steps of 1/16, (1/2)^5 is a tie between 0 and one
    step and rounds to 0; the weight of a row five rows old is then 0. *)
Lemma fixed_pow_underflow : Rounded.fixed_pow 4 (1 / 2) 5 = 0.
Proof.
  unfold Rounded.fixed_pow, Rounded.fixed.
  replace ((1 / 2) ^ 5 * 2 ^ 4) with (1 / 2) by (cbn; lra).
  assert (Z0 : Zfloor (1 / 2) = 0%Z) by (apply Zfloor_eq; cbn; lra).
  unfold rint. rewrite Z0, Rminus_0_r.
  destruct (Rlt_dec (1 / 2) (1 / 2)); [ lra | ].
  cbn [Z.even]. unfold Rdiv. ring.
Qed.

Lemma weights_fixed_underflow :
  nth 0 (Rounded.weights (Rounded.fixed 4) (Rounded.fixed_pow 4) (1 / 2) 6) 0 = 0.
Proof.
  destruct (fixed_rounding 4) as (_ & _ & F0 & _ & _ & _ & Fi & _).
  unfold Rounded.weights, Rounded.raw_weights, arange_down.
  cbn [seq rev app map nth]. rewrite fixed_pow_underflow, Rmult_0_r.
  rewrite (Fi 0 F0). unfold Rdiv. rewrite Rmult_0_l. now apply Fi.
Qed.

Lemma pow_libm (lam : R) :
  0 < lam < 1 -> Rounded.libm_pow Rounded.all_reals pow lam.
Proof.
  intros Hl. unfold Rounded.libm_pow, Rounded.all_reals. repeat split.
  - intros k. apply pow_le. lra.
  - intros k. cbn [pow].
    assert (0 <= lam ^ k) by (apply pow_le; lra). nra.
Qed.

Lemma growth_nonneg (u : R) (n : nat) : 0 <= u -> 0 <= Rounded.growth u n.
Proof.
  intros Hu. unfold Rounded.growth.
  assert (1 <= (1 + u) ^ n) by (apply pow_R1_Rle; lra). lra.
Qed.

Lemma growth_succ (u : R) (n : nat) :
  Rounded.growth u (S n) = (1 + u) * Rounded.growth u n + u.
Proof. unfold Rounded.growth. cbn [pow]. ring. Qed.

Lemma np_sum_app_one (l : list R) (x : R) :
  Ewma.np_sum (l ++ [x]) = Ewma.np_sum l + x.
Proof.
  induction l as [ | a l IH]; cbn [app]; rewrite ?np_sum_cons; [ cbn; lra | ].
  rewrite IH. lra.
Qed.

Lemma np_sum_abs_nonneg (l : list R) : 0 <= Ewma.np_sum (map Rabs l).
Proof.
  apply np_sum_nonneg, Forall_forall. intros x Hx.
  apply in_map_iff in Hx. destruct Hx as (y & <- & _). apply Rabs_pos.
Qed.

Lemma Rabs_id_nonneg (l : list R) :
  Forall (fun x => 0 <= x) l -> map Rabs l = l.
Proof.
  intros H. induction H as [ | x l Hx _ IH]; [ reflexivity | ].
  cbn [map]. now rewrite IH, Rabs_pos_eq.
Qed.

Lemma pow_linear (u : R) (n : nat) : 0 <= u -> (1 + u) ^ n * (1 - INR n * u) <= 1.
Proof.
  intros Hu. induction n as [ | n IH]; [ cbn; lra | ].
  rewrite S_INR. cbn [pow].
  assert (P : 0 <= (1 + u) ^ n) by (apply pow_le; lra).
  assert (0 <= INR n) by apply pos_INR.
  assert (0 <= INR n * u * u) by (apply Rmult_le_pos; [ apply Rmult_le_pos | ]; lra).
  assert ((1 + u) ^ n * ((1 + u) * (1 - (INR n + 1) * u)) <= (1 + u) ^ n * (1 - INR n * u))
    by (apply Rmult_le_compat_l; [ exact P | nra ]).
  lra.
Qed.

(** While n·u <= 1/4, n roundings compound to at most (4/3)·n·u. *)
Lemma growth_linear (u : R) (n : nat) :
  0 <= u -> INR n * u <= 1 / 4 ->
  (1 + u) ^ n <= 4 / 3 /\ Rounded.growth u n <= 4 / 3 * (INR n * u).
Proof.
  intros Hu Hn. pose proof (pow_linear u n Hu) as L.
  assert (P : 0 <= (1 + u) ^ n) by (apply pow_le; lra).
  assert (0 <= INR n * u) by (apply Rmult_le_pos; [ apply pos_INR | lra ]).
  unfold Rounded.growth. set (p := (1 + u) ^ n) in *. set (m := INR n * u) in *.
  clearbody p m. split; nra.
Qed.

Lemma abs_le_interval (x a : R) : Rabs x <= a -> - a <= x <= a.
Proof.
  intros H. unfold Rabs in H. destruct (Rcase_abs x); lra.
Qed.

Section Rounding.

Variables (u eta : R) (F : R -> Prop) (rnd : R -> R).

Hypothesis Rd : Rounded.rounding u eta F rnd.

Lemma rnd_float (x : R) : F (rnd x).
Proof. apply Rd. Qed.

Lemma rnd_id (x : R) : F x -> rnd x = x.
Proof. apply Rd. Qed.

Lemma rnd_mono (x y : R) : x <= y -> rnd x <= rnd y.
Proof. apply Rd. Qed.

Lemma rnd_0 : rnd 0 = 0.
Proof. apply rnd_id, Rd. Qed.

Lemma rnd_nonneg (x : R) : 0 <= x -> 0 <= rnd x.
Proof. intros H. rewrite <- rnd_0. now apply rnd_mono. Qed.

Lemma rnd_nonpos (x : R) : x <= 0 -> rnd x <= 0.
Proof. intros H. rewrite <- rnd_0. now apply rnd_mono. Qed.

Lemma rnd_sum_err (x y : R) :
  F x -> F y -> Rabs (rnd (x + y) - (x + y)) <= u * Rabs (x + y).
Proof. apply Rd. Qed.

Lemma rnd_err (x : R) : Rabs (rnd x - x) <= u * Rabs x + eta.
Proof. apply Rd. Qed.

Lemma u_range : 0 <= u < 1.
Proof. apply Rd. Qed.

Lemma eta_nonneg : 0 <= eta.
Proof. apply Rd. Qed.

(** *** Sums *)

Lemma np_sum_snoc (l : list R) (x : R) :
  Rounded.np_sum rnd (l ++ [x]) = rnd (Rounded.np_sum rnd l + x).
Proof. unfold Rounded.np_sum. now rewrite fold_left_app. Qed.

Lemma np_sum_float (l : list R) : F (Rounded.np_sum rnd l).
Proof.
  destruct l as [ | a l] using rev_ind; [ apply Rd | ].
  rewrite np_sum_snoc. apply rnd_float.
Qed.

Lemma np_sum_rounded_nonneg (l : list R) :
  Forall (fun x => 0 <= x) l -> 0 <= Rounded.np_sum rnd l.
Proof.
  induction l as [ | a l IH] using rev_ind; intros H; [ cbn; lra | ].
  rewrite np_sum_snoc. apply Forall_app in H. destruct H as [Hl Ha].
  inversion Ha; subst. apply rnd_nonneg. specialize (IH Hl). lra.
Qed.

(** A sum of non-negative floats is not below any of its terms. *)
Lemma np_sum_ge_term (l : list R) (x : R) :
  Forall (fun y => 0 <= y) l -> Forall F l -> In x l -> x <= Rounded.np_sum rnd l.
Proof.
  induction l as [ | a l IH] using rev_ind; intros H Fl Hx; [ destruct Hx | ].
  rewrite np_sum_snoc. apply Forall_app in H. destruct H as [Hl Ha].
  apply Forall_app in Fl. destruct Fl as [Fl Fa].
  inversion Ha; subst. inversion Fa; subst.
  pose proof (np_sum_rounded_nonneg l Hl) as Hs.
  apply in_app_or in Hx. destruct Hx as [Hx | [<- | []]].
  - apply Rle_trans with (Rounded.np_sum rnd l); [ now apply IH | ].
    rewrite <- (rnd_id (Rounded.np_sum rnd l)) at 1 by apply np_sum_float.
    apply rnd_mono. lra.
  - rewrite <- (rnd_id a) at 1 by assumption. apply rnd_mono. lra.
Qed.

(** The rounded sum of n floats against their exact sum. *)
Lemma np_sum_err (l : list R) :
  Forall F l ->
  Rabs (Rounded.np_sum rnd l - Ewma.np_sum l)
  <= Rounded.growth u (length l) * Ewma.np_sum (map Rabs l).
Proof.
  pose proof u_range as Hu.
  induction l as [ | a l IH] using rev_ind; intros Fl.
  - cbn. unfold Rounded.growth. cbn. rewrite Rminus_diag, Rabs_R0. lra.
  - apply Forall_app in Fl. destruct Fl as [Fl Fa]. inversion Fa; subst.
    specialize (IH Fl).
    rewrite np_sum_snoc, map_app, length_app. cbn [map length].
    rewrite !np_sum_app_one.
    replace (length l + 1)%nat with (S (length l)) by lia.
    rewrite growth_succ.
    pose proof (rnd_sum_err (Rounded.np_sum rnd l) a (np_sum_float l) ltac:(assumption)) as E.
    pose proof (growth_nonneg u (length l) (proj1 Hu)) as G.
    pose proof (np_sum_abs_nonneg l) as A.
    set (g := Rounded.growth u (length l)) in *.
    set (s := Rounded.np_sum rnd l) in *.
    set (e := Ewma.np_sum l) in *.
    set (m := Ewma.np_sum (map Rabs l)) in *.
    set (r := rnd (s + a)) in *.
    assert (B : Rabs (s + a) <= m + Rabs a + g * m).
    { replace (s + a) with ((s - e) + (e + a)) by ring.
      eapply Rle_trans; [ apply Rabs_triang | ].
      assert (Rabs (e + a) <= m + Rabs a).
      { eapply Rle_trans; [ apply Rabs_triang | ].
        assert (Rabs e <= m) by (subst e m; clear; induction l as [ | b l IH];
          [ cbn; rewrite Rabs_R0; lra
          | cbn [map]; rewrite !np_sum_cons;
            eapply Rle_trans; [ apply Rabs_triang | lra ] ]).
        lra. }
      lra. }
    replace (r - (e + a)) with ((r - (s + a)) + (s - e)) by ring.
    eapply Rle_trans; [ apply Rabs_triang | ].
    pose proof (Rabs_pos a).
    assert (u * Rabs (s + a) <= u * (m + Rabs a + g * m))
      by (apply Rmult_le_compat_l; lra).
    assert (0 <= g * Rabs a) by (apply Rmult_le_pos; lra).
    assert (0 <= u * (g * Rabs a)) by (apply Rmult_le_pos; lra).
    clearbody g s e m r. nra.
Qed.

(** A sum of rounded quotients [rnd (x / s)] against the exact quotient of
    the sum. *)
Lemma np_sum_quotients (l : list R) (s : R) :
  0 < s -> Forall (fun x => 0 <= x) l ->
  (1 - u) * (Ewma.np_sum l / s) - INR (length l) * eta
  <= Ewma.np_sum (map (fun x => rnd (x / s)) l)
  <= (1 + u) * (Ewma.np_sum l / s) + INR (length l) * eta.
Proof.
  intros Hs H. induction H as [ | x l Hx _ IH].
  - cbn. lra.
  - cbn [map length]. rewrite !np_sum_cons, S_INR.
    pose proof (rnd_err (x / s)) as E. apply abs_le_interval in E.
    assert (Q : 0 <= x / s) by (apply Rmult_le_pos; [ lra | left; now apply Rinv_0_lt_compat ]).
    rewrite Rabs_pos_eq in E by exact Q.
    unfold Rdiv in *. rewrite Rmult_plus_distr_r.
    set (q := x * / s) in *. set (t := Ewma.np_sum l * / s) in *.
    clearbody q t. lra.
Qed.

(** *** The weights *)

Section Weights.

Variables (npy_pow : R -> nat -> R) (lam : R).

Hypothesis Pw : Rounded.libm_pow F npy_pow lam.

Hypothesis Fl : F lam.

Hypothesis Hl : 0 < lam < 1.

Lemma one_minus_lam : F (rnd (1 - lam)) /\ 0 < rnd (1 - lam).
Proof.
  split; [ apply rnd_float | ].
  pose proof u_range as Hu.
  assert (Fm : F (- lam)) by (now apply Rd).
  assert (F1 : F 1) by apply Rd.
  pose proof (rnd_sum_err 1 (- lam) F1 Fm) as E.
  apply abs_le_interval in E. unfold Rminus.
  rewrite Rabs_pos_eq in E by lra.
  assert (0 < (1 - u) * (1 + - lam)) by (apply Rmult_lt_0_compat; lra).
  lra.
Qed.

Lemma pow_le_1 (k : nat) : npy_pow lam k <= 1.
Proof.
  destruct Pw as (P0 & _ & _ & Pa).
  induction k as [ | k IH]; [ rewrite P0; lra | ].
  specialize (Pa k). lra.
Qed.

Lemma pow_antitone (j k : nat) : (j <= k)%nat -> npy_pow lam k <= npy_pow lam j.
Proof.
  destruct Pw as (_ & _ & _ & Pa).
  induction 1 as [ | k _ IH]; [ lra | ]. specialize (Pa k). lra.
Qed.

Lemma raw_weight_antitone (j k : nat) :
  (j <= k)%nat ->
  rnd (rnd (1 - lam) * npy_pow lam k) <= rnd (rnd (1 - lam) * npy_pow lam j).
Proof.
  intros H. apply rnd_mono. apply Rmult_le_compat_l.
  - left. apply one_minus_lam.
  - now apply pow_antitone.
Qed.

Lemma length_raw_weights_rounded (T : nat) :
  length (Rounded.raw_weights rnd npy_pow lam T) = T.
Proof.
  unfold Rounded.raw_weights, arange_down.
  now rewrite length_map, length_rev, length_seq.
Qed.

Lemma nth_raw_weights_rounded (T t : nat) :
  (t < T)%nat ->
  nth t (Rounded.raw_weights rnd npy_pow lam T) 0
  = rnd (rnd (1 - lam) * npy_pow lam (T - 1 - t)).
Proof.
  intros H. unfold Rounded.raw_weights.
  rewrite (nth_indep _ 0 (rnd (rnd (1 - lam) * npy_pow lam 0)))
    by (unfold arange_down; now rewrite length_map, length_rev, length_seq).
  rewrite (map_nth (fun k => rnd (rnd (1 - lam) * npy_pow lam k))).
  now rewrite nth_arange_down.
Qed.

Lemma raw_weights_rounded_nonneg (T : nat) :
  Forall (fun x => 0 <= x) (Rounded.raw_weights rnd npy_pow lam T).
Proof.
  apply Forall_forall. intros x Hx. apply in_map_iff in Hx.
  destruct Hx as (k & <- & _). apply rnd_nonneg, Rmult_le_pos.
  - left. apply one_minus_lam.
  - apply Pw.
Qed.

Lemma raw_weights_rounded_float (T : nat) :
  Forall F (Rounded.raw_weights rnd npy_pow lam T).
Proof.
  apply Forall_forall. intros x Hx. apply in_map_iff in Hx.
  destruct Hx as (k & <- & _). apply rnd_float.
Qed.

(** The newest row's weight before normalization is [1 - λ] rounded, and
    the sum the weights are divided by is not below it. *)
Lemma raw_weights_sum_rounded_pos (T : nat) :
  (1 <= T)%nat ->
  rnd (1 - lam) <= Rounded.np_sum rnd (Rounded.raw_weights rnd npy_pow lam T).
Proof.
  intros HT. apply np_sum_ge_term.
  - apply raw_weights_rounded_nonneg.
  - apply raw_weights_rounded_float.
  - apply in_map_iff. exists 0%nat. split.
    + destruct Pw as (P0 & _). rewrite P0, Rmult_1_r.
      apply rnd_id, rnd_float.
    + unfold arange_down. apply -> in_rev. apply in_seq. lia.
Qed.

Lemma weights_rounded_nonneg (T : nat) :
  (1 <= T)%nat -> Forall (fun x => 0 <= x) (Rounded.weights rnd npy_pow lam T).
Proof.
  intros HT. pose proof (raw_weights_sum_rounded_pos T HT) as Hs.
  pose proof one_minus_lam as [_ Ha].
  unfold Rounded.weights. apply Forall_forall. intros x Hx.
  apply in_map_iff in Hx. destruct Hx as (y & <- & Hy).
  pose proof (raw_weights_rounded_nonneg T) as P.
  rewrite Forall_forall in P. specialize (P y Hy).
  apply rnd_nonneg, Rmult_le_pos; [ exact P | ].
  left. apply Rinv_0_lt_compat. lra.
Qed.

Lemma nth_weights_rounded (T t : nat) :
  (t < T)%nat ->
  nth t (Rounded.weights rnd npy_pow lam T) 0
  = rnd (rnd (rnd (1 - lam) * npy_pow lam (T - 1 - t))
         / Rounded.np_sum rnd (Rounded.raw_weights rnd npy_pow lam T)).
Proof.
  intros H. unfold Rounded.weights.
  set (s := Rounded.np_sum rnd (Rounded.raw_weights rnd npy_pow lam T)).
  rewrite (nth_indep _ 0 (rnd (0 / s)))
    by (now rewrite length_map, length_raw_weights_rounded).
  rewrite (map_nth (fun x => rnd (x / s))).
  now rewrite nth_raw_weights_rounded.
Qed.

Lemma weights_rounded_monotone (T t : nat) :
  (S t < T)%nat ->
  nth t (Rounded.weights rnd npy_pow lam T) 0
  <= nth (S t) (Rounded.weights rnd npy_pow lam T) 0.
Proof.
  intros H. rewrite !nth_weights_rounded by lia.
  pose proof (raw_weights_sum_rounded_pos T ltac:(lia)) as Hs.
  pose proof one_minus_lam as [_ Ha].
  apply rnd_mono. apply Rmult_le_compat_r.
  - left. apply Rinv_0_lt_compat. lra.
  - apply raw_weight_antitone. lia.
Qed.

(** The rounded sum of the normalized weights. *)
Lemma weights_rounded_sum (T : nat) :
  (1 <= T)%nat -> Rounded.growth u T < 1 ->
  (1 - Rounded.growth u T) * ((1 - u) / (1 + Rounded.growth u T) - INR T * eta)
  <= Rounded.np_sum rnd (Rounded.weights rnd npy_pow lam T)
  <= (1 + Rounded.growth u T) * ((1 + u) / (1 - Rounded.growth u T) + INR T * eta).
Proof.
  intros HT Hg.
  pose proof u_range as Hu. pose proof eta_nonneg as He.
  pose proof (growth_nonneg u T (proj1 Hu)) as G.
  pose proof (raw_weights_sum_rounded_pos T HT) as Hs.
  pose proof one_minus_lam as [_ Ha].
  pose proof (raw_weights_rounded_nonneg T) as Rn.
  pose proof (raw_weights_rounded_float T) as Rf.
  pose proof (weights_rounded_nonneg T HT) as Wn.
  (* the divisor against the exact sum of the raw weights *)
  pose proof (np_sum_err _ Rf) as E1.
  rewrite (Rabs_id_nonneg _ Rn), length_raw_weights_rounded in E1.
  apply abs_le_interval in E1.
  (* the quotients *)
  assert (Hs0 : 0 < Rounded.np_sum rnd (Rounded.raw_weights rnd npy_pow lam T)) by lra.
  pose proof (np_sum_quotients _ _ Hs0 Rn) as Q.
  rewrite length_raw_weights_rounded in Q.
  (* the final sum *)
  assert (Wf : Forall F (Rounded.weights rnd npy_pow lam T)).
  { unfold Rounded.weights. apply Forall_forall. intros x Hx.
    apply in_map_iff in Hx. destruct Hx as (y & <- & _). apply rnd_float. }
  pose proof (np_sum_err _ Wf) as E2.
  rewrite (Rabs_id_nonneg _ Wn) in E2.
  replace (length (Rounded.weights rnd npy_pow lam T)) with T in E2
    by (unfold Rounded.weights; now rewrite length_map, length_raw_weights_rounded).
  apply abs_le_interval in E2.
  unfold Rounded.weights in E2, Wn |- *. cbv zeta in E2, Wn |- *.
  set (g := Rounded.growth u T) in *.
  set (s := Rounded.np_sum rnd (Rounded.raw_weights rnd npy_pow lam T)) in *.
  set (r := Ewma.np_sum (Rounded.raw_weights rnd npy_pow lam T)) in *.
  set (W := Ewma.np_sum (map (fun x => rnd (x / s)) (Rounded.raw_weights rnd npy_pow lam T))) in *.
  set (S := Rounded.np_sum rnd (map (fun x => rnd (x / s)) (Rounded.raw_weights rnd npy_pow lam T))) in *.
  assert (Hr : 0 < r) by (clearbody g s r; nra).
  assert (Q1 : / (1 + g) <= r / s).
  { apply Rmult_le_reg_r with (1 + g); [ lra | ].
    rewrite Rinv_l by lra. apply Rmult_le_reg_r with s; [ lra | ].
    unfold Rdiv. replace (r * / s * (1 + g) * s) with (r * (1 + g) * (s * / s)) by ring.
    rewrite Rinv_r by lra. clearbody g s r. lra. }
  assert (Q2 : r / s <= / (1 - g)).
  { apply Rmult_le_reg_r with (1 - g); [ lra | ].
    rewrite Rinv_l by lra. apply Rmult_le_reg_r with s; [ lra | ].
    unfold Rdiv. replace (r * / s * (1 - g) * s) with (r * (1 - g) * (s * / s)) by ring.
    rewrite Rinv_r by lra. clearbody g s r. lra. }
  assert (W1 : (1 - u) / (1 + g) - INR T * eta <= W).
  { assert ((1 - u) * / (1 + g) <= (1 - u) * (r / s))
      by (apply Rmult_le_compat_l; lra).
    unfold Rdiv in *. lra. }
  assert (W2 : W <= (1 + u) / (1 - g) + INR T * eta).
  { assert ((1 + u) * (r / s) <= (1 + u) * / (1 - g))
      by (apply Rmult_le_compat_l; lra).
    unfold Rdiv in *. lra. }
  assert (W0 : 0 <= W).
  { subst W. apply np_sum_nonneg. exact Wn. }
  split.
  - apply Rle_trans with ((1 - g) * W); [ apply Rmult_le_compat_l; lra | ].
    clearbody g S W. lra.
  - apply Rle_trans with ((1 + g) * W); [ clearbody g S W; lra | ].
    apply Rmult_le_compat_l; lra.
Qed.

Lemma weights_rounded_sum_linear (T : nat) :
  (1 <= T)%nat -> INR T * u <= 1 / 4 ->
  Rabs (Rounded.np_sum rnd (Rounded.weights rnd npy_pow lam T) - 1)
  <= Rounded.sum_tolerance u eta T.
Proof.
  intros HT Hm. pose proof u_range as Hu. pose proof eta_nonneg as He.
  destruct (growth_linear u T (proj1 Hu) Hm) as [_ G].
  pose proof (growth_nonneg u T (proj1 Hu)) as G0.
  assert (T1 : 1 <= INR T) by (change 1 with (INR 1); apply le_INR; lia).
  assert (Hg : Rounded.growth u T < 1) by lra.
  pose proof (weights_rounded_sum T HT Hg) as [Lo Hi].
  unfold Rounded.sum_tolerance.
  set (g := Rounded.growth u T) in *.
  set (S := Rounded.np_sum rnd (Rounded.weights rnd npy_pow lam T)) in *.
  set (n := INR T) in *.
  assert (Um : u <= n * u) by nra.
  assert (Ne : 0 <= n * eta) by (apply Rmult_le_pos; lra).
  unfold Rdiv in Lo, Hi.
  assert (Q1 : / (1 + g) * (1 + g) = 1) by (apply Rinv_l; lra).
  assert (Q2 : / (1 - g) * (1 - g) = 1) by (apply Rinv_l; lra).
  assert (P1 : 0 < / (1 + g)) by (apply Rinv_0_lt_compat; lra).
  assert (P2 : 0 < / (1 - g)) by (apply Rinv_0_lt_compat; lra).
  set (q1 := / (1 + g)) in *. set (q2 := / (1 - g)) in *.
  assert (B2 : q2 <= 3 / 2) by (clearbody g S n q1 q2; nra).
  assert (B1 : q1 <= 1) by (clearbody g S n q1 q2; nra).
  apply Rabs_le.
  assert (GU : 0 <= g * u) by (apply Rmult_le_pos; lra).
  assert (GU' : g * u <= g * (1 / 4)) by (apply Rmult_le_compat_l; nra).
  clearbody g S n q1 q2. split.
  - (* lower *)
    assert ((1 - g) * (1 - u) * q1 = 1 - q1 * (2 * g + u - g * u)) by nra.
    assert (q1 * (2 * g + u - g * u) <= 2 * g + u) by nra.
    nra.
  - (* upper *)
    assert ((1 + g) * (1 + u) * q2 = 1 + q2 * (2 * g + u + g * u)) by nra.
    assert (q2 * (2 * g + u + g * u) <= 3 / 2 * (2 * g + u + g * u)) by nra.
    nra.
Qed.

Lemma np_sum_rounded_zero (l : list R) :
  Forall (fun x => x = 0) l -> Rounded.np_sum rnd l = 0.
Proof.
  induction l as [ | a l IH] using rev_ind; intros H; [ reflexivity | ].
  apply Forall_app in H. destruct H as [Hz Ha]. inversion Ha; subst.
  rewrite np_sum_snoc, IH by exact Hz. rewrite Rplus_0_r. apply rnd_0.
Qed.

Lemma weights_rounded_le_newest (T t : nat) :
  (t < T)%nat ->
  nth t (Rounded.weights rnd npy_pow lam T) 0
  <= nth (T - 1) (Rounded.weights rnd npy_pow lam T) 0.
Proof.
  intros H. rewrite !nth_weights_rounded by lia.
  pose proof (raw_weights_sum_rounded_pos T ltac:(lia)) as Hs.
  pose proof one_minus_lam as [_ Ha].
  apply rnd_mono. apply Rmult_le_compat_r.
  - left. apply Rinv_0_lt_compat. lra.
  - apply raw_weight_antitone. lia.
Qed.

(** While the weights still sum to more than 0, the newest row's weight
    is positive. *)
Lemma weights_rounded_newest_pos (T : nat) :
  (1 <= T)%nat -> INR T * u <= 1 / 4 -> Rounded.sum_tolerance u eta T < 1 ->
  0 < nth (T - 1) (Rounded.weights rnd npy_pow lam T) 0.
Proof.
  intros HT Hm Ht.
  destruct (Rlt_dec 0 (nth (T - 1) (Rounded.weights rnd npy_pow lam T) 0))
    as [Pos | NPos]; [ exact Pos | exfalso ].
  pose proof (weights_rounded_nonneg T HT) as Wn.
  assert (Z : Forall (fun x => x = 0) (Rounded.weights rnd npy_pow lam T)).
  { apply Forall_forall. intros x Hx.
    destruct (In_nth _ _ 0 Hx) as (t & Lt & <-).
    replace (length (Rounded.weights rnd npy_pow lam T)) with T in Lt
      by (unfold Rounded.weights; now rewrite length_map, length_raw_weights_rounded).
    pose proof (weights_rounded_le_newest T t Lt).
    rewrite Forall_forall in Wn.
    assert (0 <= nth t (Rounded.weights rnd npy_pow lam T) 0).
    { apply Wn, nth_In.
      unfold Rounded.weights. now rewrite length_map, length_raw_weights_rounded. }
    lra. }
  pose proof (weights_rounded_sum_linear T HT Hm) as B.
  rewrite (np_sum_rounded_zero _ Z) in B.
  apply abs_le_interval in B. lra.
Qed.

End Weights.

(** *** The matrix *)

Lemma column_scale_rows_rounded (rets : list (list R)) (w : list R) (i : nat) :
  column i (Rounded.scale_rows rnd rets w)
  = map (fun rw => rnd (nth i (fst rw) 0 * snd rw)) (combine rets w).
Proof.
  unfold column, Rounded.scale_rows. rewrite map_map. apply map_ext. intros [row wt].
  cbn [fst snd]. apply (nth_map_R (fun x => rnd (x * wt))).
  rewrite Rmult_0_l. apply rnd_0.
Qed.

Lemma dot_columns_rounded (rets : list (list R)) (w : list R) (i j : nat) :
  Rounded.dot rnd (column i (Rounded.scale_rows rnd rets w)) (column j rets)
  = Rounded.ewma_entry rnd rets w i j.
Proof.
  rewrite column_scale_rows_rounded. unfold Rounded.ewma_entry, column, Rounded.dot.
  f_equal. revert w. induction rets as [ | row rets IH]; intros [ | wt w]; try reflexivity.
  cbn [combine map fst snd]. now rewrite IH.
Qed.

Lemma H_ewma_rounded_table (N : nat) (rets : list (list R)) (w : list R) :
  Rounded.H_ewma rnd N rets w
  = map (fun i => map (fun j => Rounded.ewma_entry rnd rets w i j) (seq 0 N)) (seq 0 N).
Proof.
  unfold Rounded.H_ewma, Rounded.matmul, transpose. rewrite map_map.
  apply map_ext. intros i. apply map_ext. intros j. apply dot_columns_rounded.
Qed.

Lemma H_ewma_rounded_entry (N : nat) (rets : list (list R)) (w : list R) (i j : nat) :
  (i < N)%nat -> (j < N)%nat ->
  entry (Rounded.H_ewma rnd N rets w) i j = Rounded.ewma_entry rnd rets w i j.
Proof.
  intros Hi Hj. unfold entry. rewrite H_ewma_rounded_table.
  rewrite (nth_map_seq _ N i []) by exact Hi.
  now rewrite (nth_map_seq _ N j 0) by exact Hj.
Qed.

Lemma H_ewma_rounded_shape (N : nat) (rets : list (list R)) (w : list R) :
  has_shape N N (Rounded.H_ewma rnd N rets w).
Proof.
  rewrite H_ewma_rounded_table. split; [ now rewrite length_map, length_seq | ].
  apply Forall_forall. intros row Hr. apply in_map_iff in Hr.
  destruct Hr as (i & <- & _). now rewrite length_map, length_seq.
Qed.

(** A diagonal term [(x·w)·x] keeps its sign through both roundings. *)
Lemma diagonal_term_nonneg (x wt : R) : 0 <= wt -> 0 <= rnd (rnd (x * wt) * x).
Proof.
  intros Hw. apply rnd_nonneg.
  destruct (Rle_dec 0 x) as [Hx | Hx].
  - apply Rmult_le_pos; [ | exact Hx ]. apply rnd_nonneg. now apply Rmult_le_pos.
  - assert (rnd (x * wt) <= 0) by (apply rnd_nonpos; nra). nra.
Qed.

Lemma ewma_entry_rounded_diagonal (rets : list (list R)) (w : list R) (i : nat) :
  Forall (fun x => 0 <= x) w -> 0 <= Rounded.ewma_entry rnd rets w i i.
Proof.
  intros Hw. unfold Rounded.ewma_entry. apply np_sum_rounded_nonneg.
  apply Forall_forall. intros y Hy. apply in_map_iff in Hy.
  destruct Hy as ([row wt] & <- & Hin). cbn [fst snd].
  apply diagonal_term_nonneg. apply in_combine_r in Hin.
  rewrite Forall_forall in Hw. now apply Hw.
Qed.

(** One term [(x_i·w)·x_j] against the exact product. *)
Lemma term_err (xi xj wt : R) :
  0 <= wt ->
  Rabs (rnd (rnd (xi * wt) * xj) - xi * wt * xj)
  <= Rounded.growth u 2 * (Rabs xi * wt * Rabs xj) + ((1 + u) * Rabs xj + 1) * eta.
Proof.
  intros Hw. pose proof u_range as Hu. pose proof eta_nonneg as He.
  pose proof (rnd_err (xi * wt)) as E1.
  pose proof (rnd_err (rnd (xi * wt) * xj)) as E2.
  rewrite Rabs_mult in E2. rewrite Rabs_mult, (Rabs_pos_eq wt Hw) in E1.
  pose proof (Rabs_pos xi) as Pi. pose proof (Rabs_pos xj) as Pj.
  set (p := rnd (xi * wt)) in *.
  assert (Bp : Rabs p <= Rabs xi * wt + (u * (Rabs xi * wt) + eta)).
  { replace p with ((p - xi * wt) + xi * wt) by ring.
    eapply Rle_trans; [ apply Rabs_triang | ].
    rewrite (Rabs_mult xi wt), (Rabs_pos_eq wt Hw). lra. }
  replace (rnd (p * xj) - xi * wt * xj)
    with ((rnd (p * xj) - p * xj) + (p - xi * wt) * xj) by ring.
  eapply Rle_trans; [ apply Rabs_triang | ].
  rewrite (Rabs_mult (p - xi * wt) xj).
  set (d := Rabs (p - xi * wt)) in *. set (ap := Rabs p) in *.
  set (ai := Rabs xi) in *. set (aj := Rabs xj) in *.
  set (e2 := Rabs (rnd (p * xj) - p * xj)) in *.
  unfold Rounded.growth. cbn [pow].
  assert (0 <= ai * wt) by (apply Rmult_le_pos; lra).
  assert (T1 : ap * aj <= (ai * wt + (u * (ai * wt) + eta)) * aj)
    by (apply Rmult_le_compat_r; lra).
  assert (T2 : d * aj <= (u * (ai * wt) + eta) * aj)
    by (apply Rmult_le_compat_r; lra).
  assert (T3 : u * (ap * aj) <= u * ((ai * wt + (u * (ai * wt) + eta)) * aj))
    by (apply Rmult_le_compat_l; lra).
  clearbody p d ap ai aj e2. nra.
Qed.

Lemma np_sum_map_le {A : Type} (f g : A -> R) (l : list A) :
  (forall a, In a l -> f a <= g a) -> Ewma.np_sum (map f l) <= Ewma.np_sum (map g l).
Proof.
  induction l as [ | a l IH]; intros H; [ cbn; lra | ].
  cbn [map]. rewrite !np_sum_cons.
  assert (f a <= g a) by (apply H; now left).
  assert (Ewma.np_sum (map f l) <= Ewma.np_sum (map g l))
    by (apply IH; intros b Hb; apply H; now right).
  lra.
Qed.

Lemma np_sum_map_abs_diff {A : Type} (f g : A -> R) (l : list A) :
  Rabs (Ewma.np_sum (map f l) - Ewma.np_sum (map g l))
  <= Ewma.np_sum (map (fun a => Rabs (f a - g a)) l).
Proof.
  induction l as [ | a l IH]; [ cbn; rewrite Rminus_diag, Rabs_R0; lra | ].
  cbn [map]. rewrite !np_sum_cons.
  replace (f a + Ewma.np_sum (map f l) - (g a + Ewma.np_sum (map g l)))
    with ((f a - g a) + (Ewma.np_sum (map f l) - Ewma.np_sum (map g l))) by ring.
  eapply Rle_trans; [ apply Rabs_triang | ]. lra.
Qed.

Lemma np_sum_map_const {A : Type} (c : R) (l : list A) :
  Ewma.np_sum (map (fun _ => c) l) = INR (length l) * c.
Proof.
  induction l as [ | a l IH]; [ cbn; lra | ].
  cbn [map length]. rewrite np_sum_cons, IH, S_INR. ring.
Qed.

(** Entry (i, j) under rounding against the exact weighted sum. *)
Lemma ewma_entry_rounded_err (rets : list (list R)) (w : list R) (i j : nat) :
  Forall (fun x => 0 <= x) w ->
  Rabs (Rounded.ewma_entry rnd rets w i j - Ewma.ewma_entry rets w i j)
  <= Rounded.growth u (length (combine rets w) + 2) * Rounded.abs_entry rets w i j
     + (1 + u) ^ length (combine rets w)
       * ((1 + u) * Rounded.abs_column rets w j + INR (length (combine rets w))) * eta.
Proof.
  intros Hw. pose proof u_range as Hu. pose proof eta_nonneg as He.
  unfold Rounded.ewma_entry, Ewma.ewma_entry, Rounded.abs_entry, Rounded.abs_column.
  set (L := combine rets w).
  set (y := fun rw : list R * R => rnd (rnd (nth i (fst rw) 0 * snd rw) * nth j (fst rw) 0)).
  set (e := fun rw : list R * R => nth i (fst rw) 0 * snd rw * nth j (fst rw) 0).
  set (a := fun rw : list R * R => Rabs (nth i (fst rw) 0) * snd rw * Rabs (nth j (fst rw) 0)).
  set (x := fun rw : list R * R => Rabs (nth j (fst rw) 0)).
  set (d := fun rw : list R * R => Rounded.growth u 2 * a rw + ((1 + u) * x rw + 1) * eta).
  assert (Hin : forall rw, In rw L -> 0 <= snd rw).
  { intros [row wt] H. apply in_combine_r in H. rewrite Forall_forall in Hw.
    now apply Hw. }
  assert (D : forall rw, In rw L -> Rabs (y rw - e rw) <= d rw).
  { intros rw H. apply term_err. now apply Hin. }
  assert (Ea : forall rw, In rw L -> Rabs (e rw) = a rw).
  { intros rw H. unfold e, a. rewrite !Rabs_mult, (Rabs_pos_eq (snd rw)); auto. }
  (* the exact sums of the bounds *)
  assert (Sd : Ewma.np_sum (map d L)
               = Rounded.growth u 2 * Ewma.np_sum (map a L)
                 + ((1 + u) * Ewma.np_sum (map x L) + INR (length L)) * eta).
  { unfold d.
    rewrite (np_sum_map_add (fun rw => Rounded.growth u 2 * a rw)
                            (fun rw => ((1 + u) * x rw + 1) * eta)).
    rewrite np_sum_map_scal_l, np_sum_map_scal_r.
    rewrite (np_sum_map_add (fun rw => (1 + u) * x rw) (fun _ => 1)).
    rewrite np_sum_map_scal_l, np_sum_map_const. ring. }
  (* the terms *)
  assert (Fy : Forall F (map y L)).
  { apply Forall_forall. intros z Hz. apply in_map_iff in Hz.
    destruct Hz as (rw & <- & _). apply rnd_float. }
  pose proof (np_sum_err _ Fy) as E. rewrite length_map, map_map in E.
  assert (Y : Ewma.np_sum (map (fun rw => Rabs (y rw)) L)
              <= Ewma.np_sum (map a L) + Ewma.np_sum (map d L)).
  { rewrite <- np_sum_map_add. apply np_sum_map_le. intros rw H.
    specialize (D rw H). rewrite <- (Ea rw H).
    replace (y rw) with ((y rw - e rw) + e rw) at 1 by ring.
    eapply Rle_trans; [ apply Rabs_triang | ]. lra. }
  assert (X : Rabs (Ewma.np_sum (map y L) - Ewma.np_sum (map e L))
              <= Ewma.np_sum (map d L)).
  { eapply Rle_trans; [ apply np_sum_map_abs_diff | ]. now apply np_sum_map_le. }
  replace (Rounded.np_sum rnd (map y L) - Ewma.np_sum (map e L))
    with ((Rounded.np_sum rnd (map y L) - Ewma.np_sum (map y L))
          + (Ewma.np_sum (map y L) - Ewma.np_sum (map e L))) by ring.
  eapply Rle_trans; [ apply Rabs_triang | ].
  pose proof (growth_nonneg u (length L) (proj1 Hu)) as G.
  assert (A0 : 0 <= Ewma.np_sum (map a L)).
  { apply np_sum_nonneg, Forall_forall. intros z Hz. apply in_map_iff in Hz.
    destruct Hz as (rw & <- & H). rewrite <- (Ea rw H). apply Rabs_pos. }
  assert (X0 : 0 <= Ewma.np_sum (map x L)).
  { apply np_sum_nonneg, Forall_forall. intros z Hz. apply in_map_iff in Hz.
    destruct Hz as (rw & <- & H). apply Rabs_pos. }
  assert (G2 : Rounded.growth u (length L + 2)
               = (1 + Rounded.growth u (length L)) * (1 + Rounded.growth u 2) - 1).
  { unfold Rounded.growth. rewrite pow_add. ring. }
  assert (G1 : (1 + u) ^ length L = 1 + Rounded.growth u (length L))
    by (unfold Rounded.growth; ring).
  rewrite G2, G1. rewrite Sd in Y, X.
  assert (M : Rounded.growth u (length L) * Ewma.np_sum (map (fun rw => Rabs (y rw)) L)
              <= Rounded.growth u (length L)
                 * (Ewma.np_sum (map a L)
                    + (Rounded.growth u 2 * Ewma.np_sum (map a L)
                       + ((1 + u) * Ewma.np_sum (map x L) + INR (length L)) * eta)))
    by (apply Rmult_le_compat_l; lra).
  set (g := Rounded.growth u (length L)) in *.
  set (g2 := Rounded.growth u 2) in *.
  set (sa := Ewma.np_sum (map a L)) in *.
  set (sx := Ewma.np_sum (map x L)) in *.
  set (sy := Ewma.np_sum (map (fun rw => Rabs (y rw)) L)) in *.
  set (n := INR (length L)) in *.
  set (e1 := Rabs (Rounded.np_sum rnd (map y L) - Ewma.np_sum (map y L))) in *.
  set (e2 := Rabs (Ewma.np_sum (map y L) - Ewma.np_sum (map e L))) in *.
  clearbody g g2 sa sx sy n e1 e2. nra.
Qed.

Lemma ewma_entry_rounded_linear (T : nat) (rets : list (list R)) (w : list R) (i j : nat) :
  length rets = T -> length w = T -> Forall (fun x => 0 <= x) w ->
  INR (T + 2) * u <= 1 / 4 ->
  Rabs (Rounded.ewma_entry rnd rets w i j - Ewma.ewma_entry rets w i j)
  <= Rounded.entry_tolerance u eta T rets w i j.
Proof.
  intros Lr Lw Hw Hm. pose proof u_range as Hu. pose proof eta_nonneg as He.
  pose proof (ewma_entry_rounded_err rets w i j Hw) as E.
  replace (length (combine rets w)) with T in E by (rewrite length_combine; lia).
  destruct (growth_linear u (T + 2) (proj1 Hu) Hm) as [P G].
  assert (PT : (1 + u) ^ T <= 4 / 3).
  { apply Rle_trans with ((1 + u) ^ (T + 2)); [ | exact P ].
    apply Rle_pow; [ lra | lia ]. }
  assert (PT0 : 0 <= (1 + u) ^ T) by (apply pow_le; lra).
  assert (A0 : 0 <= Rounded.abs_entry rets w i j).
  { unfold Rounded.abs_entry. apply np_sum_nonneg, Forall_forall. intros z Hz.
    apply in_map_iff in Hz. destruct Hz as ([row wt] & <- & H). cbn [fst snd].
    apply in_combine_r in H. rewrite Forall_forall in Hw. specialize (Hw wt H).
    apply Rmult_le_pos; [ apply Rmult_le_pos | ]; auto using Rabs_pos. }
  assert (X0 : 0 <= Rounded.abs_column rets w j).
  { unfold Rounded.abs_column. apply np_sum_nonneg, Forall_forall. intros z Hz.
    apply in_map_iff in Hz. destruct Hz as (rw & <- & _). apply Rabs_pos. }
  assert (N0 : 0 <= INR T) by apply pos_INR.
  assert (U4 : u <= 1 / 4).
  { assert (1 <= INR (T + 2)) by (change 1 with (INR 1); apply le_INR; lia). nra. }
  eapply Rle_trans; [ exact E | ]. unfold Rounded.entry_tolerance.
  set (g := Rounded.growth u (T + 2)) in *. set (p := (1 + u) ^ T) in *.
  set (a := Rounded.abs_entry rets w i j) in *.
  set (x := Rounded.abs_column rets w j) in *.
  set (n := INR T) in *. set (m := INR (T + 2) * u) in *.
  replace (2 * INR (T + 2) * u) with (2 * m) by (subst m; ring).
  assert (M0 : 0 <= m) by (apply Rmult_le_pos; [ apply pos_INR | lra ]).
  assert (g * a <= 2 * m * a) by (apply Rmult_le_compat_r; lra).
  assert (K : p * ((1 + u) * x + n) <= 2 * (x + n)).
  { assert (0 <= (1 + u) * x + n) by nra.
    assert (p * ((1 + u) * x + n) <= 4 / 3 * ((1 + u) * x + n))
      by (apply Rmult_le_compat_r; lra).
    nra. }
  assert (p * ((1 + u) * x + n) * eta <= 2 * (x + n) * eta)
    by (apply Rmult_le_compat_r; lra).
  clearbody g p a x n m. lra.
Qed.

(** Two mirrored entries under rounding. *)
Lemma ewma_entry_rounded_mirror (T : nat) (rets : list (list R)) (w : list R) (i j : nat) :
  length rets = T -> length w = T -> Forall (fun x => 0 <= x) w ->
  INR (T + 2) * u <= 1 / 4 ->
  Rabs (Rounded.ewma_entry rnd rets w i j - Rounded.ewma_entry rnd rets w j i)
  <= Rounded.entry_tolerance u eta T rets w i j
     + Rounded.entry_tolerance u eta T rets w j i.
Proof.
  intros Lr Lw Hw Hm.
  pose proof (ewma_entry_rounded_linear T rets w i j Lr Lw Hw Hm) as Eij.
  pose proof (ewma_entry_rounded_linear T rets w j i Lr Lw Hw Hm) as Eji.
  rewrite (ewma_entry_sym rets w j i) in Eji.
  replace (Rounded.ewma_entry rnd rets w i j - Rounded.ewma_entry rnd rets w j i)
    with ((Rounded.ewma_entry rnd rets w i j - Ewma.ewma_entry rets w i j)
          + - (Rounded.ewma_entry rnd rets w j i - Ewma.ewma_entry rets w i j)) by ring.
  eapply Rle_trans; [ apply Rabs_triang | ]. rewrite Rabs_Ropp. lra.
Qed.

End Rounding.

(** Without rounding the expressions are those of exact arithmetic. *)
Lemma np_sum_exact (l : list R) : Rounded.np_sum Rounded.exact l = Ewma.np_sum l.
Proof.
  unfold Rounded.np_sum, Rounded.exact.
  change (fun acc x : R => acc + x) with Rplus.
  rewrite BondTheorems.fold_left_Rplus. lra.
Qed.

Lemma weights_exact (lam : R) (T : nat) :
  Rounded.weights Rounded.exact pow lam T = Ewma.weights lam T.
Proof.
  unfold Rounded.weights, Ewma.weights. rewrite np_sum_exact. reflexivity.
Qed.

Lemma H_ewma_exact (N : nat) (rets : list (list R)) (w : list R) :
  Rounded.H_ewma Rounded.exact N rets w = Ewma.H_ewma N rets w.
Proof.
  unfold Rounded.H_ewma, Ewma.H_ewma, Rounded.matmul, Ewma.matmul.
  apply map_ext. intros row. apply map_ext. intros j.
  unfold Rounded.dot, Ewma.dot. apply np_sum_exact.
Qed.

(** With nothing rounded the tolerance is 0: in exact arithmetic the
    weights sum to 1. *)
Lemma weights_exact_sum (lam : R) (T : nat) :
  (1 <= T)%nat -> 0 < lam < 1 -> Ewma.np_sum (Ewma.weights lam T) = 1.
Proof.
  intros HT Hl.
  pose proof (weights_rounded_sum_linear 0 0 Rounded.all_reals Rounded.exact
                (exact_rounding 0 0 ltac:(lra) ltac:(lra)) pow lam
                (pow_libm lam Hl) I Hl T HT) as B.
  rewrite np_sum_exact, weights_exact in B.
  unfold Rounded.sum_tolerance in B. rewrite !Rmult_0_r, Rplus_0_r in B.
  assert (M : 0 <= 1 / 4) by lra.
  specialize (B M). apply abs_le_interval in B. lra.
Qed.

(** C3, amended: for T >= 2 rows and a float 0 < λ < 1, the weight vector
    of the cell, every operation rounded as float64 rounds it, has one
    weight per row, row t (0 the oldest) weighing (1-λ)·λ^(T-1-t) over the
    sum of these; that sum is positive; every weight is non-negative; an
    older row never weighs more than the next newer one; and, for
    T·u <= 1/4, the weights sum to 1 within 6·T·u + 2·T·η, the newest
    row's weight being positive while that is below 1.  Here u bounds the
    relative error of a rounding and η its absolute error where the
    result underflows. *)
Theorem weights_rounded_invariant (u eta : R) (F : R -> Prop) (rnd : R -> R)
  (npy_pow : R -> nat -> R) (lam : R) (T : nat) :
  Rounded.rounding u eta F rnd -> Rounded.libm_pow F npy_pow lam -> F lam ->
  (2 <= T)%nat -> 0 < lam < 1 ->
  length (Rounded.weights rnd npy_pow lam T) = T /\
  (forall t, (t < T)%nat ->
     nth t (Rounded.weights rnd npy_pow lam T) 0
     = rnd (rnd (rnd (1 - lam) * npy_pow lam (T - 1 - t)%nat)
            / Rounded.np_sum rnd (Rounded.raw_weights rnd npy_pow lam T))) /\
  0 < Rounded.np_sum rnd (Rounded.raw_weights rnd npy_pow lam T) /\
  Forall (fun w => 0 <= w) (Rounded.weights rnd npy_pow lam T) /\
  (forall t, (S t < T)%nat ->
     nth t (Rounded.weights rnd npy_pow lam T) 0
     <= nth (S t) (Rounded.weights rnd npy_pow lam T) 0) /\
  (INR T * u <= 1 / 4 ->
   Rabs (Rounded.np_sum rnd (Rounded.weights rnd npy_pow lam T) - 1)
   <= Rounded.sum_tolerance u eta T /\
   (Rounded.sum_tolerance u eta T < 1 ->
    0 < nth (T - 1) (Rounded.weights rnd npy_pow lam T) 0)).
Proof.
  intros Rd Pw Fl HT Hl.
  split; [ unfold Rounded.weights;
           now rewrite length_map, (length_raw_weights_rounded rnd) | ].
  split; [ intros t Ht; now apply nth_weights_rounded | ].
  split.
  { pose proof (raw_weights_sum_rounded_pos u eta F rnd Rd npy_pow lam Pw Fl Hl T
                  ltac:(lia)) as Hs.
    pose proof (one_minus_lam u eta F rnd Rd lam Fl Hl) as [_ Ha]. lra. }
  split; [ apply (weights_rounded_nonneg u eta F rnd Rd npy_pow lam Pw Fl Hl); lia | ].
  split; [ intros t Ht;
           now apply (weights_rounded_monotone u eta F rnd Rd npy_pow lam Pw Fl Hl) | ].
  intros Hm. split.
  - apply (weights_rounded_sum_linear u eta F rnd Rd npy_pow lam Pw Fl Hl); [ lia | exact Hm ].
  - intros Ht.
    apply (weights_rounded_newest_pos u eta F rnd Rd npy_pow lam Pw Fl Hl);
      [ lia | exact Hm | exact Ht ].
Qed.

Lemma weights_rounded_invariant_witness :
  Forall (fun w => 0 <= w)
    (Rounded.weights (Rounded.fixed 4) (Rounded.fixed_pow 4) (1 / 2) 6) /\
  Rabs (Rounded.np_sum (Rounded.fixed 4)
          (Rounded.weights (Rounded.fixed 4) (Rounded.fixed_pow 4) (1 / 2) 6) - 1)
  <= Rounded.sum_tolerance 0 (/ 2 ^ 5) 6 /\
  0 < nth 5 (Rounded.weights (Rounded.fixed 4) (Rounded.fixed_pow 4) (1 / 2) 6) 0.
Proof.
  destruct (weights_rounded_invariant 0 (/ 2 ^ 5)
              (Rounded.on_grid 4) (Rounded.fixed 4) (Rounded.fixed_pow 4) (1 / 2) 6)
    as (_ & _ & _ & P & _ & S).
  - apply (fixed_rounding 4).
  - apply fixed_pow_libm. lra.
  - exists 8%Z. cbn. lra.
  - lia.
  - lra.
  - destruct S as [S1 S2]; [ lra | ].
    split; [ exact P | ]. split; [ exact S1 | ].
    apply S2. unfold Rounded.sum_tolerance. cbn. lra.
Defined.

(** C4, amended: for every array of T rows and N columns and every vector
    of T non-negative weights, the matrix of the cell, every operation
    rounded as float64 rounds it, is N by N, its entry (i, j) the rounded
    sum over the rows of (x_t[i] · weight_t) · x_t[j], and has no negative
    entry on its diagonal.  The matrix of exact arithmetic, with entries
    Σ_t weight_t · x_t[i] · x_t[j], is symmetric and positive
    semi-definite, and for (T+2)·u <= 1/4 entry (i, j) of the rounded
    matrix lies within
    2·(T+2)·u·Σ_t weight_t·|x_t[i]|·|x_t[j]| + 2·(Σ_t |x_t[j]| + T)·η of
    it, so that two mirrored entries differ by at most the two distances
    added. *)
Theorem H_ewma_rounded_covariance (u eta : R) (F : R -> Prop) (rnd : R -> R)
  (T N : nat) (rets : list (list R)) (w : list R) :
  Rounded.rounding u eta F rnd ->
  has_shape T N rets -> length w = T -> Forall (fun x => 0 <= x) w ->
  has_shape N N (Rounded.H_ewma rnd N rets w) /\
  (forall i j, (i < N)%nat -> (j < N)%nat ->
     entry (Rounded.H_ewma rnd N rets w) i j = Rounded.ewma_entry rnd rets w i j) /\
  (forall i, (i < N)%nat -> 0 <= entry (Rounded.H_ewma rnd N rets w) i i) /\
  symmetric N (Ewma.H_ewma N rets w) /\
  positive_semidefinite N (Ewma.H_ewma N rets w) /\
  (INR (T + 2) * u <= 1 / 4 ->
   forall i j, (i < N)%nat -> (j < N)%nat ->
     Rabs (entry (Rounded.H_ewma rnd N rets w) i j - entry (Ewma.H_ewma N rets w) i j)
     <= Rounded.entry_tolerance u eta T rets w i j /\
     Rabs (entry (Rounded.H_ewma rnd N rets w) i j
           - entry (Rounded.H_ewma rnd N rets w) j i)
     <= Rounded.entry_tolerance u eta T rets w i j
        + Rounded.entry_tolerance u eta T rets w j i).
Proof.
  intros Rd [Lr _] Lw Hw.
  split; [ apply (H_ewma_rounded_shape u eta F rnd Rd) | ].
  split; [ intros i j Hi Hj; now apply (H_ewma_rounded_entry u eta F rnd Rd) | ].
  split.
  { intros i Hi. rewrite (H_ewma_rounded_entry u eta F rnd Rd) by assumption.
    now apply (ewma_entry_rounded_diagonal u eta F rnd Rd). }
  split.
  { intros i j Hi Hj. rewrite !H_ewma_entry by assumption. apply ewma_entry_sym. }
  split; [ now apply H_ewma_psd | ].
  intros Hm i j Hi Hj.
  rewrite !(H_ewma_rounded_entry u eta F rnd Rd), !H_ewma_entry by assumption.
  split.
  - now apply (ewma_entry_rounded_linear u eta F rnd Rd).
  - now apply (ewma_entry_rounded_mirror u eta F rnd Rd).
Qed.

Lemma H_ewma_rounded_covariance_witness :
  0 <= entry (Rounded.H_ewma (Rounded.fixed 4) 2 [[1; 2]; [3; -1]] [1 / 4; 3 / 4]) 0 0 /\
  Rabs (entry (Rounded.H_ewma (Rounded.fixed 4) 2 [[1; 2]; [3; -1]] [1 / 4; 3 / 4]) 0 1
        - entry (Ewma.H_ewma 2 [[1; 2]; [3; -1]] [1 / 4; 3 / 4]) 0 1)
  <= Rounded.entry_tolerance 0 (/ 2 ^ 5) 2 [[1; 2]; [3; -1]] [1 / 4; 3 / 4] 0 1.
Proof.
  destruct (H_ewma_rounded_covariance 0 (/ 2 ^ 5)
              (Rounded.on_grid 4) (Rounded.fixed 4) 2 2 [[1; 2]; [3; -1]] [1 / 4; 3 / 4])
    as (_ & _ & D & _ & _ & E).
  - apply (fixed_rounding 4).
  - split; [ reflexivity | repeat constructor ].
  - reflexivity.
  - repeat constructor; lra.
  - split; [ apply D; lia | ]. apply E; [ lra | lia | lia ].
Defined.

(** X15: the estimator on the weights it computes itself.  For a float
    0 < λ < 1 and every array of T rows and N columns, T = 0 and T = 1
    included, the weights of the cell are non-negative and its matrix,
    every operation rounded as float64 rounds it, is N by N, has no
    negative entry on its diagonal and, for (T+2)·u <= 1/4, has mirrored
    entries that differ by at most the two entry tolerances added. *)
Theorem ewma_covariance_rounded (u eta : R) (F : R -> Prop) (rnd : R -> R)
  (npy_pow : R -> nat -> R) (lam : R) (N : nat) (rets : list (list R)) :
  Rounded.rounding u eta F rnd -> Rounded.libm_pow F npy_pow lam -> F lam ->
  0 < lam < 1 ->
  Forall (fun x => 0 <= x) (Rounded.weights rnd npy_pow lam (length rets)) /\
  has_shape N N
    (Rounded.H_ewma rnd N rets (Rounded.weights rnd npy_pow lam (length rets))) /\
  (forall i, (i < N)%nat ->
     0 <= entry (Rounded.H_ewma rnd N rets
                   (Rounded.weights rnd npy_pow lam (length rets))) i i) /\
  (INR (length rets + 2) * u <= 1 / 4 ->
   forall i j, (i < N)%nat -> (j < N)%nat ->
     Rabs (entry (Rounded.H_ewma rnd N rets
                    (Rounded.weights rnd npy_pow lam (length rets))) i j
           - entry (Rounded.H_ewma rnd N rets
                      (Rounded.weights rnd npy_pow lam (length rets))) j i)
     <= Rounded.entry_tolerance u eta (length rets) rets
          (Rounded.weights rnd npy_pow lam (length rets)) i j
        + Rounded.entry_tolerance u eta (length rets) rets
            (Rounded.weights rnd npy_pow lam (length rets)) j i).
Proof.
  intros Rd Pw Fl Hl.
  assert (Wn : Forall (fun x => 0 <= x)
                 (Rounded.weights rnd npy_pow lam (length rets))).
  { destruct rets as [ | row rets]; [ constructor | ].
    apply (weights_rounded_nonneg u eta F rnd Rd npy_pow lam Pw Fl Hl).
    cbn [length]. lia. }
  assert (Lw : length (Rounded.weights rnd npy_pow lam (length rets)) = length rets).
  { unfold Rounded.weights. now rewrite length_map, (length_raw_weights_rounded rnd). }
  split; [ exact Wn | ].
  split; [ apply (H_ewma_rounded_shape u eta F rnd Rd) | ].
  split.
  - intros i Hi. rewrite (H_ewma_rounded_entry u eta F rnd Rd) by assumption.
    now apply (ewma_entry_rounded_diagonal u eta F rnd Rd).
  - intros Hm i j Hi Hj.
    rewrite !(H_ewma_rounded_entry u eta F rnd Rd) by assumption.
    now apply (ewma_entry_rounded_mirror u eta F rnd Rd).
Qed.

Lemma ewma_covariance_rounded_witness :
  0 <= entry (Rounded.H_ewma (Rounded.fixed 4) 2 [[1; 2]; [3; -1]]
                (Rounded.weights (Rounded.fixed 4) (Rounded.fixed_pow 4) (1 / 2)
                   (length [[1; 2]; [3; -1]])))
             0 0 /\
  0 <= entry (Rounded.H_ewma (Rounded.fixed 4) 2 [[1; 2]; [3; -1]]
                (Rounded.weights (Rounded.fixed 4) (Rounded.fixed_pow 4) (1 / 2)
                   (length [[1; 2]; [3; -1]])))
             1 1.
Proof.
  destruct (ewma_covariance_rounded 0 (/ 2 ^ 5)
              (Rounded.on_grid 4) (Rounded.fixed 4) (Rounded.fixed_pow 4) (1 / 2)
              2 [[1; 2]; [3; -1]])
    as (_ & _ & D & _).
  - apply (fixed_rounding 4).
  - apply fixed_pow_libm. lra.
  - exists 8%Z. cbn. lra.
  - lra.
  - split; apply D; lia.
Defined.

End RoundedFacts.
